(** * Barby concert bot: snapshot diff and notification pipeline

    A shallow embedding of the poll / diff / notify pipeline
    ([src/barby_api_scraper.py], [redis_logic/redis_concert_cache.py],
    [aws_lambda/lambda_function.py]) and the properties of it that the
    specification states; then the chat commands and the digest of the
    bot ([telegram_logic/telegram_bot.py]) and further properties of the
    code: what the listing, the snapshot store, the registry, the
    commands and a whole invocation do, keep and never do.

    Conventions.
    - A Python [str] is the list of its Unicode code points ([pystr]),
      so that [len] counts what Python counts.
    - The dicts the code uses as structs are records; the dicts it uses
      as maps are [gmap]s, or association lists where the iteration order
      is observable.
    - Stateful code runs in a small state-and-exception monad over [world],
      which holds the Redis keyspace, the outcome the environment will
      give to each external call, and the trace of the calls made. *)

From Stdlib Require Import ZArith NArith String Ascii List Bool Lia.
From Stdlib Require Import Sorted.
From stdpp Require Import base option list gmap fin_maps.
Import ListNotations.

Open Scope Z_scope.

(** ** Python strings *)

Abbreviation pystr := (list N).

Module Str.

(** UTF-8 decoding of the bytes of a literal into code points. *)
Fixpoint bytes (s : string) : list N :=
  match s with
  | EmptyString => []
  | String a s' => N_of_ascii a :: bytes s'
  end.

Definition cont (b : N) : N := N.land b 63.

Fixpoint decode (fuel : nat) (bs : list N) : pystr :=
  match fuel with
  | O => []
  | S fuel' =>
    match bs with
    | [] => []
    | b0 :: r0 =>
      if (b0 <? 128)%N then b0 :: decode fuel' r0
      else if (b0 <? 224)%N then
        match r0 with
        | b1 :: r1 => (N.land b0 31 * 64 + cont b1)%N :: decode fuel' r1
        | _ => []
        end
      else if (b0 <? 240)%N then
        match r0 with
        | b1 :: b2 :: r2 =>
          (N.land b0 15 * 4096 + cont b1 * 64 + cont b2)%N :: decode fuel' r2
        | _ => []
        end
      else
        match r0 with
        | b1 :: b2 :: b3 :: r3 =>
          (N.land b0 7 * 262144 + cont b1 * 4096 + cont b2 * 64 + cont b3)%N
            :: decode fuel' r3
        | _ => []
        end
    end
  end.

Definition utf8 (s : string) : pystr :=
  let bs := bytes s in decode (length bs) bs.

(** [str.isspace] on one character: the code points Python treats as
    whitespace in [strip()] and [split()]. *)
Definition isspace (c : N) : bool :=
  ((9 <=? c) && (c <=? 13) || (28 <=? c) && (c <=? 32)
   || (c =? 133) || (c =? 160) || (c =? 5760)
   || (8192 <=? c) && (c <=? 8202)
   || (c =? 8232) || (c =? 8233) || (c =? 8239) || (c =? 8287)
   || (c =? 12288))%N.

Fixpoint lstrip (s : pystr) : pystr :=
  match s with
  | c :: s' => if isspace c then lstrip s' else s
  | [] => []
  end.

Definition rstrip (s : pystr) : pystr := rev (lstrip (rev s)).

(** [s.strip()] *)
Definition strip (s : pystr) : pystr := rstrip (lstrip s).

(** [s.split()]: the maximal runs of non-whitespace characters.
    [cur] is the run being read, reversed. *)
Fixpoint split_ws (cur : pystr) (s : pystr) : list pystr :=
  match s with
  | [] => match cur with [] => [] | _ => [rev cur] end
  | c :: s' =>
    if isspace c
    then match cur with
         | [] => split_ws [] s'
         | _ => rev cur :: split_ws [] s'
         end
    else split_ws (c :: cur) s'
  end.

Definition split (s : pystr) : list pystr := split_ws [] s.

(** [sep.join(parts)] *)
Fixpoint join (sep : pystr) (parts : list pystr) : pystr :=
  match parts with
  | [] => []
  | [p] => p
  | p :: ps => p ++ sep ++ join sep ps
  end.

(** [s.split(sep)[-1]] for a one-character separator: what follows the
    last occurrence of [sep], the whole string when there is none. *)
Fixpoint last_segment (sep : N) (s : pystr) : pystr :=
  match s with
  | [] => []
  | c :: s' =>
    if (c =? sep)%N then last_segment sep s'
    else if existsb (N.eqb sep) s' then last_segment sep s' else s
  end.

Fixpoint prefixb (p s : pystr) : bool :=
  match p, s with
  | [], _ => true
  | a :: p', b :: s' => (a =? b)%N && prefixb p' s'
  | _ :: _, [] => false
  end.

(** [needle in s] *)
Fixpoint contains (needle s : pystr) : bool :=
  prefixb needle s ||
  match s with
  | [] => false
  | _ :: s' => contains needle s'
  end.

(** Truthiness of a string: non-empty. *)
Definition truthy (s : pystr) : bool :=
  match s with [] => false | _ => true end.

(** [a or b] on strings. *)
Definition or_else (a b : pystr) : pystr := if truthy a then a else b.

Definition eqb (a b : pystr) : bool := bool_decide (a = b).

(** [str(n)] for an integer. *)
Fixpoint digits (fuel : nat) (n : N) (acc : pystr) : pystr :=
  match fuel with
  | O => acc
  | S fuel' =>
    let acc' := (48 + n mod 10)%N :: acc in
    if (n <? 10)%N then acc' else digits fuel' (n / 10)%N acc'
  end.

Definition of_N (n : N) : pystr := digits (S (N.to_nat (N.log2 n))) n [].

Definition of_Z (z : Z) : pystr :=
  if z <? 0 then 45%N :: of_N (Z.to_N (- z)) else of_N (Z.to_N z).

(** ASCII-only lowering, the behaviour of [str.lower] on ASCII text. *)
Definition ascii_lower (s : pystr) : pystr :=
  map (fun c => if ((65 <=? c) && (c <=? 90))%N then (c + 32)%N else c) s.

End Str.

Notation "'u8' s" := (Str.utf8 s%string) (at level 9, s at level 0, only parsing).

Arguments Str.utf8 : simpl never.
Arguments Str.of_N : simpl never.
Arguments Str.of_Z : simpl never.

(** Library functions whose tables are not part of this repository. *)
Class Builtins := {
  (** [str.lower] *)
  str_lower : pystr -> pystr;
  (** [hashlib.md5(s.encode("utf-8")).hexdigest()] *)
  md5_hexdigest : pystr -> pystr;
  (** [datetime.strptime(s, "%d/%m/%Y")] as a day ordinal; [None] stands
      for the [ValueError] of an unparsable date. *)
  strptime : pystr -> option Z;
}.

(** ** Show records (barby_api_scraper.py) *)

(** One show object of the upstream listing. A field is [None] when the
    key is absent from the JSON object. *)
Record RawShow := {
  showId : option pystr;
  showName : option pystr;
  showTitle : option pystr;
  showShortTitle : option pystr;
  showDate : option pystr;
  showTime : option pystr;
  showPrice : option pystr;
  showSold : option Z;
  showSoldMaxBuy : option pystr;
  showSeatType : option pystr;
  showImage : option pystr;
  notbybarbtsellsoldout : option pystr;
}.

(** The dict built by [parse_show]; the key ["id"] is the field
    [unique_id]. [raw_data] is [None] once [save_state] has popped it. *)
Record Concert := {
  unique_id : pystr;
  show_id : pystr;
  artist : pystr;
  title : pystr;
  full_title : pystr;
  short_title : pystr;
  date : pystr;
  time : pystr;
  datetime : pystr;
  event_date : option Z;
  price : pystr;
  sold_tickets : Z;
  max_tickets : pystr;
  seat_type : pystr;
  is_sold_out : bool;
  url : pystr;
  raw_data : option RawShow;
}.

(** [d.get(key, default)] on a key that may be absent. *)
Definition dict_get {A} (field : option A) (dflt : A) : A := default dflt field.

Module BarbyApiScraper.
Section Scraper.
Context `{Builtins}.

Definition base_url : pystr := u8"https://barby.co.il".

(** On a show object whose fields have the types of [RawShow] no statement
    of the [try] block raises, so the [except] branch that returns [None]
    is not taken and the result is always a dict. The log lines of this
    module are not part of the model. *)
Definition parse_show (show_data : RawShow) : Concert :=
  let show_id := dict_get (showId show_data) [] in
  let show_name := dict_get (showName show_data) (u8"Unknown Artist") in
  let show_title := dict_get (showTitle show_data) [] in
  let show_short_title := dict_get (showShortTitle show_data) [] in
  let show_date := dict_get (showDate show_data) [] in
  let show_time := dict_get (showTime show_data) [] in
  let show_price := dict_get (showPrice show_data) [] in
  let show_sold := dict_get (showSold show_data) 0 in
  let show_sold_max := dict_get (showSoldMaxBuy show_data) [] in
  let seat_type := dict_get (showSeatType show_data) [] in
  let is_sold_out :=
    Str.eqb (dict_get (notbybarbtsellsoldout show_data) (u8"0")) (u8"1") in
  let datetime_str :=
    if Str.truthy show_date && Str.truthy show_time
    then show_date ++ u8" " ++ show_time else show_date in
  let event_date :=
    if Str.truthy show_date then strptime show_date else None in
  let show_url :=
    if Str.truthy show_id then base_url ++ u8"/show/" ++ show_id
    else base_url in
  let unique_id :=
    md5_hexdigest (show_id ++ u8"_" ++ show_date ++ u8"_" ++ show_time) in
  let display_title :=
    Str.or_else show_title (Str.or_else show_short_title show_name) in
  {| unique_id := unique_id;
     show_id := show_id;
     artist := show_name;
     title := display_title;
     full_title := show_title;
     short_title := show_short_title;
     date := show_date;
     time := show_time;
     datetime := datetime_str;
     event_date := event_date;
     price := show_price;
     (* str(show_sold).isdigit() holds for the non-negative integers *)
     sold_tickets := if 0 <=? show_sold then show_sold else 0;
     max_tickets := show_sold_max;
     seat_type := seat_type;
     is_sold_out := is_sold_out;
     url := show_url;
     raw_data := Some show_data |}.

(** The value under ["show"]: one object or an array of objects. *)
Inductive shows_data := OneShow (s : RawShow) | ShowArray (l : list RawShow).

(** The decoded JSON body: [returnShow] is [None] when the key is
    absent, [Some None] when it is there without a ["show"] key. *)
Record api_data := {
  returnShow : option (option shows_data);
  other_keys : list pystr;
}.

(** What the HTTP GET of the listing gives. *)
Inductive http_outcome :=
| RequestFailed
| InvalidJson
| JsonBody (data : api_data).

Definition get_shows_raw (resp : http_outcome) : option api_data :=
  match resp with
  | RequestFailed => None
  | InvalidJson => None
  | JsonBody data => Some data
  end.

(** [not raw_data] on the decoded dict. *)
Definition dict_empty (data : api_data) : bool :=
  match returnShow data, other_keys data with
  | None, [] => true
  | _, _ => false
  end.

(** [datetime.min] as a day ordinal. *)
Definition datetime_min : Z := 1.

Definition sort_key (x : Concert) : Z := default datetime_min (event_date x).

Fixpoint insert_sorted (x : Concert) (l : list Concert) : list Concert :=
  match l with
  | [] => [x]
  | y :: l' =>
    if sort_key x <=? sort_key y then x :: l else y :: insert_sorted x l'
  end.

(** [shows.sort(key=...)]: a stable sort. *)
Definition sort_shows (l : list Concert) : list Concert :=
  foldr insert_sorted [] l.

Definition get_concerts (resp : http_outcome) : list Concert :=
  match get_shows_raw resp with
  | None => []
  | Some raw_data =>
    if dict_empty raw_data then []
    else
      let shows :=
        match returnShow raw_data with
        | Some (Some shows_data) =>
          let shows_data :=
            match shows_data with
            | OneShow s => [s]
            | ShowArray l => l
            end in
          map parse_show shows_data
        | _ => []
        end in
      sort_shows shows
  end.

(** The loop of [get_upcoming_concerts] over [all_concerts]. [today] is
    the day ordinal of [datetime.now().date()]; an [event_date] parsed
    from a day has the ordinal of its [.date()]. *)
Fixpoint upcoming_loop (today days_ahead : Z) (all_concerts : list Concert)
    (upcoming : list Concert) : list Concert :=
  match all_concerts with
  | [] => upcoming
  | concert :: all_concerts' =>
    upcoming_loop today days_ahead all_concerts'
      (match event_date concert with
       | Some event_date =>
         let days_diff := event_date - today in
         if (0 <=? days_diff) && (days_diff <=? days_ahead)
         then upcoming ++ [concert] else upcoming
       | None => upcoming
       end)
  end.

Definition get_upcoming_concerts (today : Z) (days_ahead : Z)
    (resp : http_outcome) : list Concert :=
  let all_concerts := get_concerts resp in
  match all_concerts with
  | [] => []
  | _ => upcoming_loop today days_ahead all_concerts []
  end.

End Scraper.
End BarbyApiScraper.

Export BarbyApiScraper.

(** ** The world outside the process *)

(** The outcome of a call: a value, or a raised exception given by its
    [str(e)]. The exceptions of the model are those the Redis client and
    the Bot API raise, all of them subclasses of [Exception]. *)
Inductive res (A : Type) :=
| Ok (a : A)
| Raise (e : pystr).
Arguments Ok {A} a.
Arguments Raise {A} e.

(** A registry entry: the JSON object stored per subscriber. *)
Record Subscriber := {
  user_id : Z;
  username : pystr;
  first_name : pystr;
  subscribed_at : pystr;
}.

Record Metadata := {
  last_check : pystr;
  total_concerts : nat;
  updated_at : pystr;
}.

(** A JSON text held under a string key, written as the value it encodes. *)
Inductive json_doc :=
| JConcert (c : Concert)
| JMetadata (m : Metadata).

(** Calls of the Telegram Bot API. *)
Inductive call :=
| SendPhoto (chat_id : Z) (photo caption : pystr)
| SendMessage (chat_id : Z) (text : pystr).

Definition chat_of (c : call) : Z :=
  match c with
  | SendPhoto chat_id _ _ => chat_id
  | SendMessage chat_id _ => chat_id
  end.

Inductive redis_cmd :=
| Ping
| Keys (prefix : pystr)
| Get (key : pystr)
| Exec
| Hset (field : Z)
| Hdel (field : Z)
| Hgetall
| Hexists (field : Z)
| Hlen.

(** What the process did to the outside, in order: a Redis command with
    whether it was answered, a Bot API call with the exception it raised. *)
Inductive event :=
| ERedis (cmd : redis_cmd) (ok : bool)
| ESend (c : call) (r : option pystr).

Inductive level := INFO | WARNING | ERROR.

(** What one invocation finds around it and does not change: the answer
    of the venue API to its request, the process environment, the time.
    [redis_port] is what [int(os.getenv("REDIS_PORT", 6379))] evaluates
    to: the port, or the [ValueError] that [int] raises on the text the
    variable holds. [redis_addr] is the [host:port] that the cache logs
    once it is connected. *)
Record environment := {
  upstream : http_outcome;
  telegram_token : option pystr;
  redis_port : res Z;
  redis_addr : pystr;
  clock : pystr;
}.

(** [strings] are the string keys of the Redis server and [subscribers]
    the fields of the hash [barby:subscribers], filed under the integer
    their name spells. [faults] and [replies] are what the environment
    will do to the next Redis commands and Bot API calls, one entry per
    call: [Some msg] makes the call raise an exception with that message.
    Past the end of the list every call succeeds. *)
Record world := {
  env : environment;
  strings : gmap pystr json_doc;
  subscribers : gmap Z Subscriber;
  faults : list (option pystr);
  replies : list (option pystr);
  trace : list event;
  log : list (level * pystr);
}.

Definition set_strings (s : gmap pystr json_doc) (w : world) : world :=
  {| env := env w; strings := s; subscribers := subscribers w;
     faults := faults w; replies := replies w; trace := trace w;
     log := log w |}.

Definition set_subscribers (s : gmap Z Subscriber) (w : world) : world :=
  {| env := env w; strings := strings w; subscribers := s;
     faults := faults w; replies := replies w; trace := trace w;
     log := log w |}.

Definition set_faults (f : list (option pystr)) (w : world) : world :=
  {| env := env w; strings := strings w; subscribers := subscribers w;
     faults := f; replies := replies w; trace := trace w; log := log w |}.

Definition set_replies (r : list (option pystr)) (w : world) : world :=
  {| env := env w; strings := strings w; subscribers := subscribers w;
     faults := faults w; replies := r; trace := trace w; log := log w |}.

Definition add_event (e : event) (w : world) : world :=
  {| env := env w; strings := strings w; subscribers := subscribers w;
     faults := faults w; replies := replies w; trace := trace w ++ [e];
     log := log w |}.

Definition add_log (l : level) (text : pystr) (w : world) : world :=
  {| env := env w; strings := strings w; subscribers := subscribers w;
     faults := faults w; replies := replies w; trace := trace w;
     log := log w ++ [(l, text)] |}.

(** ** State and exceptions *)

Definition M (A : Type) : Type := world -> world * res A.

Definition ret {A} (a : A) : M A := fun w => (w, Ok a).

Definition raise {A} (e : pystr) : M A := fun w => (w, Raise e).

Definition bind {A B} (m : M A) (k : A -> M B) : M B := fun w =>
  match m w with
  | (w', Ok a) => k a w'
  | (w', Raise e) => (w', Raise e)
  end.

Declare Scope py_scope.
Delimit Scope py_scope with py.
Notation "x <- m ;; k" := (bind m (fun x => k))
  (at level 100, m at next level, right associativity) : py_scope.
Notation "m ;; k" := (bind m (fun _ => k))
  (at level 100, right associativity) : py_scope.
Open Scope py_scope.

(** [try: body except Exception as e: handler(str(e))] *)
Definition try_except {A} (body : M A) (handler : pystr -> M A) : M A := fun w =>
  match body w with
  | (w', Raise e) => handler e w'
  | other => other
  end.

(** [try: body except: pass] *)
Definition try_pass (body : M unit) : M unit := fun w =>
  match body w with
  | (w', _) => (w', Ok tt)
  end.

(** [for x in l: body(x)] *)
Fixpoint for_each {A} (l : list A) (body : A -> M unit) : M unit :=
  match l with
  | [] => ret tt
  | x :: l' => body x ;; for_each l' body
  end.

Definition logger (l : level) (text : pystr) : M unit := fun w =>
  (add_log l text w, Ok tt).

Definition get_world : M world := fun w => (w, Ok w).

(** [asyncio.sleep]: only time passes. *)
Definition sleep : M unit := ret tt.

(** One command sent to the Redis server. It uses up the next entry of
    [faults]; unless that entry makes it raise, [run] is its effect on
    the keyspace and its reply. *)
Definition redis_command {A} (cmd : redis_cmd) (run : world -> world * A) : M A :=
  fun w =>
    let w0 := set_faults (tail (faults w)) w in
    match head (faults w) with
    | Some (Some msg) => (add_event (ERedis cmd false) w0, Raise msg)
    | _ => let '(w1, a) := run w0 in (add_event (ERedis cmd true) w1, Ok a)
    end.

(** One call of the Bot API. It uses up the next entry of [replies]. *)
Definition bot_call (c : call) : M unit := fun w =>
  let w0 := set_replies (tail (replies w)) w in
  match head (replies w) with
  | Some (Some e) => (add_event (ESend c (Some e)) w0, Raise e)
  | _ => (add_event (ESend c None) w0, Ok tt)
  end.

(** ** The snapshot store and the subscriber registry
       (redis_concert_cache.py) *)

Module RedisConcertCache.

(** The pattern [barby:concert:*] of [KEYS], as the prefix it selects. *)
Definition concert_prefix : pystr := u8"barby:concert:".

Definition get_concert_key (concert_id : pystr) : pystr :=
  concert_prefix ++ concert_id.

Definition get_metadata_key : pystr := u8"barby:metadata".

(** *** Redis commands *)

Definition ping : M unit := redis_command Ping (fun w => (w, tt)).

Definition keys (prefix : pystr) : M (list pystr) :=
  redis_command (Keys prefix) (fun w =>
    (w, filter (fun k => Str.prefixb prefix k = true)
               (map fst (map_to_list (strings w))))).

Definition get (key : pystr) : M (option json_doc) :=
  redis_command (Get key) (fun w => (w, strings w !! key)).

(** The commands buffered in a pipeline. *)
Inductive pipe_cmd :=
| Delete (ks : list pystr)
| Setex (key : pystr) (ttl : Z) (value : json_doc).

Definition apply_cmd (s : gmap pystr json_doc) (c : pipe_cmd)
  : gmap pystr json_doc :=
  match c with
  | Delete ks => foldr delete s ks
  | Setex key _ value => <[key := value]> s
  end.

(** [pipe.execute()]: the buffered commands applied in order, as one
    transaction. *)
Definition execute (pipe : list pipe_cmd) : M unit :=
  redis_command Exec (fun w =>
    (set_strings (foldl apply_cmd (strings w) pipe) w, tt)).

Definition hset (field : Z) (value : Subscriber) : M unit :=
  redis_command (Hset field) (fun w =>
    (set_subscribers (<[field := value]> (subscribers w)) w, tt)).

(** [HDEL] answers the number of fields it removed. *)
Definition hdel (field : Z) : M Z :=
  redis_command (Hdel field) (fun w =>
    (set_subscribers (delete field (subscribers w)) w,
     match subscribers w !! field with Some _ => 1 | None => 0 end)).

Definition hgetall : M (list (Z * Subscriber)) :=
  redis_command Hgetall (fun w => (w, map_to_list (subscribers w))).

Definition hexists (field : Z) : M bool :=
  redis_command (Hexists field) (fun w =>
    (w, bool_decide (is_Some (subscribers w !! field)))).

Definition hlen : M Z :=
  redis_command Hlen (fun w => (w, Z.of_nat (size (subscribers w)))).

(** *** RedisConcertCache *)

(** [__init__]: connects and pings; a failure is logged and raised again.
    The two [except] clauses differ in the text of the log line only; the
    one kept here is that of [redis.exceptions.ConnectionError]. The
    caller has evaluated the port before the call, [redis_addr] being
    the [host:port] of the log line. *)
Definition init : M unit := fun w =>
  match ping w with
  | (w', Ok _) =>
    logger INFO (u8"✅ Connected to Redis at " ++ redis_addr (env w)) w'
  | (w', Raise e) =>
    match logger ERROR (u8"❌ Failed to connect to Redis: " ++ e) w' with
    | (w'', _) => (w'', Raise e)
    end
  end.

(** The loop over the keys found, filling the dict [concerts]. *)
Fixpoint load_concerts (concert_keys : list pystr)
    (concerts : gmap pystr json_doc) : M (gmap pystr json_doc) :=
  match concert_keys with
  | [] => ret concerts
  | key :: concert_keys' =>
    concert_data <- get key ;;
    match concert_data with
    | Some concert =>
      let concert_id := Str.last_segment 58 key in
      load_concerts concert_keys' (<[concert_id := concert]> concerts)
    | None => load_concerts concert_keys' concerts
    end
  end.

Definition load_body : M (gmap pystr json_doc * option pystr) :=
  concert_keys <- keys concert_prefix ;;
  concerts <- load_concerts concert_keys ∅ ;;
  metadata <- get get_metadata_key ;;
  let last_check :=
    match metadata with
    | Some (JMetadata meta_data) => Some (last_check meta_data)
    | _ => None
    end in
  logger INFO (u8"📁 Loaded " ++ Str.of_N (N.of_nat (size concerts))
               ++ u8" concerts from Redis cache") ;;
  match last_check with
  | Some t => logger INFO (u8"📅 Last check was: " ++ t)
  | None => ret tt
  end ;;
  ret (concerts, last_check).

Definition load_last_state : M (gmap pystr json_doc * option pystr) :=
  try_except load_body
    (fun e => logger ERROR (u8"❌ Error loading from Redis: " ++ e) ;;
              ret (∅, None)).

(** [concert.copy()] with ["raw_data"] popped; the date is kept as the
    value its ISO text denotes. *)
Definition concert_copy (concert : Concert) : Concert :=
  {| unique_id := unique_id concert; show_id := show_id concert;
     artist := artist concert; title := title concert;
     full_title := full_title concert; short_title := short_title concert;
     date := date concert; time := time concert;
     datetime := datetime concert; event_date := event_date concert;
     price := price concert; sold_tickets := sold_tickets concert;
     max_tickets := max_tickets concert; seat_type := seat_type concert;
     is_sold_out := is_sold_out concert; url := url concert;
     raw_data := None |}.

(** The commands queued on the pipeline. [last_check] and [updated_at] are
    two readings of the clock in the source; the model has one reading per
    run. *)
Definition save_pipeline (timestamp : pystr) (old_keys : list pystr)
    (concerts : list (pystr * Concert)) : list pipe_cmd :=
  (match old_keys with [] => [] | _ => [Delete old_keys] end)
  ++ map (fun kv => Setex (get_concert_key (fst kv)) 604800
                          (JConcert (concert_copy (snd kv)))) concerts
  ++ [Setex get_metadata_key 604800
        (JMetadata {| last_check := timestamp;
                      total_concerts := length concerts;
                      updated_at := timestamp |})].

Definition save_body (concerts : list (pystr * Concert)) : M unit :=
  w <- get_world ;;
  let timestamp := clock (env w) in
  old_keys <- keys concert_prefix ;;
  execute (save_pipeline timestamp old_keys concerts) ;;
  logger INFO (u8"💾 Saved " ++ Str.of_N (N.of_nat (length concerts))
               ++ u8" concerts to Redis cache").

Definition save_state (concerts : list (pystr * Concert)) : M unit :=
  try_except (save_body concerts)
    (fun e => logger ERROR (u8"❌ Error saving to Redis: " ++ e)).

Definition add_subscriber (user_id : Z) (username first_name : pystr) : M unit :=
  try_except
    (w <- get_world ;;
     let user_data :=
       {| user_id := user_id; username := username;
          first_name := first_name; subscribed_at := clock (env w) |} in
     hset user_id user_data ;;
     logger INFO (u8"👤 Added subscriber: " ++ first_name ++ u8" (@"
                  ++ username ++ u8")"))
    (fun e => logger ERROR (u8"❌ Error adding subscriber: " ++ e)).

(** The function has no [return] statement: what the caller gets is
    Python's [None], here the [None] of [option bool]. *)
Definition remove_subscriber (user_id : Z) : M (option bool) :=
  try_except
    (result <- hdel user_id ;;
     (if negb (result =? 0)
      then logger INFO (u8"👤 Removed subscriber: " ++ Str.of_Z user_id)
      else logger WARNING (u8"⚠️  Subscriber " ++ Str.of_Z user_id
                           ++ u8" not found")) ;;
     ret None)
    (fun e => logger ERROR (u8"❌ Error removing subscriber: " ++ e) ;;
              ret None).

Definition get_all_subscribers : M (list Subscriber) :=
  try_except
    (subscribers_data <- hgetall ;;
     ret (map snd subscribers_data))
    (fun e => logger ERROR (u8"❌ Error getting subscribers: " ++ e) ;;
              ret []).

Definition subscriber_exists (user_id : Z) : M bool := hexists user_id.

Definition get_subscriber_count : M Z :=
  try_except hlen
    (fun e => logger ERROR (u8"❌ Error getting subscriber count: " ++ e) ;;
              ret 0).

(** [health_check]: the ping under [try: ... except: return False]. *)
Definition health_check : M bool :=
  try_except (ping ;; ret true) (fun _ => ret false).

End RedisConcertCache.

Export RedisConcertCache.

(** ** The notifier and the handler (lambda_function.py) *)

(** The dict handed to the notifier. The notifier reads it with [.get]
    under the upstream key names ([showName], [showPrice], ...). The dict
    built by [parse_show] has the keys [id], [show_id], [artist], [title],
    [full_title], [short_title], [date], [time], [datetime], [event_date],
    [price], [sold_tickets], [max_tickets], [seat_type], [is_sold_out],
    [url] and [raw_data], so none of the upstream names is a key of it. *)
Inductive show_dict :=
| FromApi (r : RawShow)
| FromParser (c : Concert).

(** The optional value under an upstream key. *)
Definition api_field (concert : show_dict) (key : RawShow -> option pystr)
  : option pystr :=
  match concert with
  | FromApi r => key r
  | FromParser _ => None
  end.

Definition nl : pystr := [10%N].
Definition dquote : pystr := [34%N].

Module BarbyConcertNotifier.
Section Notifier.
Context `{Builtins}.

(** [__init__]: [Bot(token=os.environ["TELEGRAM_BOT_TOKEN"])]. The two
    messages are those of the [KeyError] of [os.environ] and of the
    [InvalidToken] that [Bot] raises on an empty token. *)
Definition init : M unit := fun w =>
  match telegram_token (env w) with
  | None => (w, Raise (u8"'TELEGRAM_BOT_TOKEN'"))
  | Some [] =>
    (w, Raise
      (u8"You must pass the token you received from https://t.me/Botfather!"))
  | Some _ => (w, Ok tt)
  end.

(** *** format_single_concert_message, by its local variables *)

Definition artist_of (concert : show_dict) : pystr :=
  Str.strip (dict_get (api_field concert showName) (u8"Unknown Artist")).

Definition is_sold_out_of (concert : show_dict) : bool :=
  Str.eqb (dict_get (api_field concert notbybarbtsellsoldout) (u8"0")) (u8"1").

Definition sold_out_suffix : pystr := u8" 🔴 <b>אזל כרטיסים</b>".

Definition status (concert : show_dict) : pystr :=
  if is_sold_out_of concert then sold_out_suffix else [].

Definition price_text (concert : show_dict) : pystr :=
  let price := dict_get (api_field concert showPrice) [] in
  if Str.truthy price then u8"₪" ++ price else u8"TBA".

Definition datetime_str (concert : show_dict) : pystr :=
  let date := dict_get (api_field concert showDate) [] in
  let time := dict_get (api_field concert showTime) [] in
  if Str.truthy date && Str.truthy time then date ++ u8" " ++ time
  else Str.or_else date (u8"TBA").

Definition show_url (concert : show_dict) : pystr :=
  let show_id := dict_get (api_field concert showId) [] in
  if Str.truthy show_id then u8"https://barby.co.il/show/" ++ show_id
  else u8"https://barby.co.il".

Definition display_title (concert : show_dict) : pystr :=
  let title := Str.strip (dict_get (api_field concert showTitle) []) in
  let short_title :=
    Str.strip (dict_get (api_field concert showShortTitle) []) in
  Str.or_else title short_title.

(** The condition of the [if] that adds the title line. *)
Definition title_shown (concert : show_dict) : bool :=
  let display_title := display_title concert in
  Str.truthy display_title
  && negb (Str.eqb display_title (artist_of concert))
  && (3 <? length (Str.strip display_title))%nat.

Definition title_line (concert : show_dict) : pystr :=
  if title_shown concert then
    let clean_title := Str.join (u8" ") (Str.split (display_title concert)) in
    u8"📝 <i>" ++ clean_title ++ u8"</i>" ++ nl
  else [].

Definition format_single_concert_message (concert : show_dict) : pystr :=
  let seat_type := dict_get (api_field concert showSeatType) [] in
  u8"🆕 <b>הופעה חדשה בבארבי!</b>" ++ nl ++ nl
  ++ u8"🎵 <b>" ++ artist_of concert ++ u8"</b>" ++ nl
  ++ title_line concert
  ++ u8"📅 " ++ datetime_str concert ++ nl
  ++ u8"💰 " ++ price_text concert
  ++ (if Str.truthy seat_type then u8" • " ++ seat_type else [])
  ++ status concert ++ nl
  ++ u8"🎫 <a href=" ++ dquote ++ show_url concert ++ dquote
  ++ u8">קניית כרטיסים</a>" ++ nl ++ nl
  ++ u8"🔔 הודעה מבוט התראות בארבי".

Definition get_concert_image_url (concert : show_dict) : option pystr :=
  let show_image := dict_get (api_field concert showImage) [] in
  if Str.truthy show_image then
    let clean_image := Str.strip show_image in
    Some (u8"https://images.barby.co.il/Logos/" ++ clean_image)
  else None.

(** *** Delivery *)

(** ["photo" in str(e).lower()] *)
Definition photo_error (e : pystr) : bool :=
  Str.contains (u8"photo") (str_lower e).

(** ["chat not found" in str(e).lower() or "bot was blocked" in ...] *)
Definition invalid_subscriber_error (e : pystr) : bool :=
  Str.contains (u8"chat not found") (str_lower e)
  || Str.contains (u8"bot was blocked") (str_lower e).

(** The first attempt for one subscriber. *)
Definition first_call (message : pystr) (image_url : option pystr)
    (user_id : Z) : call :=
  match image_url with
  | Some url => SendPhoto user_id url message
  | None => SendMessage user_id message
  end.

(** The body of the loop over the subscribers. *)
Definition deliver (message : pystr) (image_url : option pystr)
    (subscriber : Subscriber) : M unit :=
  let user_id := user_id subscriber in
  try_except
    (match image_url with
     | Some url =>
       bot_call (SendPhoto user_id url message) ;;
       logger INFO (u8"✅ Concert photo sent to " ++ Str.of_Z user_id)
     | None =>
       bot_call (SendMessage user_id message) ;;
       logger INFO (u8"✅ Concert text sent to " ++ Str.of_Z user_id)
     end ;;
     sleep)
    (fun e =>
       logger ERROR (u8"❌ Failed to send concert notification to "
                     ++ Str.of_Z user_id ++ u8": " ++ e) ;;
       (if photo_error e && bool_decide (is_Some image_url)
        then try_pass
               (bot_call (SendMessage user_id message) ;;
                logger INFO (u8"✅ Fallback text sent to " ++ Str.of_Z user_id))
        else ret tt) ;;
       if invalid_subscriber_error e
       then remove_subscriber user_id ;;
            logger INFO (u8"🗑️ Removed invalid subscriber: " ++ Str.of_Z user_id)
       else ret tt).

Definition send_concert_notification (concert : show_dict) : M unit :=
  let message := format_single_concert_message concert in
  let image_url := get_concert_image_url concert in
  subscribers <- get_all_subscribers ;;
  for_each subscribers (deliver message image_url).

Definition notify_new_concerts (new_concerts : list show_dict) : M unit :=
  match new_concerts with
  | [] => ret tt
  | _ =>
    num_of_subscribers <- get_subscriber_count ;;
    if num_of_subscribers =? 0
    then logger INFO (u8"📢 No subscribers to notify")
    else
      logger INFO (u8"📢 Sending " ++ Str.of_N (N.of_nat (length new_concerts))
                   ++ u8" individual notifications to "
                   ++ Str.of_Z num_of_subscribers ++ u8" subscribers") ;;
      for_each new_concerts
        (fun concert => send_concert_notification concert ;; sleep)
  end.

End Notifier.
End BarbyConcertNotifier.

Export BarbyConcertNotifier.

(** [d[k] = v] on a dict kept in insertion order. *)
Fixpoint dict_set {V} (k : pystr) (v : V) (d : list (pystr * V))
  : list (pystr * V) :=
  match d with
  | [] => [(k, v)]
  | (k', v') :: d' =>
    if bool_decide (k' = k) then (k', v) :: d' else (k', v') :: dict_set k v d'
  end.

(** [{concert["show_id"]: concert for concert in concerts}] *)
Definition current_concerts (concerts : list Concert) : list (pystr * Concert) :=
  foldl (fun d concert => dict_set (show_id concert) concert d) [] concerts.

(** The loop that collects the concerts whose id is not in
    [last_concerts]. *)
Fixpoint new_concerts_loop {V} (items : list (pystr * Concert))
    (last_concerts : gmap pystr V) (new_concerts : list Concert) : list Concert :=
  match items with
  | [] => new_concerts
  | (concert_id, concert) :: items' =>
    new_concerts_loop items' last_concerts
      (if bool_decide (last_concerts !! concert_id = None)
       then new_concerts ++ [concert] else new_concerts)
  end.

(** The diff of the handler: the current listing against the stored one. *)
Definition compute_new {V} (concerts : list Concert)
    (last_concerts : gmap pystr V) : list Concert :=
  new_concerts_loop (current_concerts concerts) last_concerts [].

(** The dict [{show_id: record}] as a mapping: the snapshot a listing
    makes. *)
Definition snapshot_from (concerts : list Concert) : gmap pystr Concert :=
  list_to_map (current_concerts concerts).

Record response := {
  statusCode : Z;
  body : pystr;
}.

(** [json.dumps({"message": "No concerts found"})] *)
Definition no_concerts_found : response :=
  {| statusCode := 200;
     body := u8"{" ++ dquote ++ u8"message" ++ dquote ++ u8": " ++ dquote
             ++ u8"No concerts found" ++ dquote ++ u8"}" |}.

(** [json.dumps("Success!")] *)
Definition success : response :=
  {| statusCode := 200; body := dquote ++ u8"Success!" ++ dquote |}.

Section Handler.
Context `{Builtins}.

(** [int(os.getenv("REDIS_PORT", 6379))], an argument of the call that
    builds the cache: it is evaluated, and can raise, before the call. *)
Definition getenv_redis_port : M Z := fun w => (w, redis_port (env w)).

(** The result is [None] where the function ends without [return]. *)
Definition lambda_handler : M (option response) :=
  try_except
    (logger INFO (u8"🔄 Initializing Barby API scraper and Redis cache") ;;
     port <- getenv_redis_port ;;
     RedisConcertCache.init ;;
     BarbyConcertNotifier.init ;;
     logger INFO (u8"📅 Fetching current concerts from Barby API") ;;
     w <- get_world ;;
     let concerts := get_concerts (upstream (env w)) in
     match concerts with
     | [] => ret (Some no_concerts_found)
     | _ =>
       let current_concerts := current_concerts concerts in
       logger INFO (u8"🔍 Loading last concerts from Redis") ;;
       loaded <- load_last_state ;;
       let last_concerts := fst loaded in
       let new_concerts := new_concerts_loop current_concerts last_concerts [] in
       match new_concerts with
       | [] => logger INFO (u8"ℹ️ No changes detected")
       | _ =>
         logger INFO (u8"🔔 New concerts: "
                      ++ Str.of_N (N.of_nat (length new_concerts))) ;;
         save_state current_concerts ;;
         notify_new_concerts (map FromParser new_concerts)
       end ;;
       ret (Some success)
     end)
    (fun e => logger ERROR (u8"❌ Error during concert check: " ++ e) ;;
              ret None).

End Handler.

(** ** The chat commands (telegram_logic/telegram_bot.py) *)

(** The sender of an update: [user.id], [user.first_name] and the
    optional [user.username]. *)
Module User.
Record t := {
  id : Z;
  first_name : pystr;
  username : option pystr;
}.
End User.

(** An update that carries a message of a user: [update.effective_user]
    and the chat of [update.message], to which [reply_text] answers. *)
Module Update.
Record t := {
  effective_user : User.t;
  chat_id : Z;
}.
End Update.

Module BarbyTelegramBot.
Section Bot.
Context `{Builtins}.

(** [update.message.reply_text(text, parse_mode="HTML")] *)
Definition reply_text (update : Update.t) (text : pystr) : M unit :=
  bot_call (SendMessage (Update.chat_id update) text).

Definition welcome_message (first_name : pystr) : pystr :=
  nl
  ++ u8"🎭 Welcome to Barby Concert Alerts, " ++ first_name ++ u8"!" ++ nl
  ++ nl
  ++ u8"I help you stay updated with concerts at Barby Tel Aviv." ++ nl
  ++ nl
  ++ u8"🎵 <b>Available commands:</b>" ++ nl
  ++ u8"/start - This welcome message" ++ nl
  ++ u8"/subscribe - Get notifications for new concerts" ++ nl
  ++ u8"/unsubscribe - Stop notifications  " ++ nl
  ++ u8"Ready to get started? 🎶" ++ nl
  ++ u8"        ".

Definition start_command (update : Update.t) : M unit :=
  let user := Update.effective_user update in
  reply_text update (welcome_message (User.first_name user)) ;;
  logger INFO (u8"User " ++ User.first_name user ++ u8" ("
               ++ Str.of_Z (User.id user) ++ u8") started the bot").

Definition already_subscribed_message (first_name : pystr) : pystr :=
  u8"🔔 " ++ first_name
  ++ u8", you're already subscribed to Barby concert alerts!".

Definition subscribed_message (first_name : pystr) : pystr :=
  nl
  ++ u8"            🔔 <b>Subscription Activated!</b>" ++ nl
  ++ nl
  ++ u8"            Hi " ++ first_name
  ++ u8", you're now subscribed to Barby concert alerts!" ++ nl
  ++ nl
  ++ u8"            <b>What happens next:</b>" ++ nl
  ++ u8"            • I'll notify you when new concerts are announced" ++ nl
  ++ u8"            • You'll get instant alerts for new shows" ++ nl
  ++ u8"            • Each notification includes artist, date, and ticket link" ++ nl
  ++ nl
  ++ u8"            <b>Unsubscribe:</b> Use /unsubscribe anytime" ++ nl
  ++ nl
  ++ u8"            Welcome aboard! 🎵" ++ nl
  ++ u8"            ".

(** [user.username or ""] *)
Definition username_or_empty (user : User.t) : pystr :=
  match User.username user with
  | Some username => Str.or_else username []
  | None => []
  end.

(** The subscriber count is read for the log line, after the registry
    has been changed. *)
Definition subscribe_command (update : Update.t) : M unit :=
  let user := Update.effective_user update in
  let user_id := User.id user in
  already <- subscriber_exists user_id ;;
  message <-
    (if already : bool
     then ret (already_subscribed_message (User.first_name user))
     else
       add_subscriber (User.id user) (username_or_empty user)
                      (Str.or_else (User.first_name user) []) ;;
       let message := subscribed_message (User.first_name user) in
       count <- get_subscriber_count ;;
       logger INFO (u8"User " ++ User.first_name user ++ u8" ("
                    ++ Str.of_Z user_id ++ u8") subscribed. Total subscribers: "
                    ++ Str.of_Z count) ;;
       ret message) ;;
  reply_text update message.

Definition unsubscribed_message (first_name : pystr) : pystr :=
  nl
  ++ u8"        🔕 <b>Unsubscribed</b>" ++ nl
  ++ nl
  ++ u8"        " ++ first_name
  ++ u8", you've been unsubscribed from Barby concert alerts." ++ nl
  ++ nl
  ++ u8"        You won't receive any more notifications." ++ nl
  ++ nl
  ++ u8"        Want to subscribe again? Just use /subscribe anytime! 👋" ++ nl
  ++ u8"                    ".

Definition not_subscribed_message (first_name : pystr) : pystr :=
  u8"🔕 " ++ first_name ++ u8", you weren't subscribed to notifications.".

Definition unsubscribe_command (update : Update.t) : M unit :=
  let user := Update.effective_user update in
  let user_id := User.id user in
  already <- subscriber_exists user_id ;;
  message <-
    (if already : bool
     then
       remove_subscriber user_id ;;
       let message := unsubscribed_message (User.first_name user) in
       count <- get_subscriber_count ;;
       logger INFO (u8"User " ++ User.first_name user ++ u8" ("
                    ++ Str.of_Z user_id ++ u8") unsubscribed. Total subscribers: "
                    ++ Str.of_Z count) ;;
       ret message
     else ret (not_subscribed_message (User.first_name user))) ;;
  reply_text update message.

(** *** The digest of new concerts *)

(** What one pass of the loop of [_format_concerts_message] adds to the
    message. Its local variables are computed as in
    [format_single_concert_message], whose lines the loop repeats; the
    seat type is not shown here. *)
Definition concert_entry (concert : show_dict) : pystr :=
  u8"🎵 <b>" ++ artist_of concert ++ u8"</b>" ++ nl
  ++ title_line concert
  ++ u8"📅 " ++ datetime_str concert ++ nl
  ++ u8"💰 " ++ price_text concert
  ++ status concert ++ nl
  ++ u8"🎫 <a href=" ++ dquote ++ show_url concert ++ dquote
  ++ u8">קניית כרטיסים</a>" ++ nl ++ nl.

(** [for i, concert in enumerate(concerts[:5], 1): message += ...] *)
Fixpoint format_loop (concerts : list show_dict) (message : pystr) : pystr :=
  match concerts with
  | [] => message
  | concert :: concerts' => format_loop concerts' (message ++ concert_entry concert)
  end.

Definition _format_concerts_message (concerts : list show_dict)
    (header : pystr) : pystr :=
  let message := format_loop (take 5 concerts) header in
  if (5 <? length concerts)%nat
  then message ++ u8"<i>... ועוד "
         ++ Str.of_N (N.of_nat (length concerts - 5))
         ++ u8" הופעות נוספות</i>" ++ nl
  else message.

(** *** Delivery of one text to every subscriber *)

(** [self.application.bot.send_message(...)]. [self.application] is
    [None] until [run_async] has built the application. *)
Definition send_message (application : option unit) (c : call) : M unit :=
  match application with
  | Some _ => bot_call c
  | None => raise (u8"'NoneType' object has no attribute 'bot'")
  end.

(** The body of the loop over the subscribers. *)
Definition notify_one (application : option unit) (message : pystr)
    (subscriber : Subscriber) : M unit :=
  let user_id := user_id subscriber in
  try_except
    (send_message application (SendMessage user_id message) ;;
     logger INFO (u8"✅ Notification sent to " ++ Str.of_Z user_id) ;;
     sleep)
    (fun e =>
       logger ERROR (u8"❌ Failed to send notification to "
                     ++ Str.of_Z user_id ++ u8": " ++ e) ;;
       if invalid_subscriber_error e
       then remove_subscriber user_id ;;
            logger INFO (u8"🗑️ Removed invalid subscriber: " ++ Str.of_Z user_id)
       else ret tt).

Definition notify_subscribers (application : option unit) (message : pystr)
  : M unit :=
  num_of_subscribers <- get_subscriber_count ;;
  if num_of_subscribers =? 0
  then logger INFO (u8"📢 No subscribers to notify")
  else
    logger INFO (u8"📢 Sending notification to " ++ Str.of_Z num_of_subscribers
                 ++ u8" subscribers") ;;
    subscribers <- get_all_subscribers ;;
    for_each subscribers (notify_one application message).

Definition digest_header (new_concerts : list show_dict) : pystr :=
  if (length new_concerts =? 1)%nat
  then u8"🆕 <b>הופעה חדשה בבארבי!</b>" ++ nl ++ nl
  else u8"🆕 <b>" ++ Str.of_N (N.of_nat (length new_concerts))
       ++ u8" הופעות חדשות בבארבי!</b>" ++ nl ++ nl.

(** The message of [notify_new_concerts]: header, digest and the two
    closing lines. *)
Definition digest_message (new_concerts : list show_dict) : pystr :=
  _format_concerts_message new_concerts (digest_header new_concerts)
  ++ nl ++ u8"🔔 אתה מקבל הודעה זו כי נרשמת להתראות הופעות בבארבי." ++ nl
  ++ u8"השתמש ב-/unsubscribe כדי להפסיק התראות.".

Definition notify_new_concerts (application : option unit)
    (new_concerts : list show_dict) : M unit :=
  match new_concerts with
  | [] => ret tt
  | _ =>
    num_of_subscribers <- get_subscriber_count ;;
    if num_of_subscribers =? 0
    then logger INFO (u8"📢 No subscribers to notify")
    else
      logger INFO (u8"📢 Sending notifications to " ++ Str.of_Z num_of_subscribers
                   ++ u8" subscribers for "
                   ++ Str.of_N (N.of_nat (length new_concerts))
                   ++ u8" new concerts") ;;
      notify_subscribers application (digest_message new_concerts)
  end.

End Bot.
End BarbyTelegramBot.

(** ** The library functions on ASCII text *)

Module Reference.
Open Scope N_scope.

(** [s.encode("utf-8")] *)
Definition encode_char (c : N) : list N :=
  if c <? 128 then [c]
  else if c <? 2048 then [192 + c / 64; 128 + c mod 64]
  else if c <? 65536 then [224 + c / 4096; 128 + (c / 64) mod 64; 128 + c mod 64]
  else [240 + c / 262144; 128 + (c / 4096) mod 64; 128 + (c / 64) mod 64;
        128 + c mod 64].

Definition encode (s : pystr) : list N := concat (map encode_char s).

(** MD5 (RFC 1321) on 32-bit words kept in [N]. *)
Definition w32 (x : N) : N := x mod 4294967296.

Definition rotl (x c : N) : N :=
  w32 (N.lor (N.shiftl x c) (N.shiftr x (32 - c))).

Definition md5_k : list N :=
  [3614090360; 3905402710; 606105819; 3250441966; 4118548399; 1200080426;
   2821735955; 4249261313; 1770035416; 2336552879; 4294925233; 2304563134;
   1804603682; 4254626195; 2792965006; 1236535329; 4129170786; 3225465664;
   643717713; 3921069994; 3593408605; 38016083; 3634488961; 3889429448;
   568446438; 3275163606; 4107603335; 1163531501; 2850285829; 4243563512;
   1735328473; 2368359562; 4294588738; 2272392833; 1839030562; 4259657740;
   2763975236; 1272893353; 4139469664; 3200236656; 681279174; 3936430074;
   3572445317; 76029189; 3654602809; 3873151461; 530742520; 3299628645;
   4096336452; 1126891415; 2878612391; 4237533241; 1700485571; 2399980690;
   4293915773; 2240044497; 1873313359; 4264355552; 2734768916; 1309151649;
   4149444226; 3174756917; 718787259; 3951481745].

Definition md5_s : list N :=
  [7; 12; 17; 22; 7; 12; 17; 22; 7; 12; 17; 22; 7; 12; 17; 22;
   5; 9; 14; 20; 5; 9; 14; 20; 5; 9; 14; 20; 5; 9; 14; 20;
   4; 11; 16; 23; 4; 11; 16; 23; 4; 11; 16; 23; 4; 11; 16; 23;
   6; 10; 15; 21; 6; 10; 15; 21; 6; 10; 15; 21; 6; 10; 15; 21].

Definition nth_N (l : list N) (i : N) : N := nth (N.to_nat i) l 0.

Definition not32 (x : N) : N := 4294967295 - x.

Definition md5_step (m : list N) (st : N * N * N * N) (i : N) : N * N * N * N :=
  let '(a, b, c, d) := st in
  let '(f, g) :=
    if i <? 16 then (N.lor (N.land b c) (N.land (not32 b) d), i)
    else if i <? 32 then (N.lor (N.land d b) (N.land (not32 d) c), (5 * i + 1) mod 16)
    else if i <? 48 then (N.lxor b (N.lxor c d), (3 * i + 5) mod 16)
    else (N.lxor c (N.lor b (not32 d)), (7 * i) mod 16) in
  let f' := w32 (f + a + nth_N md5_k i + nth_N m g) in
  (d, w32 (b + rotl f' (nth_N md5_s i)), b, c).

(** Little-endian 32-bit words of a byte list. *)
Fixpoint words (fuel : nat) (bs : list N) : list N :=
  match fuel, bs with
  | S fuel', b0 :: b1 :: b2 :: b3 :: r =>
    (b0 + 256 * b1 + 65536 * b2 + 16777216 * b3) :: words fuel' r
  | _, _ => []
  end.

Definition md5_block (st : N * N * N * N) (m : list N) : N * N * N * N :=
  let '(a0, b0, c0, d0) := st in
  let '(a, b, c, d) := foldl (md5_step m) st (map N.of_nat (seq 0 64)) in
  (w32 (a0 + a), w32 (b0 + b), w32 (c0 + c), w32 (d0 + d)).

Fixpoint blocks (fuel : nat) (ws : list N) : list (list N) :=
  match fuel, ws with
  | S fuel', _ :: _ => take 16 ws :: blocks fuel' (drop 16 ws)
  | _, _ => []
  end.

Definition le_bytes (n : nat) (x : N) : list N :=
  map (fun i => (x / 256 ^ N.of_nat i) mod 256) (seq 0 n).

Definition pad (bs : list N) : list N :=
  let len := N.of_nat (length bs) in
  let zeros := (119 - len mod 64) mod 64 in
  bs ++ [128] ++ repeat 0 (N.to_nat zeros) ++ le_bytes 8 (8 * len).

Definition hex_digit (x : N) : N := if x <? 10 then 48 + x else 87 + x.

Definition hex_byte (b : N) : pystr := [hex_digit (b / 16); hex_digit (b mod 16)].

Definition md5_hex (s : pystr) : pystr :=
  let bs := pad (encode s) in
  let ws := words (length bs) bs in
  let '(a, b, c, d) :=
    foldl md5_block (1732584193, 4023233417, 2562383102, 271733878)
          (blocks (length ws) ws) in
  concat (map hex_byte (le_bytes 4 a ++ le_bytes 4 b ++ le_bytes 4 c ++ le_bytes 4 d)).

(** [strptime(s, "%d/%m/%Y")] for ASCII digits. *)
Definition digit (c : N) : option N :=
  if (48 <=? c) && (c <=? 57) then Some (c - 48) else None.

(** [%d]: [3[0-1]|[1-2]\d|0[1-9]|[1-9]| [1-9]] *)
Definition parse_day (s : pystr) : option N :=
  match s with
  | [a; b] =>
    match digit a, digit b with
    | Some x, Some y =>
      let n := 10 * x + y in if (1 <=? n) && (n <=? 31) then Some n else None
    | None, Some y => if (a =? 32) && (1 <=? y) then Some y else None
    | _, _ => None
    end
  | [a] => match digit a with Some x => if 1 <=? x then Some x else None | None => None end
  | _ => None
  end.

(** [%m]: [1[0-2]|0[1-9]|[1-9]] *)
Definition parse_month (s : pystr) : option N :=
  match s with
  | [a; b] =>
    match digit a, digit b with
    | Some x, Some y =>
      let n := 10 * x + y in if (1 <=? n) && (n <=? 12) then Some n else None
    | _, _ => None
    end
  | [a] => match digit a with Some x => if 1 <=? x then Some x else None | None => None end
  | _ => None
  end.

(** [%Y]: four digits. *)
Definition parse_year (s : pystr) : option N :=
  match s with
  | [a; b; c; d] =>
    match digit a, digit b, digit c, digit d with
    | Some x, Some y, Some z, Some t => Some (1000 * x + 100 * y + 10 * z + t)
    | _, _, _, _ => None
    end
  | _ => None
  end.

Definition is_leap (y : N) : bool :=
  (y mod 4 =? 0) && (negb (y mod 100 =? 0) || (y mod 400 =? 0)).

Definition days_in_month (y m : N) : N :=
  if m =? 2 then if is_leap y then 29 else 28
  else if (m =? 4) || (m =? 6) || (m =? 9) || (m =? 11) then 30 else 31.

Definition days_before_month (y m : N) : N :=
  fold_right N.add 0 (map (fun i => days_in_month y (N.of_nat i)) (seq 1 (N.to_nat m - 1))).

(** [date(y, m, d).toordinal()] *)
Definition ordinal (y m d : N) : N :=
  let p := y - 1 in
  p * 365 + p / 4 - p / 100 + p / 400 + days_before_month y m + d.

(** The part of [s] before the first [sep] and what follows it. *)
Fixpoint cut (sep : N) (s : pystr) : option (pystr * pystr) :=
  match s with
  | [] => None
  | c :: s' =>
    if c =? sep then Some ([], s')
    else match cut sep s' with
         | Some (a, b) => Some (c :: a, b)
         | None => None
         end
  end.

Definition strptime_dmy (s : pystr) : option Z :=
  match cut 47 s with
  | Some (ds, rest) =>
    match cut 47 rest with
    | Some (ms, ys) =>
      match parse_day ds, parse_month ms, parse_year ys with
      | Some d, Some m, Some y =>
        if (1 <=? y) && (d <=? days_in_month y m)
        then Some (Z.of_N (ordinal y m d)) else None
      | _, _, _ => None
      end
    | None => None
    end
  | None => None
  end.

End Reference.

Definition ascii_builtins : Builtins :=
  {| str_lower := Str.ascii_lower;
     md5_hexdigest := Reference.md5_hex;
     strptime := Reference.strptime_dmy |}.

(** * Specification vocabulary *)

(** ** Weakest preconditions *)

(** [wp m Q w]: the run of [m] from [w] ends in a result and a world that
    satisfy [Q]. Every computation of [M] is a total function, so this
    is total correctness. *)
Definition wp {A} (m : M A) (Q : res A -> world -> Prop) (w : world) : Prop :=
  Q (m w).2 (m w).1.

(** What the environment does to the next Redis command, and the world
    once that entry is used up; the same for the Bot API. *)
Definition next_fault (w : world) : option pystr := head (faults w) ≫= id.
Definition pop_fault (w : world) : world := set_faults (tail (faults w)) w.
Definition next_reply (w : world) : option pystr := head (replies w) ≫= id.
Definition pop_reply (w : world) : world := set_replies (tail (replies w)) w.

(** ** Events *)

#[global] Instance call_eq_dec : EqDecision call.
Proof. solve_decision. Defined.

#[global] Instance redis_cmd_eq_dec : EqDecision redis_cmd.
Proof. solve_decision. Defined.

#[global] Instance event_eq_dec : EqDecision event.
Proof. solve_decision. Defined.

Definition is_read (e : event) : bool :=
  match e with
  | ERedis (Ping | Keys _ | Get _ | Hgetall | Hexists _ | Hlen) _ => true
  | _ => false
  end.

Definition is_send (e : event) : bool :=
  match e with ESend _ _ => true | _ => false end.

Definition is_exec (e : event) : bool :=
  match e with ERedis Exec _ => true | _ => false end.

Definition is_hgetall (e : event) : bool :=
  match e with ERedis Hgetall _ => true | _ => false end.

Definition is_keys (e : event) : bool :=
  match e with ERedis (Keys _) _ => true | _ => false end.

(** The Bot API calls addressed to [uid] among the events [t]. *)
Definition to_chat (uid : Z) (e : event) : bool :=
  match e with
  | ESend c _ => bool_decide (chat_of c = uid)
  | ERedis _ _ => false
  end.

Definition sends_to (uid : Z) (t : list event) : list event :=
  filter (fun e => to_chat uid e = true) t.

(** [w'] comes from [w] by the events [t], which left the keyspace, the
    registry and the pending Bot API replies as they were. *)
Definition frame (w w' : world) (t : list event) : Prop :=
  env w' = env w /\ strings w' = strings w /\ subscribers w' = subscribers w
  /\ replies w' = replies w /\ trace w' = trace w ++ t.

(** Reads only: a frame whose events are all Redis reads. *)
Definition reads (w w' : world) : Prop :=
  exists t, frame w w' t /\ Forall (fun e => is_read e = true) t.

(** ** The snapshot in the keyspace *)

(** The keys [KEYS barby:concert:*] answers on a keyspace. *)
Definition concert_keys (s : gmap pystr json_doc) : list pystr :=
  filter (fun k => Str.prefixb concert_prefix k = true) (map fst (map_to_list s)).

(** The dict the loading loop builds from the keys [ks] of keyspace [s]. *)
Definition loaded (s : gmap pystr json_doc) (ks : list pystr)
    (acc : gmap pystr json_doc) : gmap pystr json_doc :=
  foldl (fun acc key =>
           match s !! key with
           | Some d => <[Str.last_segment 58 key := d]> acc
           | None => acc
           end) acc ks.

(** The keyspace after a save that went through. *)
Definition saved (s : gmap pystr json_doc) (timestamp : pystr)
    (concerts : list (pystr * Concert)) : gmap pystr json_doc :=
  foldl apply_cmd s (save_pipeline timestamp (concert_keys s) concerts).

(** What a call of [save_state] can do: the events it makes and the
    keyspace it leaves. *)
Definition save_outcome (s : gmap pystr json_doc) (timestamp : pystr)
    (concerts : list (pystr * Concert)) (t : list event)
    (s' : gmap pystr json_doc) : Prop :=
  (t = [ERedis (Keys concert_prefix) false] /\ s' = s)
  \/ (t = [ERedis (Keys concert_prefix) true; ERedis Exec false] /\ s' = s)
  \/ (t = [ERedis (Keys concert_prefix) true; ERedis Exec true]
      /\ s' = saved s timestamp concerts).

(** The events of a load: its [KEYS] and then no other [KEYS]. *)
Definition load_shape (t : list event) : Prop :=
  exists ok gets, t = ERedis (Keys concert_prefix) ok :: gets
                  /\ Forall (fun e => is_keys e = false) gets.


(** ** The registry *)

(** Every entry is filed under its own [user_id], as [add_subscriber]
    files it. *)
Definition wf_registry (reg : gmap Z Subscriber) : Prop :=
  map_Forall (fun uid s => user_id s = uid) reg.

(** What [remove_subscriber] writes to the log when the registry answers. *)
Definition removal_log (user_id : Z) (found : bool) : level * pystr :=
  if found then (INFO, u8"👤 Removed subscriber: " ++ Str.of_Z user_id)
  else (WARNING, u8"⚠️  Subscriber " ++ Str.of_Z user_id ++ u8" not found").

(** ** The invocation *)

Definition token_ok (w : world) : bool :=
  match telegram_token (env w) with
  | Some (_ :: _) => true
  | _ => false
  end.

(** Whether [REDIS_PORT] is unset or spells a number. *)
Definition port_ok (w : world) : bool :=
  match redis_port (env w) with
  | Ok _ => true
  | Raise _ => false
  end.



(** What the notifier renders for a dict that has none of the upstream
    keys. *)
Definition unknown_message : pystr :=
  u8"🆕 <b>הופעה חדשה בבארבי!</b>" ++ nl ++ nl
  ++ u8"🎵 <b>Unknown Artist</b>" ++ nl
  ++ u8"📅 TBA" ++ nl
  ++ u8"💰 TBA" ++ nl
  ++ u8"🎫 <a href=" ++ dquote ++ u8"https://barby.co.il" ++ dquote
  ++ u8">קניית כרטיסים</a>" ++ nl ++ nl
  ++ u8"🔔 הודעה מבוט התראות בארבי".

Section Vocabulary.
Context `{Builtins}.

(** Whether a first attempt that ended in [r1] is retried as text. *)
Definition retried (image_url : option pystr) (r1 : option pystr) : bool :=
  match r1 with
  | Some e => photo_error e && bool_decide (is_Some image_url)
  | None => false
  end.

(** Whether it makes the notifier ask for the removal. *)
Definition condemned (r1 : option pystr) : bool :=
  match r1 with
  | Some e => invalid_subscriber_error e
  | None => false
  end.

(** The events of one subscriber: the first attempt with its outcome
    [r1], the retry with its outcome [r2], the removal, answered unless
    the registry raised [f]. *)
Definition deliver_events (message : pystr) (image_url : option pystr)
    (uid : Z) (r1 r2 f : option pystr) : list event :=
  ESend (first_call message image_url uid) r1
  :: (if retried image_url r1 then [ESend (SendMessage uid message) r2] else [])
  ++ (if condemned r1 then [ERedis (Hdel uid) (bool_decide (f = None))] else []).

(** The registry after those events. *)
Definition after_deliver (uid : Z) (r1 f : option pystr)
    (reg : gmap Z Subscriber) : gmap Z Subscriber :=
  if condemned r1 && bool_decide (f = None) then delete uid reg else reg.

(** A pass over the subscribers [subs]: from the registry [reg] it
    makes the events [t] and leaves the registry [reg']. *)
Inductive pass (message : pystr) (image_url : option pystr)
  : list Subscriber -> gmap Z Subscriber -> list event
    -> gmap Z Subscriber -> Prop :=
| pass_nil reg : pass message image_url [] reg [] reg
| pass_cons s subs reg r1 r2 f t reg' :
    pass message image_url subs (after_deliver (user_id s) r1 f reg) t reg' ->
    pass message image_url (s :: subs) reg
         (deliver_events message image_url (user_id s) r1 r2 f ++ t) reg'.

(** The ways one invocation can go, with the events it makes. *)
Inductive outcome (w : world) : res (option response) -> world -> Prop :=
| out_bad_port w' :
    port_ok w = false ->
    frame w w' [] ->
    outcome w (Ok None) w'
| out_redis_down w' :
    port_ok w = true ->
    next_fault w <> None ->
    frame w w' [ERedis Ping false] ->
    outcome w (Ok None) w'
| out_no_token w' :
    port_ok w = true ->
    next_fault w = None -> token_ok w = false ->
    frame w w' [ERedis Ping true] ->
    outcome w (Ok None) w'
| out_no_concerts w' :
    port_ok w = true ->
    next_fault w = None -> token_ok w = true ->
    get_concerts (upstream (env w)) = [] ->
    frame w w' [ERedis Ping true] ->
    outcome w (Ok (Some no_concerts_found)) w'
| out_no_change w' t (last_concerts : gmap pystr json_doc) :
    port_ok w = true ->
    next_fault w = None -> token_ok w = true ->
    get_concerts (upstream (env w)) <> [] ->
    compute_new (get_concerts (upstream (env w))) last_concerts = [] ->
    frame w w' (ERedis Ping true :: t) ->
    Forall (fun e => is_read e = true) t ->
    load_shape t ->
    outcome w (Ok (Some success)) w'
| out_notified w' t_load t_save t_notify ok (last_concerts : gmap pystr json_doc) :
    port_ok w = true ->
    next_fault w = None -> token_ok w = true ->
    compute_new (get_concerts (upstream (env w))) last_concerts <> [] ->
    env w' = env w ->
    trace w' = trace w ++ ERedis Ping true
                 :: t_load ++ t_save ++ ERedis Hlen ok :: t_notify ->
    Forall (fun e => is_read e = true) t_load ->
    load_shape t_load ->
    save_outcome (strings w) (clock (env w))
                 (current_concerts (get_concerts (upstream (env w))))
                 t_save (strings w') ->
    Forall (fun e => is_exec e = false) t_notify ->
    Forall (fun e => is_keys e = false) t_notify ->
    outcome w (Ok (Some success)) w'.

End Vocabulary.

(** * Sample data *)

(** The show object of [tests/test_real_notification.py]. *)
Definition real_concert : RawShow :=
  {| showId := Some (u8"5286");
     showName := Some (u8"מושיק עפיה");
     showTitle := Some (u8"שובר שתיקה- הופעה מלאה בליווי 8 נגנים");
     showShortTitle := Some (u8"שובר שתיקה- הופעה מלאה בליווי 8 נגנים");
     showDate := Some (u8"20/08/2025");
     showTime := Some (u8"20:30");
     showPrice := Some (u8"185");
     showSold := Some 1105;
     showSoldMaxBuy := Some (u8"1000");
     showSeatType := Some (u8"מופע עמידה");
     showImage := Some (u8"מושיק.jpg");
     notbybarbtsellsoldout := Some (u8"0") |}.

(** A show with the given id, date and price, sold out. *)
Definition show_of (id date price : pystr) : RawShow :=
  {| showId := Some id;
     showName := Some (u8"Artist " ++ id);
     showTitle := Some (u8"A full evening");
     showShortTitle := None;
     showDate := Some date;
     showTime := Some (u8"21:00");
     showPrice := Some price;
     showSold := Some 12;
     showSoldMaxBuy := Some (u8"600");
     showSeatType := None;
     showImage := None;
     notbybarbtsellsoldout := Some (u8"1") |}.

Definition listing (shows : list RawShow) : http_outcome :=
  JsonBody {| returnShow := Some (Some (ShowArray shows)); other_keys := [] |}.

Definition subscriber (n : Z) : Subscriber :=
  {| user_id := n; username := u8"user" ++ Str.of_Z n;
     first_name := u8"User"; subscribed_at := u8"2025-07-01T09:00:00" |}.

Definition registry (ids : list Z) : gmap Z Subscriber :=
  list_to_map (map (fun n => (n, subscriber n)) ids).

(** A world with an empty snapshot: what the venue lists, who is
    subscribed, and what Redis and the Bot API will do. *)
Definition world_of (shows : list RawShow) (ids : list Z)
    (faults : list (option pystr)) (replies : list (option pystr)) : world :=
  {| env := {| upstream := listing shows;
               telegram_token := Some (u8"12345:token");
               redis_port := Ok 6379;
               redis_addr := u8"localhost:6379";
               clock := u8"2025-08-01T10:00:00" |};
     strings := ∅; subscribers := registry ids;
     faults := faults; replies := replies; trace := []; log := [] |}.

Definition blocked : pystr := u8"Forbidden: bot was blocked by the user".
Definition bad_photo : pystr := u8"Bad Request: PHOTO_INVALID_DIMENSIONS".
Definition timed_out : pystr := u8"Timed out".
Definition connection_lost : pystr := u8"Connection reset by peer".

(** The save fails at the transaction. *)
Definition save_fails : world :=
  world_of [real_concert] [1] [None; None; None; None; Some connection_lost] [].


(** The first invocation goes through but for the delivery; at the
    second the first read of the load fails. *)
Definition reload_fails : world :=
  world_of [real_concert] [1]
           [None; None; None; None; None; None; None; None; Some timed_out]
           [Some timed_out].

(** Redis answers everything, the one delivery fails. *)
Definition delivery_fails : world :=
  world_of [real_concert] [1] [] [Some timed_out].

(** A listed show whose id has a colon in it. *)
Definition colon_id : world :=
  world_of [show_of (u8"52:86") (u8"01/09/2025") (u8"90")] [1] [] [].

(** Three subscribers, served in the order 3, 2, 1: the bot is blocked
    for 3; the photo fails for 2 and then the text retry is blocked. *)
Definition three_subscribers : world :=
  world_of [] [1; 2; 3] [] [Some blocked; Some bad_photo; Some blocked; None].

(** The bot is blocked and the registry raises on the removal. *)
Definition removal_fails : world :=
  world_of [] [1] [None; Some connection_lost] [Some blocked].

(** The registry raises on the next read. *)
Definition registry_down : world :=
  world_of [real_concert] [1; 2] [Some connection_lost] [].

(** A sold-out show with a price and a title is listed. *)
Definition sold_out_listed : world :=
  world_of [show_of (u8"5301") (u8"03/09/2025") (u8"75")] [1] [] [].

(** The events of the second of two invocations in a row. *)
Definition second_run `{Builtins} (w : world) : list event :=
  let w1 := (lambda_handler w).1 in
  drop (length (trace w1)) (trace (lambda_handler w1).1).

(** The two calls the notifier makes for the sample show. *)
Definition photo_to `{Builtins} (uid : Z) : call :=
  SendPhoto uid (u8"https://images.barby.co.il/Logos/מושיק.jpg")
            (format_single_concert_message (FromApi real_concert)).

Definition text_to `{Builtins} (uid : Z) : call :=
  SendMessage uid (format_single_concert_message (FromApi real_concert)).

(** Three listed shows, the second one known from before under another
    price. *)
Definition show_a : Concert :=
  @parse_show ascii_builtins (show_of (u8"5286") (u8"01/09/2025") (u8"90")).
Definition show_b : Concert :=
  @parse_show ascii_builtins (show_of (u8"5290") (u8"02/09/2025") (u8"120")).
Definition show_b_before : Concert :=
  @parse_show ascii_builtins (show_of (u8"5290") (u8"02/09/2025") (u8"100")).
Definition show_c : Concert :=
  @parse_show ascii_builtins (show_of (u8"5301") (u8"03/09/2025") (u8"75")).

(** The photo fails on its dimensions, the text retry times out. *)
Definition photo_fails : world :=
  world_of [] [7] [] [Some bad_photo; Some timed_out].


(** * Further vocabulary *)

(** The show objects a response lists: those under
    [returnShow] / [show], one object or an array of them. *)
Definition listed_shows (resp : http_outcome) : list RawShow :=
  match resp with
  | JsonBody data =>
    match returnShow data with
    | Some (Some (OneShow s)) => [s]
    | Some (Some (ShowArray l)) => l
    | _ => []
    end
  | _ => []
  end.

(** The [last_check] of the metadata stored in a keyspace. *)
Definition stored_last_check (s : gmap pystr json_doc) : option pystr :=
  match s !! get_metadata_key with
  | Some (JMetadata meta_data) => Some (last_check meta_data)
  | _ => None
  end.

(** A Redis command that was answered. *)
Definition answered (e : event) : bool :=
  match e with
  | ERedis _ ok => ok
  | ESend _ _ => true
  end.

(** Whether the date of a concert is known and at most [days_ahead] days
    after [today], today included. *)
Definition in_window (today days_ahead : Z) (c : Concert) : bool :=
  match event_date c with
  | Some d => (today <=? d) && (d <=? today + days_ahead)
  | None => false
  end.

(** What the dict built from a listing holds: one entry per show id, in
    the order of first appearance, whose record is the last one listed
    under that id. *)
Definition dict_of (d : list (pystr * Concert)) (l : list Concert) : Prop :=
  NoDup d.*1
  /\ (forall k, k ∈ d.*1 <-> k ∈ show_id <$> l)
  /\ (forall k c, (k, c) ∈ d ->
        show_id c = k
        /\ exists pre post, l = pre ++ c :: post /\ k ∉ show_id <$> post).

(** The metadata a save at [timestamp] writes. *)
Definition saved_metadata (timestamp : pystr)
    (concerts : list (pystr * Concert)) : json_doc :=
  JMetadata {| last_check := timestamp;
               total_concerts := length concerts;
               updated_at := timestamp |}.

(** What a key holds once a save of [concerts] has gone through on the
    keyspace [s]. *)
Definition after_save (s : gmap pystr json_doc) (timestamp : pystr)
    (concerts : list (pystr * Concert)) (k : pystr) : option json_doc :=
  if bool_decide (k = get_metadata_key)
  then Some (saved_metadata timestamp concerts)
  else if Str.prefixb concert_prefix k
       then JConcert ∘ concert_copy
              <$> (list_to_map concerts : gmap pystr Concert)
                    !! drop (length concert_prefix) k
       else s !! k.

(** [w'] comes from [w] with no call of the Bot API and with the
    registry as it was. *)
Definition quiet (w w' : world) : Prop :=
  subscribers w' = subscribers w
  /\ exists t, trace w' = trace w ++ t /\ Forall (fun e => is_send e = false) t.

(** ** Relations between the world before and after *)

(** [m] takes every world to one that [R] relates to it. *)
Definition preserves {A} (R : world -> world -> Prop) (m : M A) : Prop :=
  forall w, R w (m w).1.

(** A relation that composes and that the log, the trace and the
    schedules of the environment do not affect. *)
Class Stable (R : world -> world -> Prop) : Prop := {
  stable_refl w : R w w;
  stable_trans w1 w2 w3 : R w1 w2 -> R w2 w3 -> R w1 w3;
  stable_log w l text : R w (add_log l text w);
  stable_event w e : R w (add_event e w);
  stable_faults w f : R w (set_faults f w);
  stable_replies w r : R w (set_replies r w);
}.

(** The keyspace of the snapshot is as it was. *)
Definition same_snapshot (w w' : world) : Prop := strings w' = strings w.

(** Every subscriber was one before. *)
Definition no_new_subscriber (w w' : world) : Prop :=
  subscribers w' ⊆ subscribers w.

(** The entries of all users but [uid] are as they were. *)
Definition only_entry (uid : Z) (w w' : world) : Prop :=
  forall uid', uid' <> uid -> subscribers w' !! uid' = subscribers w !! uid'.

(** The registry stays well formed. *)
Definition keeps_wf (w w' : world) : Prop :=
  wf_registry (subscribers w) -> wf_registry (subscribers w').

#[global] Instance same_snapshot_stable : Stable same_snapshot.
Proof. split; unfold same_snapshot; intros; simpl; congruence. Qed.

#[global] Instance no_new_subscriber_stable : Stable no_new_subscriber.
Proof.
  split; unfold no_new_subscriber; intros; simpl; try done.
  by etrans.
Qed.

#[global] Instance only_entry_stable uid : Stable (only_entry uid).
Proof.
  split; unfold only_entry; try done.
  intros w1 w2 w3 H12 H23 uid' Hne. rewrite H23 by done. by apply H12.
Qed.

#[global] Instance keeps_wf_stable : Stable keeps_wf.
Proof. split; unfold keeps_wf; intros; simpl; auto. Qed.

(** The entry [add_subscriber] files. *)
Definition new_entry (user_id : Z) (username first_name timestamp : pystr)
  : Subscriber :=
  {| user_id := user_id; username := username; first_name := first_name;
     subscribed_at := timestamp |}.

(** What the environment does to the [n]-th Redis command from now. *)
Definition fault_at (n : nat) (w : world) : option pystr := faults w !! n ≫= id.

(** What a call gets when the Bot API has answered it: [Raise e] if the
    next reply is the error [e]. *)
Definition reply_result (w : world) : res unit :=
  match next_reply w with
  | Some e => Raise e
  | None => Ok tt
  end.

(** The id, the first name and the username of the sender of an update,
    the username being the empty string for a user who has none. *)
Definition sender (update : Update.t) : Z :=
  User.id (Update.effective_user update).

Definition sender_name (update : Update.t) : pystr :=
  User.first_name (Update.effective_user update).

Definition sender_username (update : Update.t) : pystr :=
  default [] (User.username (Update.effective_user update)).

Section Deliveries.
Context `{Builtins}.

(** The events of a text sent to [uid] whose outcome is [r1]: the call
    and, if the error condemns the subscriber, the removal, answered
    unless the registry raised [f]. *)
Definition text_events (message : pystr) (uid : Z) (r1 f : option pystr)
  : list event :=
  ESend (SendMessage uid message) r1
  :: (if condemned r1 then [ERedis (Hdel uid) (bool_decide (f = None))] else []).

(** The events of a pass in which every call is answered: one call per
    subscriber, in the order of the list. *)
Definition calls_to (subs : list Subscriber) (c : Z -> call) : list event :=
  (fun s => ESend (c (user_id s)) None) <$> subs.

(** The events of the dispatch of [items] to [subs] when Redis and the
    Bot API answer everything: for each item the read of the registry
    and then one call per subscriber. *)
Definition dispatch_events (items : list show_dict) (subs : list Subscriber)
  : list event :=
  concat ((fun concert =>
             ERedis Hgetall true
             :: calls_to subs (first_call (format_single_concert_message concert)
                                          (get_concert_image_url concert)))
          <$> items).

(** The closing line of a digest that leaves [n] concerts out. *)
Definition more_line (n : nat) : pystr :=
  u8"<i>... ועוד " ++ Str.of_N (N.of_nat n) ++ u8" הופעות נוספות</i>" ++ nl.

(** The events of a load in which Redis answers everything: the keys,
    one read per key and the read of the metadata. *)
Definition load_events (s : gmap pystr json_doc) : list event :=
  ERedis (Keys concert_prefix) true
  :: ((fun key => ERedis (Get key) true) <$> concert_keys s)
  ++ [ERedis (Get get_metadata_key) true].

(** The events of a save that went through. *)
Definition save_events : list event :=
  [ERedis (Keys concert_prefix) true; ERedis Exec true].

(** The concerts an invocation finds new when the load of the snapshot
    is answered: those of the listing whose id the load does not find. *)
Definition unseen (w : world) : list Concert :=
  compute_new (get_concerts (upstream (env w)))
              (loaded (strings w) (concert_keys (strings w)) ∅).

End Deliveries.

(** A word of [split()]: not empty and free of whitespace. *)
Definition word (s : pystr) : Prop :=
  s <> [] /\ Forall (fun c => Str.isspace c = false) s.

(** Every whitespace character of [t] is a space that stands alone
    between two characters that are not whitespace: [t] neither begins
    nor ends with whitespace and has no two whitespace characters in a
    row. *)
Definition single_spaced (t : pystr) : Prop :=
  forall pre c post,
    t = pre ++ c :: post -> Str.isspace c = true ->
    c = 32%N
    /\ exists a pre' b post',
         pre = pre' ++ [a] /\ post = b :: post'
         /\ Str.isspace a = false /\ Str.isspace b = false.

(** * Further sample data *)

(** Three shows listed for the first three days of September 2025. *)
Definition three_shows : http_outcome :=
  listing [show_of (u8"5286") (u8"01/09/2025") (u8"90");
           show_of (u8"5290") (u8"02/09/2025") (u8"120");
           show_of (u8"5301") (u8"03/09/2025") (u8"75")].

(** The day ordinal of 31/08/2025. *)
Definition last_of_august : Z := 739494.

(** A snapshot of two shows, and a keyspace that holds it beside a key
    that is none of the cache's. *)
Definition snapshot_of_two : gmap pystr json_doc :=
  saved ∅ (u8"2025-07-31T10:00:00") (current_concerts [show_b_before; show_c]).

Definition stale_snapshot : world :=
  set_strings (<[u8"session:42" := JConcert show_c]> snapshot_of_two)
              (world_of [] [1] [] []).

(** The second read of the load fails. *)
Definition read_breaks : world :=
  set_faults [None; None; Some timed_out]
             (set_strings snapshot_of_two (world_of [] [1] [] [])).

(** One subscriber, two subscribers, and everything answers. *)
Definition one_subscriber : world := world_of [] [1] [] [].
Definition two_subscribers : world := world_of [] [1; 2] [] [].

(** Redis answers the membership test and raises on the write. *)
Definition write_fails : world :=
  world_of [] [1] [None; Some connection_lost] [].

(** An update from a user who is not registered and has no username,
    and one from subscriber 1. *)
Definition from_dana : Update.t :=
  {| Update.effective_user :=
       {| User.id := 2; User.first_name := u8"Dana"; User.username := None |};
     Update.chat_id := 2 |}.

Definition from_subscriber_1 : Update.t :=
  {| Update.effective_user :=
       {| User.id := 1; User.first_name := u8"User";
          User.username := Some (u8"user1") |};
     Update.chat_id := 1 |}.

(** Two shows are listed, nothing is stored; two subscribers, or none. *)
Definition two_listed : world :=
  world_of [show_of (u8"5286") (u8"01/09/2025") (u8"90");
            show_of (u8"5290") (u8"02/09/2025") (u8"120")] [1; 2] [] [].

Definition nobody_subscribed : world :=
  world_of [show_of (u8"5286") (u8"01/09/2025") (u8"90");
            show_of (u8"5290") (u8"02/09/2025") (u8"120")] [] [] [].

(** The two listed shows are in the snapshot already, one of them under
    another price. *)
Definition both_known : world :=
  set_strings
    (saved ∅ (u8"2025-07-31T10:00:00") (current_concerts [show_a; show_b_before]))
    two_listed.

(** [REDIS_PORT] holds a text that is no number; the rest is as in
    [two_listed]. *)
Definition port_not_a_number : world :=
  {| env := {| upstream := upstream (env two_listed);
               telegram_token := telegram_token (env two_listed);
               redis_port :=
                 Raise (u8"invalid literal for int() with base 10: 'redis'");
               redis_addr := redis_addr (env two_listed);
               clock := clock (env two_listed) |};
     strings := strings two_listed; subscribers := subscribers two_listed;
     faults := []; replies := []; trace := []; log := [] |}.

(** * Proofs *)

Section Diff.
Context {V : Type}.
Implicit Types (concerts : list Concert) (last_concerts : gmap pystr V).

Lemma dict_set_fresh {A} (k : pystr) (v : A) (d : list (pystr * A)) :
  k ∉ d.*1 -> dict_set k v d = d ++ [(k, v)].
Proof.
  induction d as [|[k' v'] d IH]; intros Hk; simpl; [done|].
  simpl in Hk. apply not_elem_of_cons in Hk as [Hne Hk].
  rewrite bool_decide_eq_false_2 by congruence.
  by rewrite IH.
Qed.

Lemma current_concerts_from acc concerts :
  NoDup (acc.*1 ++ (show_id <$> concerts)) ->
  foldl (fun d concert => dict_set (show_id concert) concert d) acc concerts
  = acc ++ ((fun c => (show_id c, c)) <$> concerts).
Proof.
  revert acc. induction concerts as [|c cs IH]; intros acc Hnd; simpl.
  - by rewrite app_nil_r.
  - rewrite dict_set_fresh.
    + rewrite IH.
      * by rewrite <- app_assoc.
      * rewrite fmap_app. simpl. rewrite <- app_assoc. done.
    + apply NoDup_app in Hnd as (_ & Hdis & _).
      intros Hin. apply (Hdis _ Hin). simpl. left.
Qed.

Lemma current_concerts_unique concerts :
  NoDup (show_id <$> concerts) ->
  current_concerts concerts = (fun c => (show_id c, c)) <$> concerts.
Proof. intros Hnd. unfold current_concerts. by rewrite current_concerts_from. Qed.

Lemma new_concerts_loop_filter (items : list (pystr * Concert)) last_concerts acc :
  new_concerts_loop items last_concerts acc
  = acc ++ (filter (fun kv => last_concerts !! kv.1 = None) items).*2.
Proof.
  revert acc. induction items as [|[k c] items IH]; intros acc; simpl.
  - by rewrite app_nil_r.
  - rewrite IH, filter_cons. simpl.
    case_bool_decide; case_decide; try done.
    + rewrite <- app_assoc. done.
Qed.

Lemma compute_new_filter concerts last_concerts :
  NoDup (show_id <$> concerts) ->
  compute_new concerts last_concerts
  = filter (fun c => last_concerts !! show_id c = None) concerts.
Proof.
  intros Hnd. unfold compute_new.
  rewrite new_concerts_loop_filter, current_concerts_unique by done. simpl.
  clear Hnd. induction concerts as [|c cs IH]; [done|].
  rewrite fmap_cons, !filter_cons. simpl.
  case_decide; simpl in *; by rewrite <- IH.
Qed.

(** C1. For a current list with unique show ids and any previous
    mapping, the diff is the list of the current records whose
    [show_id] is not a key of the previous mapping, in the order of the
    current list: a record is in the diff exactly when it is in the
    current list and its id is not a key, whatever the mapping holds
    under a key. *)
Theorem diff_is_the_unseen_sublist concerts last_concerts :
  NoDup (show_id <$> concerts) ->
  compute_new concerts last_concerts
  = filter (fun c => last_concerts !! show_id c = None) concerts
  /\ (forall c, c ∈ compute_new concerts last_concerts
                <-> c ∈ concerts /\ last_concerts !! show_id c = None).
Proof.
  intros Hnd. rewrite compute_new_filter by done. split; [done|].
  intros c. rewrite list_elem_of_filter. tauto.
Qed.
End Diff.

(** ** Reasoning rules *)

Lemma wp_run {A} (m : M A) Q w w' r : wp m Q w -> m w = (w', r) -> Q r w'.
Proof. unfold wp. intros HQ Hm. by rewrite Hm in HQ. Qed.

Lemma wp_mono {A} (m : M A) (Q Q' : res A -> world -> Prop) w :
  wp m Q w -> (forall r w', Q r w' -> Q' r w') -> wp m Q' w.
Proof. unfold wp. auto. Qed.

Lemma wp_ret {A} (a : A) Q w : Q (Ok a) w -> wp (ret a) Q w.
Proof. done. Qed.

Lemma wp_bind {A B} (m : M A) (k : A -> M B) Q w :
  wp m (fun r w' => match r with Ok a => wp (k a) Q w' | Raise e => Q (Raise e) w' end) w ->
  wp (bind m k) Q w.
Proof. unfold wp, bind. destruct (m w) as [w' [a|e]]; done. Qed.

Lemma wp_try {A} (body : M A) handler Q w :
  wp body (fun r w' => match r with Ok a => Q (Ok a) w' | Raise e => wp (handler e) Q w' end) w ->
  wp (try_except body handler) Q w.
Proof. unfold wp, try_except. destruct (body w) as [w' [a|e]]; done. Qed.

Lemma wp_try_pass (body : M unit) Q w :
  wp body (fun _ w' => Q (Ok tt) w') w -> wp (try_pass body) Q w.
Proof. unfold wp, try_pass. destruct (body w) as [w' r]; done. Qed.

Lemma wp_logger l text Q w : Q (Ok tt) (add_log l text w) -> wp (logger l text) Q w.
Proof. done. Qed.

Lemma wp_get_world Q w : Q (Ok w) w -> wp get_world Q w.
Proof. done. Qed.

Lemma wp_sleep Q w : Q (Ok tt) w -> wp sleep Q w.
Proof. done. Qed.

Lemma wp_getenv_redis_port Q w :
  Q (redis_port (env w)) w -> wp getenv_redis_port Q w.
Proof. done. Qed.

Lemma wp_redis_port_ok Q w :
  port_ok w = true -> (forall port, Q (Ok port) w) -> wp getenv_redis_port Q w.
Proof.
  unfold wp, getenv_redis_port, port_ok. simpl.
  destruct (redis_port (env w)); [auto | discriminate].
Qed.

Lemma wp_self {A} (m : M A) w : wp m (fun r w' => m w = (w', r)) w.
Proof. unfold wp. by destruct (m w). Qed.

Lemma wp_and {A} (m : M A) (Q1 Q2 : res A -> world -> Prop) w :
  wp m Q1 w -> wp m Q2 w -> wp m (fun r w' => Q1 r w' /\ Q2 r w') w.
Proof. unfold wp. auto. Qed.

Lemma wp_redis {A} cmd (run : world -> world * A) Q w :
  (forall msg, next_fault w = Some msg ->
     Q (Raise msg) (add_event (ERedis cmd false) (pop_fault w))) ->
  (next_fault w = None ->
     Q (Ok (run (pop_fault w)).2) (add_event (ERedis cmd true) (run (pop_fault w)).1)) ->
  wp (redis_command cmd run) Q w.
Proof.
  unfold wp, redis_command, next_fault, pop_fault. intros Hf Hok.
  destruct (head (faults w)) as [[msg|]|]; simpl in *.
  - by apply Hf.
  - specialize (Hok eq_refl). by destruct (run _).
  - specialize (Hok eq_refl). by destruct (run _).
Qed.

Lemma wp_bot c Q w :
  (forall e, next_reply w = Some e ->
     Q (Raise e) (add_event (ESend c (Some e)) (pop_reply w))) ->
  (next_reply w = None -> Q (Ok tt) (add_event (ESend c None) (pop_reply w))) ->
  wp (bot_call c) Q w.
Proof.
  unfold wp, bot_call, next_reply, pop_reply. intros Hf Hok.
  destruct (head (replies w)) as [[msg|]|]; simpl in *; auto.
Qed.

Lemma wp_for_each {A} (I : world -> Prop) (l : list A) (body : A -> M unit)
    (Q : res unit -> world -> Prop) w :
  I w ->
  (forall x w0, x ∈ l -> I w0 ->
     wp (body x) (fun r w1 => match r with Ok _ => I w1 | Raise e => Q (Raise e) w1 end) w0) ->
  (forall w1, I w1 -> Q (Ok tt) w1) ->
  wp (for_each l body) Q w.
Proof.
  revert w. induction l as [|x l IH]; intros w HI Hbody Hend; simpl.
  - by apply wp_ret, Hend.
  - apply wp_bind. eapply wp_mono.
    + apply Hbody; [left|done].
    + intros [[]|e] w'; simpl; [|done]. intros HI'.
      apply IH; [done| |done]. intros y w0 Hy. apply Hbody. by right.
Qed.

(** ** What the operations do to the world *)

Lemma frame_refl w : frame w w [].
Proof. unfold frame. by rewrite app_nil_r. Qed.

Lemma frame_trans w1 w2 w3 t1 t2 :
  frame w1 w2 t1 -> frame w2 w3 t2 -> frame w1 w3 (t1 ++ t2).
Proof.
  unfold frame. intros (?&?&?&?&?) (?&?&?&?&?).
  repeat split; try congruence. rewrite app_assoc. congruence.
Qed.

Lemma frame_log w w' t l text : frame w w' t -> frame w (add_log l text w') t.
Proof. done. Qed.

Lemma frame_read w cmd ok : frame w (add_event (ERedis cmd ok) (pop_fault w)) [ERedis cmd ok].
Proof. done. Qed.

Lemma reads_refl w : reads w w.
Proof. exists []. split; [apply frame_refl | constructor]. Qed.

Lemma reads_trans w1 w2 w3 : reads w1 w2 -> reads w2 w3 -> reads w1 w3.
Proof.
  intros (t1 & F1 & R1) (t2 & F2 & R2). exists (t1 ++ t2).
  split; [by eapply frame_trans | by apply Forall_app].
Qed.

Lemma reads_log w w' l text : reads w w' -> reads w (add_log l text w').
Proof. intros (t & F & R). by exists t. Qed.

Lemma reads_cmd w cmd ok :
  is_read (ERedis cmd ok) = true -> reads w (add_event (ERedis cmd ok) (pop_fault w)).
Proof. intros Hr. exists [ERedis cmd ok]. split; [done | by constructor]. Qed.

Lemma pop_fault_nil w : faults w = [] -> faults (pop_fault w) = [].
Proof. unfold pop_fault. simpl. by intros ->. Qed.

Lemma next_fault_nil w : faults w = [] -> next_fault w = None.
Proof. unfold next_fault. by intros ->. Qed.

(** *** The snapshot store *)

Lemma load_concerts_reads ks acc w :
  wp (load_concerts ks acc) (fun _ w' => reads w w') w.
Proof.
  revert acc w. induction ks as [|key ks IH]; intros acc w; simpl.
  - apply wp_ret, reads_refl.
  - apply wp_bind, wp_redis.
    + intros msg _. by apply reads_cmd.
    + intros _. simpl.
      assert (reads w (add_event (ERedis (Get key) true) (pop_fault w))) as Hr
        by by apply reads_cmd.
      destruct (strings w !! key); (eapply wp_mono; [apply IH|]);
        intros r w' Hr'; eapply reads_trans; eauto.
Qed.

Lemma load_last_state_reads w :
  wp load_last_state (fun r w' => (exists v, r = Ok v) /\ reads w w') w.
Proof.
  unfold load_last_state, load_body. apply wp_try, wp_bind, wp_redis.
  - intros msg _. apply wp_bind, wp_logger, wp_ret. split; [eauto|].
    by apply reads_log, reads_cmd.
  - intros _. simpl. apply wp_bind.
    eapply wp_mono; [apply load_concerts_reads|].
    intros [concerts|e] w1 Hr1.
    + assert (reads w w1) as Hw1.
      { eapply reads_trans; [|exact Hr1]. by apply reads_cmd. }
      clear Hr1. apply wp_bind, wp_redis.
      * intros msg _. apply wp_bind, wp_logger, wp_ret. split; [eauto|].
        apply reads_log. eapply reads_trans; [exact Hw1|]. by apply reads_cmd.
      * intros _. simpl.
        assert (reads w (add_event (ERedis (Get get_metadata_key) true) (pop_fault w1))) as Hw2.
        { eapply reads_trans; [exact Hw1|]. by apply reads_cmd. }
        apply wp_bind, wp_logger, wp_bind.
        destruct (strings w1 !! get_metadata_key) as [[c|m]|];
          repeat first [apply wp_logger | apply wp_ret | apply wp_bind];
          (split; [eauto|]); repeat apply reads_log; exact Hw2.
    + apply wp_bind, wp_logger, wp_ret. split; [eauto|].
      apply reads_log. eapply reads_trans; [|exact Hr1]. by apply reads_cmd.
Qed.

Lemma load_concerts_no_keys ks acc w :
  wp (load_concerts ks acc)
     (fun _ w' => exists t, trace w' = trace w ++ t
                  /\ Forall (fun e => is_keys e = false) t) w.
Proof.
  revert acc w. induction ks as [|key ks IH]; intros acc w; simpl.
  - apply wp_ret. exists []. by rewrite app_nil_r.
  - apply wp_bind, wp_redis.
    + intros msg _. exists [ERedis (Get key) false]. by repeat constructor.
    + intros _. simpl.
      destruct (strings w !! key); (eapply wp_mono; [apply IH|]);
        intros r w' (t & Ht & Hall); exists (ERedis (Get key) true :: t);
        (split; [rewrite Ht; simpl; by rewrite <- app_assoc | by constructor]).
Qed.

Lemma load_last_state_shape w :
  wp load_last_state
     (fun _ w' => exists t, trace w' = trace w ++ t /\ load_shape t) w.
Proof.
  unfold load_last_state, load_body. apply wp_try, wp_bind, wp_redis.
  { intros msg _. apply wp_bind, wp_logger, wp_ret.
    exists [ERedis (Keys concert_prefix) false]. split; [done|]. by exists false, []. }
  intros _. simpl. apply wp_bind.
  eapply wp_mono; [apply load_concerts_no_keys|].
  intros [concerts|e] w1 (t & Ht & Hall).
  2:{ apply wp_bind, wp_logger, wp_ret.
      exists (ERedis (Keys concert_prefix) true :: t). split.
      - simpl. rewrite Ht. simpl. by rewrite <- app_assoc.
      - by exists true, t. }
  apply wp_bind, wp_redis.
  { intros msg _. apply wp_bind, wp_logger, wp_ret.
    exists (ERedis (Keys concert_prefix) true :: t ++ [ERedis (Get get_metadata_key) false]).
    split.
    - simpl. rewrite Ht. simpl. by rewrite <- !app_assoc.
    - exists true, (t ++ [ERedis (Get get_metadata_key) false]). split; [done|].
      apply Forall_app. split; [done | by repeat constructor]. }
  intros _. simpl. apply wp_bind, wp_logger, wp_bind.
  destruct (strings w1 !! get_metadata_key) as [[c|md]|];
    repeat first [apply wp_logger | apply wp_ret | apply wp_bind];
    (exists (ERedis (Keys concert_prefix) true :: t ++ [ERedis (Get get_metadata_key) true]));
    (split; [simpl; rewrite Ht; simpl; by rewrite <- !app_assoc|]);
    exists true, (t ++ [ERedis (Get get_metadata_key) true]); (split; [done|]);
    (apply Forall_app; split; [done | by repeat constructor]).
Qed.

Lemma load_concerts_healthy ks acc w :
  faults w = [] ->
  wp (load_concerts ks acc)
     (fun r w' => r = Ok (loaded (strings w) ks acc) /\ faults w' = [] /\ reads w w') w.
Proof.
  revert acc w. induction ks as [|key ks IH]; intros acc w Hf; simpl.
  - apply wp_ret. split; [done|]. split; [done | apply reads_refl].
  - apply wp_bind, wp_redis.
    + intros msg Hmsg. by rewrite next_fault_nil in Hmsg.
    + intros _. simpl.
      set (w1 := add_event (ERedis (Get key) true) (pop_fault w)).
      assert (reads w w1) as Hr by by apply reads_cmd.
      assert (faults w1 = []) as Hf1 by by apply pop_fault_nil.
      assert (strings w1 = strings w) as Hs by done.
      destruct (strings w !! key) as [d|];
        (eapply wp_mono; [by apply IH|]);
        intros r w' (-> & Hf' & Hr'); rewrite Hs;
        (split; [done|]); (split; [done|]); by eapply reads_trans.
Qed.

Lemma load_last_state_healthy w :
  faults w = [] ->
  wp load_last_state
     (fun r w' => (exists lc, r = Ok (loaded (strings w) (concert_keys (strings w)) ∅, lc))
                  /\ faults w' = [] /\ reads w w') w.
Proof.
  intros Hf. unfold load_last_state, load_body. apply wp_try, wp_bind, wp_redis.
  { intros msg Hmsg. by rewrite next_fault_nil in Hmsg. }
  intros _. simpl. fold (concert_keys (strings w)).
  set (w1 := add_event _ _).
  assert (reads w w1) as Hr1 by by apply reads_cmd.
  assert (faults w1 = []) as Hf1 by by apply pop_fault_nil.
  apply wp_bind. eapply wp_mono; [by apply load_concerts_healthy|].
  intros r w2 (-> & Hf2 & Hr2). change (strings w1) with (strings w).
  assert (reads w w2) as Hw2 by by eapply reads_trans.
  apply wp_bind, wp_redis.
  { intros msg Hmsg. by rewrite next_fault_nil in Hmsg. }
  intros _. simpl.
  assert (reads w (add_event (ERedis (Get get_metadata_key) true) (pop_fault w2))) as Hw3.
  { eapply reads_trans; [exact Hw2|]. by apply reads_cmd. }
  assert (faults (pop_fault w2) = []) as Hf3 by by apply pop_fault_nil.
  apply wp_bind, wp_logger, wp_bind.
  destruct (strings w2 !! get_metadata_key) as [[c|m]|];
    repeat first [apply wp_logger | apply wp_ret | apply wp_bind];
    (split; [eauto|]); (split; [done|]); repeat apply reads_log; exact Hw3.
Qed.

Lemma loaded_keeps s ks acc i :
  is_Some (acc !! i) -> is_Some (loaded s ks acc !! i).
Proof.
  revert acc. induction ks as [|k ks IH]; intros acc Hi; simpl; [done|].
  apply IH. destruct (s !! k) as [d|]; [|done].
  rewrite lookup_insert. case_decide; [by eexists | done].
Qed.

Lemma loaded_lookup s ks acc key :
  key ∈ ks -> is_Some (s !! key) ->
  is_Some (loaded s ks acc !! Str.last_segment 58 key).
Proof.
  revert acc. induction ks as [|k ks IH]; intros acc Hin [d Hd].
  - by apply elem_of_nil in Hin.
  - apply elem_of_cons in Hin as [->|Hin]; simpl.
    + rewrite Hd. apply loaded_keeps. rewrite lookup_insert_eq. by eexists.
    + apply IH; [done | by eexists].
Qed.

Lemma prefixb_app p s : Str.prefixb p (p ++ s) = true.
Proof.
  induction p as [|a p IH]; simpl; [done|].
  by rewrite N.eqb_refl.
Qed.

Lemma last_segment_none sep s : sep ∉ s -> Str.last_segment sep s = s.
Proof.
  destruct s as [|c s]; [done|]. intros Hs. simpl.
  apply not_elem_of_cons in Hs as [Hne Hs].
  destruct (N.eqb_spec c sep) as [->|_]; [done|].
  destruct (existsb (N.eqb sep) s) eqn:E; [|done].
  apply existsb_exists in E as (x & Hx & Heq).
  apply N.eqb_eq in Heq. subst x. exfalso. apply Hs. by apply list_elem_of_In.
Qed.

Lemma last_segment_after sep p s :
  Str.last_segment sep (p ++ sep :: s) = Str.last_segment sep s.
Proof.
  induction p as [|c p IH]; simpl.
  - by rewrite N.eqb_refl.
  - destruct (N.eqb_spec c sep) as [->|_]; [done|].
    replace (existsb (N.eqb sep) (p ++ sep :: s)) with true; [done|].
    symmetry. apply existsb_exists. exists sep. split; [|apply N.eqb_refl].
    apply in_or_app. right. by left.
Qed.

Lemma last_segment_concert_key concert_id :
  58%N ∉ concert_id -> Str.last_segment 58 (get_concert_key concert_id) = concert_id.
Proof.
  intros Hid. unfold get_concert_key.
  change concert_prefix with (u8"barby:concert" ++ 58%N :: []).
  rewrite <- app_assoc. simpl ([58%N] ++ concert_id).
  by rewrite last_segment_after, last_segment_none.
Qed.

Lemma concert_key_listed (s : gmap pystr json_doc) concert_id :
  is_Some (s !! get_concert_key concert_id) ->
  get_concert_key concert_id ∈ concert_keys s.
Proof.
  intros [d Hd]. unfold concert_keys. apply list_elem_of_filter. split.
  - apply prefixb_app.
  - apply list_elem_of_fmap. exists (get_concert_key concert_id, d). split; [done|].
    by apply elem_of_map_to_list.
Qed.

(** A snapshot entry whose id has no colon is found again by the load. *)
Lemma loaded_concert_id (s : gmap pystr json_doc) concert_id :
  58%N ∉ concert_id ->
  is_Some (s !! get_concert_key concert_id) ->
  is_Some (loaded s (concert_keys s) ∅ !! concert_id).
Proof.
  intros Hid Hs.
  pose proof (loaded_lookup s (concert_keys s) ∅ _ (concert_key_listed s _ Hs) Hs) as Hl.
  by rewrite last_segment_concert_key in Hl.
Qed.

Lemma save_state_spec concerts w :
  wp (save_state concerts)
     (fun r w' =>
        r = Ok tt /\ env w' = env w /\ subscribers w' = subscribers w
        /\ replies w' = replies w
        /\ exists t, trace w' = trace w ++ t
             /\ save_outcome (strings w) (clock (env w)) concerts t (strings w')) w.
Proof.
  unfold save_state, save_body, save_outcome.
  apply wp_try, wp_bind, wp_get_world, wp_bind, wp_redis.
  - intros msg _. apply wp_logger. split_and!; try done.
    eexists. split; [done|]. by left.
  - intros _. simpl. apply wp_bind, wp_redis.
    + intros msg _. apply wp_logger. split_and!; try done.
      eexists. split; [simpl; by rewrite <- app_assoc|]. right; by left.
    + intros _. simpl. apply wp_logger. split_and!; try done.
      eexists. split; [simpl; by rewrite <- app_assoc|]. right; by right.
Qed.

Lemma apply_setex_keeps (s : gmap pystr json_doc) (cmds : list pipe_cmd) k :
  Forall (fun c => match c with Setex _ _ _ => True | Delete _ => False end) cmds ->
  is_Some (s !! k) -> is_Some (foldl apply_cmd s cmds !! k).
Proof.
  revert s. induction cmds as [|c cmds IH]; intros s Hall Hk; simpl; [done|].
  inversion Hall as [|? ? Hc Hall']; subst. apply IH; [done|].
  destruct c as [|key ttl v]; [done|]. simpl.
  rewrite lookup_insert. case_decide; [by eexists | done].
Qed.

Lemma saved_has_key s ts (concerts : list (pystr * Concert)) k :
  k ∈ concerts.*1 -> is_Some (saved s ts concerts !! get_concert_key k).
Proof.
  intros Hk. unfold saved, save_pipeline. rewrite !foldl_app.
  apply apply_setex_keeps; [by repeat constructor|].
  generalize (foldl apply_cmd s
                (match concert_keys s with [] => [] | _ :: _ => [Delete (concert_keys s)] end)).
  induction concerts as [|[k' c'] concerts IH]; intros s0.
  - by apply elem_of_nil in Hk.
  - simpl in Hk. apply elem_of_cons in Hk as [->|Hk]; simpl.
    + apply apply_setex_keeps.
      * apply Forall_forall. intros c Hc. apply list_elem_of_fmap in Hc as (? & -> & _). done.
      * rewrite lookup_insert_eq. by eexists.
    + by apply IH.
Qed.

(** *** The registry *)

Lemma get_subscriber_count_spec w :
  wp get_subscriber_count
     (fun r w' =>
        faults w' = tail (faults w)
        /\ ((exists msg, next_fault w = Some msg /\ r = Ok 0
                         /\ frame w w' [ERedis Hlen false])
            \/ (next_fault w = None /\ r = Ok (Z.of_nat (size (subscribers w)))
                /\ frame w w' [ERedis Hlen true]))) w.
Proof.
  unfold get_subscriber_count. apply wp_try, wp_redis.
  - intros msg Hm. apply wp_bind, wp_logger, wp_ret. split; [done|]. left.
    exists msg. by repeat split.
  - intros Hm. simpl. split; [done|]. right. by repeat split.
Qed.

Lemma get_all_subscribers_spec w :
  wp get_all_subscribers
     (fun r w' =>
        faults w' = tail (faults w)
        /\ ((exists msg, next_fault w = Some msg /\ r = Ok []
                         /\ frame w w' [ERedis Hgetall false])
            \/ (next_fault w = None
                /\ r = Ok (map snd (map_to_list (subscribers w)))
                /\ frame w w' [ERedis Hgetall true]))) w.
Proof.
  unfold get_all_subscribers. apply wp_try, wp_bind, wp_redis.
  - intros msg Hm. apply wp_bind, wp_logger, wp_ret. split; [done|]. left.
    exists msg. by repeat split.
  - intros Hm. simpl. apply wp_ret. split; [done|]. right. by repeat split.
Qed.

Lemma remove_subscriber_spec uid w :
  wp (remove_subscriber uid)
     (fun r w' =>
        r = Ok None /\ env w' = env w /\ strings w' = strings w
        /\ replies w' = replies w /\ faults w' = tail (faults w)
        /\ ((exists msg, next_fault w = Some msg
                         /\ subscribers w' = subscribers w
                         /\ trace w' = trace w ++ [ERedis (Hdel uid) false]
                         /\ log w' = log w ++ [(ERROR, u8"❌ Error removing subscriber: " ++ msg)])
            \/ (next_fault w = None
                /\ subscribers w' = delete uid (subscribers w)
                /\ trace w' = trace w ++ [ERedis (Hdel uid) true]
                /\ log w' = log w ++ [removal_log uid (bool_decide (is_Some (subscribers w !! uid)))]))) w.
Proof.
  unfold remove_subscriber. apply wp_try, wp_bind, wp_redis.
  - intros msg Hm. apply wp_bind, wp_logger, wp_ret.
    repeat split; try done. left. exists msg. by repeat split.
  - intros Hm. simpl. apply wp_bind.
    destruct (subscribers w !! uid) as [s|] eqn:E; simpl;
      apply wp_logger, wp_ret; repeat split; try done; right; repeat split; try done.
Qed.

Section Dispatch.
Context `{Builtins}.
Variables (message : pystr) (image_url : option pystr).

Lemma deliver_spec s w :
  wp (deliver message image_url s)
     (fun r w' =>
        r = Ok tt /\ env w' = env w /\ strings w' = strings w
        /\ trace w' = trace w ++
             deliver_events message image_url (user_id s) (next_reply w)
                            (next_reply (pop_reply w)) (next_fault w)
        /\ subscribers w' =
             after_deliver (user_id s) (next_reply w) (next_fault w) (subscribers w)
        /\ replies w' =
             (if retried image_url (next_reply w) then tail (tail (replies w)) else tail (replies w))
        /\ faults w' =
             (if condemned (next_reply w) then tail (faults w) else faults w)) w.
Proof.
  unfold deliver. apply wp_try.
  assert (forall Q,
    (forall e, next_reply w = Some e ->
       Q (Raise e) (add_event (ESend (first_call message image_url (user_id s)) (Some e)) (pop_reply w))) ->
    (next_reply w = None ->
       forall l t, Q (Ok tt) (add_log l t (add_event (ESend (first_call message image_url (user_id s)) None) (pop_reply w)))) ->
    wp (match image_url with
        | Some url => bot_call (SendPhoto (user_id s) url message) ;;
                      logger INFO (u8"✅ Concert photo sent to " ++ Str.of_Z (user_id s))
        | None => bot_call (SendMessage (user_id s) message) ;;
                  logger INFO (u8"✅ Concert text sent to " ++ Str.of_Z (user_id s))
        end ;; sleep) Q w) as Hfirst.
  { intros Q Hf Hok. apply wp_bind.
    destruct image_url as [url|]; apply wp_bind, wp_bot; simpl; auto;
      intros Hn; apply wp_logger, wp_sleep; by apply Hok. }
  apply Hfirst; clear Hfirst.
  - intros e He. unfold deliver_events, after_deliver, retried, condemned.
    rewrite He. apply wp_bind, wp_logger, wp_bind.
    set (w1 := add_log _ _ _).
    assert (forall Q,
      (forall w2, env w2 = env w -> strings w2 = strings w ->
         subscribers w2 = subscribers w -> faults w2 = faults w ->
         trace w2 = trace w ++ ESend (first_call message image_url (user_id s)) (Some e)
           :: (if photo_error e && bool_decide (is_Some image_url)
               then [ESend (SendMessage (user_id s) message) (next_reply (pop_reply w))] else []) ->
         replies w2 = (if photo_error e && bool_decide (is_Some image_url)
                       then tail (tail (replies w)) else tail (replies w)) ->
         Q (Ok tt) w2) ->
      wp (if photo_error e && bool_decide (is_Some image_url)
          then try_pass (bot_call (SendMessage (user_id s) message) ;;
                         logger INFO (u8"✅ Fallback text sent to " ++ Str.of_Z (user_id s)))
          else ret tt) Q w1) as Hretry.
    { intros Q HQ. destruct (photo_error e && bool_decide (is_Some image_url)).
      - apply wp_try_pass, wp_bind, wp_bot.
        + intros e2 He2. apply HQ; try done. simpl.
          change (next_reply (pop_reply w)) with (next_reply w1 ) in *.
          by rewrite He2, <- app_assoc.
        + intros He2. apply wp_logger. apply HQ; try done. simpl.
          change (next_reply (pop_reply w)) with (next_reply w1 ) in *.
          by rewrite He2, <- app_assoc.
      - apply wp_ret. by apply HQ. }
    apply Hretry; clear Hretry. intros w2 Henv Hstr Hsub Hflt Htr Hrep. simpl.
    destruct (invalid_subscriber_error e).
    + apply wp_bind. eapply wp_mono; [apply remove_subscriber_spec|].
      intros r w3 (-> & Henv3 & Hstr3 & Hrep3 & Hflt3 & Hcases).
      apply wp_logger. simpl.
      assert (next_fault w2 = next_fault w) as Hnf by (unfold next_fault; by rewrite Hflt).
      rewrite Hnf in Hcases.
      repeat split; try congruence.
      * destruct Hcases as [(msg & Hm & _ & Ht & _)|(Hm & _ & Ht & _)];
          rewrite Ht, Htr, Hm; simpl; by rewrite <- app_assoc.
      * destruct Hcases as [(msg & Hm & Hs & _)|(Hm & Hs & _)];
          rewrite Hs, Hm; simpl; congruence.
    + apply wp_ret. simpl. repeat split; try congruence.
      rewrite Htr. by rewrite app_nil_r.
  - intros Hn l t. unfold deliver_events, after_deliver, retried, condemned.
    rewrite Hn. by repeat split.
Qed.

Lemma for_each_deliver_pass subs w :
  wp (for_each subs (deliver message image_url))
     (fun r w' =>
        r = Ok tt /\ env w' = env w /\ strings w' = strings w
        /\ exists t, trace w' = trace w ++ t
                     /\ pass message image_url subs (subscribers w) t (subscribers w')) w.
Proof.
  revert w. induction subs as [|s subs IH]; intros w; simpl.
  - apply wp_ret. repeat split; try done. exists []. split; [by rewrite app_nil_r | constructor].
  - apply wp_bind. eapply wp_mono; [apply deliver_spec|].
    intros r w1 (-> & Henv & Hstr & Htr & Hsub & _ & _).
    eapply wp_mono; [apply IH|].
    intros r w2 (-> & Henv2 & Hstr2 & t & Htr2 & Hpass).
    repeat split; try congruence.
    eexists. split.
    + rewrite Htr2, Htr, <- app_assoc. reflexivity.
    + econstructor. rewrite <- Hsub. exact Hpass.
Qed.

Lemma chat_of_first_call uid : chat_of (first_call message image_url uid) = uid.
Proof. unfold first_call. by destruct image_url. Qed.

Lemma sends_to_app uid t1 t2 : sends_to uid (t1 ++ t2) = sends_to uid t1 ++ sends_to uid t2.
Proof. apply filter_app. Qed.

Lemma sends_to_deliver_other uid uid' r1 r2 f :
  uid <> uid' -> sends_to uid (deliver_events message image_url uid' r1 r2 f) = [].
Proof.
  intros Hne. unfold deliver_events, sends_to.
  rewrite filter_cons. simpl. rewrite chat_of_first_call.
  rewrite decide_False by (rewrite bool_decide_eq_true; congruence).
  rewrite filter_app.
  destruct (retried image_url r1), (condemned r1); simpl;
    rewrite ?filter_cons, ?filter_nil; simpl;
    rewrite ?decide_False by (rewrite ?bool_decide_eq_true; congruence); done.
Qed.

Lemma sends_to_deliver uid r1 r2 f :
  sends_to uid (deliver_events message image_url uid r1 r2 f)
  = ESend (first_call message image_url uid) r1
    :: (if retried image_url r1 then [ESend (SendMessage uid message) r2] else []).
Proof.
  unfold deliver_events, sends_to.
  rewrite filter_cons. simpl. rewrite chat_of_first_call.
  rewrite decide_True by by rewrite bool_decide_eq_true.
  f_equal. rewrite filter_app.
  destruct (retried image_url r1), (condemned r1); simpl;
    rewrite ?filter_cons, ?filter_nil; simpl;
    rewrite ?decide_True by (by rewrite bool_decide_eq_true); done.
Qed.

Lemma after_deliver_other uid uid' r1 f (reg : gmap Z Subscriber) :
  uid <> uid' -> after_deliver uid' r1 f reg !! uid = reg !! uid.
Proof.
  intros Hne. unfold after_deliver.
  destruct (condemned r1 && bool_decide (f = None)); [|done].
  by rewrite lookup_delete_ne.
Qed.

(** A pass leaves alone those it does not visit. *)
Lemma pass_other subs reg t reg' uid :
  pass message image_url subs reg t reg' -> uid ∉ user_id <$> subs ->
  sends_to uid t = [] /\ reg' !! uid = reg !! uid.
Proof.
  induction 1 as [reg|s subs reg r1 r2 f t reg' Hp IH]; intros Hnot; [done|].
  rewrite fmap_cons in Hnot. apply not_elem_of_cons in Hnot as [Hne Hnot].
  destruct (IH Hnot) as [Hs Hr].
  rewrite sends_to_app, sends_to_deliver_other, Hs by done.
  split; [done|]. by rewrite Hr, after_deliver_other.
Qed.

(** Each subscriber of the list has its own block of events in the
    pass, and nothing else is addressed to it. *)
Lemma pass_member subs reg t reg' s :
  pass message image_url subs reg t reg' -> NoDup (user_id <$> subs) -> s ∈ subs ->
  exists r1 r2 f pre post,
    t = pre ++ deliver_events message image_url (user_id s) r1 r2 f ++ post
    /\ sends_to (user_id s) pre = [] /\ sends_to (user_id s) post = []
    /\ reg' !! user_id s = after_deliver (user_id s) r1 f reg !! user_id s.
Proof.
  induction 1 as [reg|s0 subs reg r1 r2 f t reg' Hp IH]; intros Hnd Hin.
  - by apply elem_of_nil in Hin.
  - rewrite fmap_cons in Hnd. apply NoDup_cons in Hnd as [Hfresh Hnd].
    apply elem_of_cons in Hin as [->|Hin].
    + destruct (pass_other _ _ _ _ _ Hp Hfresh) as [Hs Hr].
      exists r1, r2, f, [], t. by repeat split.
    + destruct (IH Hnd Hin) as (r1' & r2' & f' & pre & post & -> & Hpre & Hpost & Hreg).
      assert (user_id s <> user_id s0) as Hne.
      { intros Heq. apply Hfresh. rewrite <- Heq. by apply list_elem_of_fmap_2. }
      exists r1', r2', f', (deliver_events message image_url (user_id s0) r1 r2 f ++ pre), post.
      repeat split; try done.
      * by rewrite <- app_assoc.
      * by rewrite sends_to_app, sends_to_deliver_other, Hpre.
      * rewrite Hreg. unfold after_deliver at 1 3.
        destruct (condemned r1' && bool_decide (f' = None)).
        -- by rewrite !lookup_delete_eq.
        -- by apply after_deliver_other.
Qed.

Lemma pass_events subs reg t reg' :
  pass message image_url subs reg t reg' ->
  Forall (fun e => is_exec e = false /\ is_hgetall e = false) t.
Proof.
  induction 1 as [reg|s subs reg r1 r2 f t reg' Hp IH]; [constructor|].
  apply Forall_app. split; [|done]. unfold deliver_events.
  constructor; [done|]. apply Forall_app.
  split; [destruct (retried image_url r1) | destruct (condemned r1)]; by repeat constructor.
Qed.

Lemma pass_no_keys subs reg t reg' :
  pass message image_url subs reg t reg' ->
  Forall (fun e => is_keys e = false) t.
Proof.
  induction 1 as [reg|s subs reg r1 r2 f t reg' Hp IH]; [constructor|].
  apply Forall_app. split; [|done]. unfold deliver_events.
  constructor; [done|]. apply Forall_app.
  split; [destruct (retried image_url r1) | destruct (condemned r1)]; by repeat constructor.
Qed.
End Dispatch.

Section Notify.
Context `{Builtins}.

Lemma send_concert_notification_spec concert w :
  wp (send_concert_notification concert)
     (fun r w' =>
        r = Ok tt /\ env w' = env w /\ strings w' = strings w
        /\ ((exists msg, next_fault w = Some msg
               /\ trace w' = trace w ++ [ERedis Hgetall false]
               /\ subscribers w' = subscribers w)
            \/ (next_fault w = None
                /\ exists t, trace w' = trace w ++ ERedis Hgetall true :: t
                   /\ pass (format_single_concert_message concert)
                           (get_concert_image_url concert)
                           (map snd (map_to_list (subscribers w)))
                           (subscribers w) t (subscribers w')))) w.
Proof.
  unfold send_concert_notification. apply wp_bind.
  eapply wp_mono; [apply get_all_subscribers_spec|].
  intros r w1 (Hf & [(msg & Hm & -> & Hfr)|(Hm & -> & Hfr)]);
    destruct Hfr as (Henv & Hstr & Hsub & Hrep & Htr).
  - simpl. apply wp_ret. split_and!; try done. left. exists msg.
    split; [exact Hm|]. split; [exact Htr|exact Hsub].
  - eapply wp_mono; [apply for_each_deliver_pass|].
    intros r w2 (-> & Henv2 & Hstr2 & t & Htr2 & Hpass).
    split_and!; try congruence. right. split; [done|]. exists t. split.
    + rewrite Htr2, Htr, <- app_assoc. done.
    + by rewrite Hsub in Hpass.
Qed.

Lemma notify_loop_spec (items : list show_dict) w :
  wp (for_each items (fun concert => send_concert_notification concert ;; sleep))
     (fun r w' =>
        r = Ok tt /\ env w' = env w /\ strings w' = strings w
        /\ exists t, trace w' = trace w ++ t
             /\ Forall (fun e => is_exec e = false) t
             /\ length (filter (fun e => is_hgetall e = true) t) = length items) w.
Proof.
  revert w. induction items as [|c items IH]; intros w; simpl.
  - apply wp_ret. split_and!; try done. exists []. by rewrite app_nil_r.
  - apply wp_bind, wp_bind. eapply wp_mono; [apply send_concert_notification_spec|].
    intros r w1 (-> & Henv & Hstr & Hcases). apply wp_sleep.
    eapply wp_mono; [apply IH|].
    intros r w2 (-> & Henv2 & Hstr2 & t2 & Htr2 & Hex2 & Hcount2).
    split_and!; try congruence.
    destruct Hcases as [(msg & _ & Htr & _)|(_ & t & Htr & Hpass)].
    + exists (ERedis Hgetall false :: t2). split_and!.
      * rewrite Htr2, Htr, <- app_assoc. done.
      * by constructor.
      * rewrite filter_cons. simpl. by rewrite Hcount2.
    + pose proof (pass_events _ _ _ _ _ _ Hpass) as Hev.
      exists (ERedis Hgetall true :: t ++ t2). split_and!.
      * rewrite Htr2, Htr, <- app_assoc. done.
      * constructor; [done|]. apply Forall_app. split; [|done].
        eapply Forall_impl; [exact Hev|]. by intros e [].
      * rewrite filter_cons, filter_app. simpl. rewrite length_app, Hcount2.
        replace (filter (fun e => is_hgetall e = true) t) with (@nil event); [done|].
        symmetry. clear -Hev. induction Hev as [|e t [_ He] _ IH]; [done|].
        rewrite filter_cons, decide_False by (by rewrite He). done.
Qed.

Lemma notify_new_concerts_spec (items : list show_dict) w :
  wp (notify_new_concerts items)
     (fun r w' =>
        r = Ok tt /\ env w' = env w /\ strings w' = strings w
        /\ exists t, trace w' = trace w ++ t
             /\ Forall (fun e => is_exec e = false) t
             /\ match items with
                | [] => t = []
                | _ => exists ok t', t = ERedis Hlen ok :: t'
                         /\ (ok = false <-> next_fault w <> None)
                         /\ (ok = false \/ size (subscribers w) = 0%nat -> t' = [])
                         /\ (ok = true -> size (subscribers w) <> 0%nat ->
                             length (filter (fun e => is_hgetall e = true) t') = length items)
                end) w.
Proof.
  unfold notify_new_concerts. destruct items as [|c items].
  { apply wp_ret. split_and!; try done. exists []. by rewrite app_nil_r. }
  set (cs := c :: items). apply wp_bind.
  eapply wp_mono; [apply get_subscriber_count_spec|].
  intros r w1 (Hf & [(msg & Hm & -> & Hfr)|(Hm & -> & Hfr)]);
    destruct Hfr as (Henv & Hstr & Hsub & Hrep & Htr).
  - simpl. apply wp_logger. split_and!; try done.
    exists [ERedis Hlen false]. split_and!; try done.
    { by repeat constructor. }
    exists false, []. split_and!; try done;
      try (split; [intros _; by rewrite Hm | done]).
  - cbv beta iota.
    destruct (Z.eqb_spec (Z.of_nat (size (subscribers w))) 0) as [Hz|Hz].
    + apply wp_logger. split_and!; try done.
      exists [ERedis Hlen true]. split_and!; try done.
      { by repeat constructor. }
      exists true, []. split_and!; try done;
        try (split; [done | intros Hc; by rewrite Hm in Hc]).
      intros _ Hc. lia.
    + apply wp_bind, wp_logger.
      eapply wp_mono; [apply notify_loop_spec|].
      intros r w2 (-> & Henv2 & Hstr2 & t & Htr2 & Hex & Hcount).
      simpl in Henv2, Hstr2, Htr2.
      split_and!; try congruence.
      exists (ERedis Hlen true :: t). split_and!.
      * rewrite Htr2, Htr, <- app_assoc. done.
      * by constructor.
      * exists true, t.
        split_and!;
          [ done
          | split; [done | intros Hc; by rewrite Hm in Hc]
          | intros [Hc|Hc]; [discriminate | lia]
          | by intros _ _ ].
Qed.

Lemma notify_loop_no_keys (items : list show_dict) w :
  wp (for_each items (fun concert => send_concert_notification concert ;; sleep))
     (fun _ w' => exists t, trace w' = trace w ++ t
                  /\ Forall (fun e => is_keys e = false) t) w.
Proof.
  revert w. induction items as [|c items IH]; intros w; simpl.
  - apply wp_ret. exists []. by rewrite app_nil_r.
  - apply wp_bind, wp_bind. eapply wp_mono; [apply send_concert_notification_spec|].
    intros r w1 (-> & _ & _ & Hcases). apply wp_sleep.
    eapply wp_mono; [apply IH|].
    intros r w2 (t2 & Htr2 & Hno2).
    destruct Hcases as [(msg & _ & Htr & _)|(_ & t & Htr & Hpass)].
    + exists (ERedis Hgetall false :: t2). split.
      * rewrite Htr2, Htr, <- app_assoc. done.
      * by constructor.
    + exists (ERedis Hgetall true :: t ++ t2). split.
      * rewrite Htr2, Htr, <- app_assoc. done.
      * constructor; [done|]. apply Forall_app. split; [|done].
        by eapply pass_no_keys.
Qed.

Lemma notify_new_concerts_no_keys (items : list show_dict) w :
  wp (notify_new_concerts items)
     (fun _ w' => exists t, trace w' = trace w ++ t
                  /\ Forall (fun e => is_keys e = false) t) w.
Proof.
  unfold notify_new_concerts. destruct items as [|c items].
  { apply wp_ret. exists []. by rewrite app_nil_r. }
  set (cs := c :: items). apply wp_bind.
  eapply wp_mono; [apply get_subscriber_count_spec|].
  intros r w1 (Hf & [(msg & Hm & -> & Hfr)|(Hm & -> & Hfr)]);
    destruct Hfr as (_ & _ & _ & _ & Htr).
  - simpl. apply wp_logger. exists [ERedis Hlen false]. by repeat constructor.
  - cbv beta iota.
    destruct (Z.eqb_spec (Z.of_nat (size (subscribers w))) 0) as [Hz|Hz].
    + apply wp_logger. exists [ERedis Hlen true]. by repeat constructor.
    + apply wp_bind, wp_logger.
      eapply wp_mono; [apply notify_loop_no_keys|].
      intros r w2 (t & Htr2 & Hno). simpl in Htr2.
      exists (ERedis Hlen true :: t). split.
      * rewrite Htr2, Htr, <- app_assoc. done.
      * by constructor.
Qed.
End Notify.

Section HandlerSpec.
Context `{Builtins}.

Lemma cache_init_spec w :
  wp RedisConcertCache.init
     (fun r w' =>
        faults w' = tail (faults w)
        /\ ((exists msg, next_fault w = Some msg /\ r = Raise msg
                         /\ frame w w' [ERedis Ping false])
            \/ (next_fault w = None /\ r = Ok tt
                /\ frame w w' [ERedis Ping true]))) w.
Proof.
  unfold wp, RedisConcertCache.init, ping, redis_command, next_fault, frame.
  destruct (head (faults w)) as [[msg|]|]; simpl.
  - split; [done|]. left. exists msg. by split_and!.
  - split; [done|]. right. by split_and!.
  - split; [done|]. right. by split_and!.
Qed.

Lemma notifier_init_spec w :
  wp BarbyConcertNotifier.init
     (fun r w' => w' = w /\ if token_ok w then r = Ok tt else exists e, r = Raise e) w.
Proof.
  unfold wp, BarbyConcertNotifier.init, token_ok.
  destruct (telegram_token (env w)) as [[|c t]|]; simpl; eauto.
Qed.

Lemma lambda_handler_outcome w : wp lambda_handler (outcome w) w.
Proof.
  unfold lambda_handler.
  apply wp_try, wp_bind, wp_logger, wp_bind, wp_getenv_redis_port.
  change (redis_port (env (add_log INFO
            (u8"🔄 Initializing Barby API scraper and Redis cache") w)))
    with (redis_port (env w)).
  destruct (redis_port (env w)) as [port|e] eqn:Eport.
  2:{ apply wp_bind, wp_logger, wp_ret. apply out_bad_port.
      - unfold port_ok. by rewrite Eport.
      - by repeat apply frame_log; apply frame_refl. }
  assert (port_ok w = true) as Hport by (unfold port_ok; by rewrite Eport).
  apply wp_bind.
  eapply wp_mono; [apply cache_init_spec|].
  intros r w1 (Hf1 & [(msg & Hm & -> & Hfr)|(Hm & -> & Hfr)]);
    change (next_fault (add_log INFO (u8"🔄 Initializing Barby API scraper and Redis cache") w))
      with (next_fault w) in Hm.
  { apply wp_bind, wp_logger, wp_ret.
    apply out_redis_down; [done | by rewrite Hm | exact Hfr]. }
  assert (frame w w1 [ERedis Ping true]) as Hfr1 by done. clear Hfr.
  apply wp_bind. eapply wp_mono; [apply notifier_init_spec|].
  intros r w1' [-> Htok].
  assert (token_ok w1 = token_ok w) as Htok1.
  { unfold token_ok. by destruct Hfr1 as (-> & _). }
  rewrite Htok1 in Htok. destruct (token_ok w) eqn:Etok.
  2:{ destruct Htok as [e ->]. apply wp_bind, wp_logger, wp_ret.
      by apply out_no_token. }
  subst r. apply wp_bind, wp_logger, wp_bind, wp_get_world.
  assert (env (add_log INFO (u8"📅 Fetching current concerts from Barby API") w1) = env w)
    as -> by by destruct Hfr1.
  destruct (get_concerts (upstream (env w))) as [|c0 cs0] eqn:Econcerts.
  { apply wp_ret. by apply out_no_concerts. }
  rewrite <- Econcerts.
  apply wp_bind, wp_logger, wp_bind.
  eapply wp_mono;
    [apply (wp_and _ _ _ _ (load_last_state_reads _) (load_last_state_shape _))|].
  intros r w2 [([[last lc] ->] & (t_load & Hfr2 & Hreads)) (t_load' & Htl & Hshape_load)].
  assert (t_load' = t_load) as ->.
  { destruct Hfr2 as (_ & _ & _ & _ & Htl'). rewrite Htl' in Htl.
    by apply app_inv_head in Htl. }
  clear Htl.
  assert (frame w w2 (ERedis Ping true :: t_load)) as Hw2.
  { change (ERedis Ping true :: t_load) with ([ERedis Ping true] ++ t_load).
    eapply frame_trans; [exact Hfr1|]. exact Hfr2. }
  clear Hfr2. simpl fst.
  fold (compute_new (get_concerts (upstream (env w))) last).
  destruct (compute_new (get_concerts (upstream (env w))) last) as [|n0 ns] eqn:Enew.
  { apply wp_bind, wp_logger, wp_ret.
    eapply out_no_change; try done. rewrite Econcerts. done. }
  rewrite <- Enew. apply wp_bind, wp_bind, wp_logger, wp_bind.
  eapply wp_mono; [apply save_state_spec|].
  intros r w3 (-> & Henv3 & _ & _ & t_save & Htr3 & Hsave).
  eapply wp_mono;
    [apply (wp_and _ _ _ _ (notify_new_concerts_spec _ _) (notify_new_concerts_no_keys _ _))|].
  intros r w4 [(-> & Henv4 & Hstr4 & t_n & Htr4 & Hex & Hshape) (t_n' & Htr4' & Hnokeys)].
  assert (t_n' = t_n) as ->.
  { rewrite Htr4 in Htr4'. by apply app_inv_head in Htr4'. }
  clear Htr4'.
  apply wp_ret.
  destruct Hw2 as (Henv2 & Hstr2 & _ & _ & Htr2).
  simpl in Henv3, Htr3, Hsave.
  rewrite Enew in Hshape. simpl in Hshape.
  destruct Hshape as (ok & t' & -> & _).
  eapply (out_notified w w4 t_load t_save t' ok last); try done.
  - by rewrite Enew.
  - congruence.
  - rewrite Htr4, Htr3, Htr2. rewrite <- !app_assoc. done.
  - rewrite Hstr4, <- Hstr2. by rewrite Henv2 in Hsave.
  - by inversion Hex.
  - by inversion Hnokeys.
Qed.
End HandlerSpec.

(** ** Lists of events *)

Lemma split_after {A} (l m pre post : list A) x :
  l ++ m = pre ++ x :: post -> x ∉ l ->
  exists pre', pre = l ++ pre' /\ m = pre' ++ x :: post.
Proof.
  revert pre. induction l as [|a l IH]; intros pre Heq Hx; simpl in Heq.
  - by exists pre.
  - apply not_elem_of_cons in Hx as [Hne Hx].
    destruct pre as [|b pre]; simpl in Heq; injection Heq as Hhd Htl.
    + by subst.
    + subst. destruct (IH pre Htl Hx) as (pre' & -> & ->). by exists pre'.
Qed.


Lemma reads_not_exec t e :
  Forall (fun e => is_read e = true) t -> e ∈ t -> is_exec e = false /\ is_send e = false.
Proof.
  intros Hall Hin. rewrite Forall_forall in Hall. specialize (Hall e Hin).
  destruct e as [[]|]; done.
Qed.

Section Orchestrator.
Context `{Builtins}.

Lemma handler_run w w' r : lambda_handler w = (w', r) -> outcome w r w'.
Proof. intros Hrun. exact (wp_run _ _ _ _ _ (lambda_handler_outcome w) Hrun). Qed.


End Orchestrator.

Lemma dict_set_keys {V} (k : pystr) (v : V) (d : list (pystr * V)) k0 :
  k0 ∈ (dict_set k v d).*1 -> k0 = k \/ k0 ∈ d.*1.
Proof.
  induction d as [|[k' v'] d IH]; simpl.
  - intros Hin. apply list_elem_of_singleton in Hin. by left.
  - case_bool_decide; simpl; intros Hin.
    + by right.
    + apply elem_of_cons in Hin as [->|Hin]; [right; left|].
      destruct (IH Hin) as [->|?]; [by left | right; by right].
Qed.

Lemma current_concerts_keys (concerts : list Concert) k :
  k ∈ (current_concerts concerts).*1 -> k ∈ show_id <$> concerts.
Proof.
  unfold current_concerts.
  assert (forall acc : list (pystr * Concert),
            k ∈ (foldl (fun d concert => dict_set (show_id concert) concert d) acc concerts).*1 ->
            k ∈ acc.*1 \/ k ∈ show_id <$> concerts) as Hgen.
  { induction concerts as [|c cs IH]; intros acc Hin; simpl in *; [by left|].
    destruct (IH _ Hin) as [Hacc|Hcs].
    - destruct (dict_set_keys _ _ _ _ Hacc) as [->|?]; [right; left | by left].
    - right. by right. }
  intros Hin. destruct (Hgen [] Hin) as [Hnil|?]; [|done].
  by apply elem_of_nil in Hnil.
Qed.

Lemma dict_set_has_key {V} (k : pystr) (v : V) (d : list (pystr * V)) :
  k ∈ (dict_set k v d).*1.
Proof.
  induction d as [|[k' v'] d IH]; simpl; [left|].
  case_bool_decide; simpl; [subst; left | by right].
Qed.

Lemma dict_set_keeps_key {V} (k : pystr) (v : V) (d : list (pystr * V)) k0 :
  k0 ∈ d.*1 -> k0 ∈ (dict_set k v d).*1.
Proof.
  induction d as [|[k' v'] d IH]; simpl; intros Hin; [by apply elem_of_nil in Hin|].
  case_bool_decide; simpl; [done|].
  apply elem_of_cons in Hin as [->|Hin]; [left | right; by apply IH].
Qed.

Lemma foldl_dict_set_keeps (concerts : list Concert) (acc : list (pystr * Concert)) k :
  k ∈ acc.*1 ->
  k ∈ (foldl (fun d concert => dict_set (show_id concert) concert d) acc concerts).*1.
Proof.
  revert acc. induction concerts as [|c cs IH]; intros acc Ha; simpl; [done|].
  by apply IH, dict_set_keeps_key.
Qed.

Lemma current_concerts_has_key (concerts : list Concert) c :
  c ∈ concerts -> show_id c ∈ (current_concerts concerts).*1.
Proof.
  unfold current_concerts. generalize (@nil (pystr * Concert)).
  induction concerts as [|c' cs IH]; intros acc Hin.
  - by apply elem_of_nil in Hin.
  - simpl. apply elem_of_cons in Hin as [->|Hin].
    + apply foldl_dict_set_keeps, dict_set_has_key.
    + by apply IH.
Qed.

Lemma new_concerts_loop_known {V} (items : list (pystr * Concert))
    (last_concerts : gmap pystr V) acc :
  (forall k, k ∈ items.*1 -> is_Some (last_concerts !! k)) ->
  new_concerts_loop items last_concerts acc = acc.
Proof.
  revert acc. induction items as [|[k c] items IH]; intros acc Hall; simpl; [done|].
  destruct (Hall k) as [v Hv]; [left|].
  rewrite bool_decide_eq_false_2 by by rewrite Hv.
  apply IH. intros k' Hk'. apply Hall. by right.
Qed.

Section Rerun.
Context `{Builtins}.

(** An invocation that finds every listed show in the snapshot changes
    nothing and notifies nobody. *)
Lemma handler_no_change w :
  port_ok w = true -> faults w = [] -> token_ok w = true ->
  get_concerts (upstream (env w)) <> [] ->
  (forall c, c ∈ get_concerts (upstream (env w)) ->
             (58%N ∉ show_id c) /\ is_Some (strings w !! get_concert_key (show_id c))) ->
  wp lambda_handler (fun r w' => r = Ok (Some success) /\ reads w w') w.
Proof.
  intros Hport Hf Htok Hne Hknown.
  unfold lambda_handler.
  apply wp_try, wp_bind, wp_logger, wp_bind, wp_redis_port_ok; [exact Hport|].
  intros port. apply wp_bind.
  eapply wp_mono; [apply cache_init_spec|].
  intros r w1 (Hf1 & [(msg & Hm & _)|(_ & -> & Hfr)]).
  { exfalso. unfold next_fault in Hm. simpl in Hm. by rewrite Hf in Hm. }
  simpl in Hf1. rewrite Hf in Hf1. simpl in Hf1.
  assert (frame w w1 [ERedis Ping true]) as Hfr1 by exact Hfr. clear Hfr.
  assert (reads w w1) as Hr1 by (exists [ERedis Ping true]; split; [done | by repeat constructor]).
  apply wp_bind. eapply wp_mono; [apply notifier_init_spec|].
  intros r w1' [-> Htok'].
  assert (token_ok w1 = true) as Htok1.
  { unfold token_ok in *. by destruct Hfr1 as (-> & _). }
  rewrite Htok1 in Htok'. subst r.
  apply wp_bind, wp_logger, wp_bind, wp_get_world.
  assert (env (add_log INFO (u8"📅 Fetching current concerts from Barby API") w1) = env w)
    as -> by by destruct Hfr1.
  destruct (get_concerts (upstream (env w))) as [|c0 cs0] eqn:Econcerts; [done|].
  rewrite <- Econcerts in *.
  apply wp_bind, wp_logger, wp_bind.
  eapply wp_mono; [by apply load_last_state_healthy|].
  intros r w2 ([lc ->] & Hf2 & Hr2). simpl fst. simpl strings.
  assert (strings w1 = strings w) as -> by by destruct Hfr1 as (_ & -> & _).
  rewrite new_concerts_loop_known.
  - apply wp_bind, wp_logger, wp_ret. split; [done|].
    apply reads_log. eapply reads_trans; [exact Hr1|].
    destruct Hr2 as (t & Hfr2 & Hall). by exists t.
  - intros k Hk. apply current_concerts_keys in Hk.
    apply list_elem_of_fmap in Hk as (c & -> & Hc).
    destruct (Hknown c Hc) as [Hcolon Hsome].
    by apply loaded_concert_id.
Qed.

(** C3, amended. In an invocation whose save went through, the
    transaction of the save comes before every Bot API call. From any
    world that still holds the keyspace this invocation left (so after
    any failure or interruption of its dispatch), with the same
    environment and a Redis server that answers, and when no listed
    show id contains a colon, a second invocation returns the success
    response having done nothing but reads: no write, no Bot API call. *)
Theorem save_before_notify w w' r t :
  lambda_handler w = (w', r) ->
  trace w' = trace w ++ t ->
  ERedis Exec true ∈ t ->
  (forall pre c rp post, t = pre ++ ESend c rp :: post -> ERedis Exec true ∈ pre)
  /\ (forall w1,
        env w1 = env w -> strings w1 = strings w' -> faults w1 = [] ->
        (forall c, c ∈ get_concerts (upstream (env w)) -> 58%N ∉ show_id c) ->
        exists w1', lambda_handler w1 = (w1', Ok (Some success)) /\ reads w1 w1').
Proof.
  intros Hrun Htr Hexec.
  assert (forall t0, Forall (fun e => is_read e = true) t0 ->
                     trace w' = trace w ++ t0 -> False) as Hno.
  { intros t0 Hall Ht. rewrite Ht in Htr. apply app_inv_head in Htr. subst t0.
    by destruct (reads_not_exec _ _ Hall Hexec). }
  destruct (handler_run _ _ _ Hrun)
    as [w' _ Hfr|w' _ _ Hfr|w' _ _ _ Hfr|w' _ _ _ _ Hfr
       |w' t0 last _ _ _ _ _ Hfr Hreads _
       |w' t_load t_save t_notify ok last Hport _ Htok Hnew Henv Htr' Hreads _ Hso Hex _].
  1-5: exfalso; eapply Hno; [|apply Hfr]; by repeat constructor.
  rewrite Htr' in Htr. apply app_inv_head in Htr. subst t.
  assert (forall e, e ∈ ERedis Ping true :: t_load -> is_exec e = false /\ is_send e = false) as Hl.
  { intros e He. apply elem_of_cons in He as [->|He]; [done|].
    by apply (reads_not_exec _ _ Hreads). }
  assert (t_save = [ERedis (Keys concert_prefix) true; ERedis Exec true]
          /\ strings w' = saved (strings w) (clock (env w))
               (current_concerts (get_concerts (upstream (env w))))) as [-> Hsaved].
  { destruct Hso as [[-> Hs]|[[-> Hs]|[-> Hs]]]; [exfalso|exfalso|done];
      rewrite app_comm_cons in Hexec; apply elem_of_app in Hexec as [Hin|Hin];
      try (by destruct (Hl _ Hin));
      repeat (apply elem_of_cons in Hin as [?|Hin]; [done|]);
      rewrite Forall_forall in Hex; by specialize (Hex _ Hin). }
  split.
  - intros pre c rp post Heq.
    replace (ERedis Ping true :: t_load
               ++ [ERedis (Keys concert_prefix) true; ERedis Exec true]
               ++ ERedis Hlen ok :: t_notify)
      with ((ERedis Ping true :: t_load
               ++ [ERedis (Keys concert_prefix) true; ERedis Exec true; ERedis Hlen ok])
               ++ t_notify) in Heq
      by (simpl; rewrite <- app_assoc; done).
    apply split_after in Heq as (pre' & -> & _).
    + apply elem_of_app. left. right. apply elem_of_app. right. right. left.
    + intros Hin. rewrite app_comm_cons in Hin. apply elem_of_app in Hin as [Hin|Hin].
      * by destruct (Hl _ Hin).
      * repeat (apply elem_of_cons in Hin as [?|Hin]; [done|]).
        by apply elem_of_nil in Hin.
  - intros w1 Henv1 Hstr1 Hf1 Hcolon.
    assert (get_concerts (upstream (env w)) <> []) as Hne.
    { intros Hnil. apply Hnew. by rewrite Hnil. }
    pose proof (handler_no_change w1) as Hw1.
    rewrite Henv1 in Hw1.
    assert (port_ok w1 = true) as Hport1 by (unfold port_ok in *; by rewrite Henv1).
    specialize (Hw1 Hport1 Hf1).
    assert (token_ok w1 = true) as Htok1 by (unfold token_ok in *; by rewrite Henv1).
    specialize (Hw1 Htok1 Hne).
    destruct (lambda_handler w1) as [w1' r1] eqn:Erun.
    exists w1'. unfold wp in Hw1. rewrite Erun in Hw1. simpl in Hw1.
    destruct Hw1 as [-> Hr]; [|done].
    intros c Hc. split; [by apply Hcolon|].
    rewrite Hstr1, Hsaved. apply saved_has_key.
    by apply current_concerts_has_key.
Qed.
End Rerun.

Lemma registry_list_nodup (reg : gmap Z Subscriber) :
  wf_registry reg -> NoDup (user_id <$> (map snd (map_to_list reg))).
Proof.
  intros Hwf.
  replace (user_id <$> map snd (map_to_list reg)) with ((map_to_list reg).*1).
  - apply NoDup_fst_map_to_list.
  - assert (forall l : list (Z * Subscriber),
              (forall kv, kv ∈ l -> user_id kv.2 = kv.1) -> l.*1 = user_id <$> map snd l) as Hl.
    { induction l as [|[k v] l IH]; intros Hall; [done|]. simpl.
      pose proof (Hall (k, v)) as Hkv. simpl in Hkv. rewrite Hkv by left.
      f_equal. apply IH. intros kv Hin. apply Hall. by right. }
    apply Hl. intros [k v] Hkv. apply elem_of_map_to_list in Hkv. simpl. by apply Hwf.
Qed.

Section DispatchTheorems.
Context `{Builtins}.

(** C5. When the photo attempt for a subscriber and an item raises an
    error whose message contains "photo", exactly one text attempt to
    that subscriber follows, whatever its outcome nothing else is sent,
    and unless the photo error is one that condemns the subscriber
    there is no removal and the registry is as it was. *)
Theorem attachment_fallback message url s w e rs :
  replies w = Some e :: rs ->
  photo_error e = true ->
  exists w' removal,
    deliver message (Some url) s w = (w', Ok tt)
    /\ trace w' = trace w
         ++ [ESend (SendPhoto (user_id s) url message) (Some e);
             ESend (SendMessage (user_id s) message) (head rs ≫= id)]
         ++ removal
    /\ Forall (fun ev => is_send ev = false) removal
    /\ (invalid_subscriber_error e = false ->
        removal = [] /\ subscribers w' = subscribers w).
Proof.
  intros Hrep Hphoto.
  pose proof (deliver_spec message (Some url) s w) as Hspec.
  unfold wp in Hspec. destruct (deliver message (Some url) s w) as [w' r].
  simpl in Hspec. destruct Hspec as (-> & _ & _ & Htr & Hsub & _ & _).
  assert (next_reply w = Some e) as Hnr by (unfold next_reply; by rewrite Hrep).
  assert (next_reply (pop_reply w) = head rs ≫= id) as Hnr2.
  { unfold next_reply, pop_reply. simpl. by rewrite Hrep. }
  rewrite Hnr, Hnr2 in Htr. rewrite Hnr in Hsub.
  unfold deliver_events, after_deliver, retried, condemned in Htr, Hsub.
  rewrite Hphoto in Htr. simpl in Htr.
  exists w', (if invalid_subscriber_error e
              then [ERedis (Hdel (user_id s)) (bool_decide (next_fault w = None))] else []).
  split_and!; try done.
  - by destruct (invalid_subscriber_error e); repeat constructor.
  - intros Hinv. rewrite Hinv in *. done.
Qed.

(** C4, amended. In the pass for one item, once the subscriber list
    is read: every subscriber on it has its own block of events, made
    of exactly one first attempt, the text retry when that attempt
    failed on the photo, and the removal request when that attempt
    failed with "chat not found" or "bot was blocked" (any case);
    nothing else in the pass is addressed to it. The subscriber is gone
    from the registry when such a removal was asked and answered, and
    is still there otherwise. The pass always returns normally, and so
    does the pass over all items, which reads the subscriber list once
    per item. *)
Theorem permanent_failure_cleanup concert w w' r :
  wf_registry (subscribers w) ->
  next_fault w = None ->
  send_concert_notification concert w = (w', r) ->
  r = Ok tt
  /\ (forall uid s, subscribers w !! uid = Some s ->
        exists r1 r2 f pre post,
          trace w' = trace w ++ ERedis Hgetall true
                       :: pre ++ deliver_events
                                   (format_single_concert_message concert)
                                   (get_concert_image_url concert)
                                   uid r1 r2 f ++ post
          /\ sends_to uid pre = [] /\ sends_to uid post = []
          /\ subscribers w' !! uid =
               (if condemned r1 && bool_decide (f = None) then None else Some s))
  /\ (forall items w0 w1 r0,
        notify_new_concerts items w0 = (w1, r0) ->
        r0 = Ok tt
        /\ (items <> [] -> next_fault w0 = None -> size (subscribers w0) <> 0%nat ->
            exists t, trace w1 = trace w0 ++ ERedis Hlen true :: t
              /\ length (filter (fun e => is_hgetall e = true) t) = length items)).
Proof.
  intros Hwf Hnf Hrun.
  pose proof (wp_run _ _ _ _ _ (send_concert_notification_spec concert w) Hrun)
    as (-> & _ & _ & [(msg & Hm & _)|(_ & t & Htr & Hpass)]).
  { by rewrite Hnf in Hm. }
  split; [done|]. split.
  - intros uid s Hs.
    assert (s ∈ map snd (map_to_list (subscribers w))) as Hin.
    { apply list_elem_of_fmap. exists (uid, s). split; [done|]. by apply elem_of_map_to_list. }
    destruct (pass_member _ _ _ _ _ _ _ Hpass (registry_list_nodup _ Hwf) Hin)
      as (r1 & r2 & f & pre & post & -> & Hpre & Hpost & Hreg).
    rewrite (Hwf _ _ Hs) in *.
    exists r1, r2, f, pre, post. split_and!; try done.
    rewrite Hreg. unfold after_deliver.
    destruct (condemned r1 && bool_decide (f = None)).
    + apply lookup_delete_eq.
    + done.
  - intros items w0 w1 r0 Hrun0.
    pose proof (wp_run _ _ _ _ _ (notify_new_concerts_spec items w0) Hrun0)
      as (-> & _ & _ & t0 & Htr0 & _ & Hshape).
    split; [done|]. intros Hne Hnf0 Hsize.
    destruct items as [|c items]; [done|].
    destruct Hshape as (ok & t' & -> & Hok & _ & Hcount).
    destruct ok.
    + exists t'. split; [done|]. by apply Hcount.
    + exfalso. by apply Hok.
Qed.

(** C10. When the registry raises on the next read:
    [get_subscriber_count] returns 0 and [get_all_subscribers] the empty
    list; a dispatch pass, over all items or for one item, returns
    normally having made that one failed read and no Bot API call. *)
Theorem registry_unreachable w msg fs :
  faults w = Some msg :: fs ->
  (exists w', get_subscriber_count w = (w', Ok 0))
  /\ (exists w', get_all_subscribers w = (w', Ok []))
  /\ (forall items, exists w',
        notify_new_concerts items w = (w', Ok tt)
        /\ replies w' = replies w
        /\ trace w' = trace w ++ match items with [] => [] | _ => [ERedis Hlen false] end)
  /\ (forall concert, exists w',
        send_concert_notification concert w = (w', Ok tt)
        /\ replies w' = replies w
        /\ trace w' = trace w ++ [ERedis Hgetall false]).
Proof.
  intros Hf.
  assert (next_fault w = Some msg) as Hnf by (unfold next_fault; by rewrite Hf).
  split_and!.
  - pose proof (get_subscriber_count_spec w) as Hs. unfold wp in Hs.
    destruct (get_subscriber_count w) as [w' r]. simpl in Hs.
    destruct Hs as (_ & [(m & _ & -> & _)|(Hn & _)]); [by exists w'|congruence].
  - pose proof (get_all_subscribers_spec w) as Hs. unfold wp in Hs.
    destruct (get_all_subscribers w) as [w' r]. simpl in Hs.
    destruct Hs as (_ & [(m & _ & -> & _)|(Hn & _)]); [by exists w'|congruence].
  - intros items. unfold notify_new_concerts. destruct items as [|c items].
    { exists w. split_and!; try done. by rewrite app_nil_r. }
    cbv [bind get_subscriber_count try_except hlen redis_command].
    rewrite Hf. simpl. eexists. split_and!; done.
  - intros concert.
    cbv [send_concert_notification bind get_all_subscribers try_except hgetall redis_command].
    rewrite Hf. simpl. eexists. split_and!; done.
Qed.
End DispatchTheorems.

(** C9, amended. [remove_subscriber] returns no value ([None]) and never
    raises, whether the subscriber was there or not. When the registry
    answers, the entry is deleted and the log tells which it was: an
    INFO line "Removed subscriber" when the entry existed, a WARNING
    line "not found" when it did not. Removing an absent id leaves the
    registry as it was. *)
Theorem remove_subscriber_returns_nothing uid w :
  exists w',
    remove_subscriber uid w = (w', Ok None)
    /\ (next_fault w = None ->
        subscribers w' = delete uid (subscribers w)
        /\ log w' = log w ++ [removal_log uid (bool_decide (is_Some (subscribers w !! uid)))])
    /\ (subscribers w !! uid = None -> subscribers w' = subscribers w).
Proof.
  pose proof (remove_subscriber_spec uid w) as Hs. unfold wp in Hs.
  destruct (remove_subscriber uid w) as [w' r]. simpl in Hs.
  destruct Hs as (-> & _ & _ & _ & _ & Hcases). exists w'. split_and!; [done| |].
  - intros Hnf. destruct Hcases as [(m & Hm & _)|(_ & Hsub & _ & Hlog)]; [congruence|done].
  - intros Habs. destruct Hcases as [(m & _ & Hsub & _)|(_ & Hsub & _)]; [done|].
    rewrite Hsub. by apply delete_id.
Qed.

Section More.
Context `{Builtins}.

(** C7. The diff of a list against the snapshot built from the same
    list is empty (for any list, unique ids or not). *)
Theorem diff_idempotent (X : list Concert) : compute_new X (snapshot_from X) = [].
Proof.
  unfold compute_new. apply new_concerts_loop_known.
  intros k Hk. unfold snapshot_from.
  destruct (list_to_map (current_concerts X) !! k) as [v|] eqn:E; [by eexists|].
  apply not_elem_of_list_to_map in E. contradiction.
Qed.


(** Whatever [parse_show] built, the notifier renders the same text. *)
Lemma parsed_record_message (c : Concert) :
  format_single_concert_message (FromParser c) = unknown_message
  /\ title_shown (FromParser c) = false
  /\ status (FromParser c) = []
  /\ price_text (FromParser c) = u8"TBA"
  /\ get_concert_image_url (FromParser c) = None.
Proof. split_and!; vm_compute; reflexivity. Qed.

(** The renderer on a dict that has the upstream keys. *)
Lemma renderer_on_listing (r : RawShow) :
  let concert := FromApi r in
  (Str.truthy (dict_get (showPrice r) []) = false -> price_text concert = u8"TBA")
  /\ (Str.truthy (dict_get (showTime r) []) = false ->
      datetime_str concert = Str.or_else (dict_get (showDate r) []) (u8"TBA"))
  /\ (title_shown concert = true <->
      display_title concert <> artist_of concert
      /\ (3 < length (Str.strip (display_title concert)))%nat)
  /\ (notbybarbtsellsoldout r = Some (u8"1") -> status concert = sold_out_suffix).
Proof.
  simpl. split_and!.
  - unfold price_text. simpl. by intros ->.
  - unfold datetime_str. simpl. intros ->. by rewrite andb_false_r.
  - unfold title_shown. rewrite !andb_true_iff, negb_true_iff.
    unfold Str.eqb. rewrite bool_decide_eq_false. rewrite Nat.ltb_lt.
    split; [by intros [[_ ?] ?]|]. intros [Hne Hlen]. split_and!; try done.
    destruct (display_title (FromApi r)); [|done]. simpl in Hlen. lia.
  - unfold status, is_sold_out_of. simpl. by intros ->.
Qed.
End More.

Example md5_empty : Reference.md5_hex [] = u8"d41d8cd98f00b204e9800998ecf8427e".
Proof. vm_compute. reflexivity. Qed.
Example md5_abc : Reference.md5_hex (u8"abc") = u8"900150983cd24fb0d6963f7d28e17f72".
Proof. vm_compute. reflexivity. Qed.
Example md5_show : Reference.md5_hex (u8"5286_20/08/2025_20:30") = u8"8713431ffa1adbb692976b03587c8091".
Proof. vm_compute. reflexivity. Qed.
Example md5_long : Reference.md5_hex (repeat 97%N 70) = u8"0f5c6c4e740bfcc08c3c26ccb2673d46".
Proof. vm_compute. reflexivity. Qed.
Example md5_heb : Reference.md5_hex (u8"שלום") = u8"037f8f18b89a943fc03d827d465ab493".
Proof. vm_compute. reflexivity. Qed.
Example strp1 : map Reference.strptime_dmy [u8"20/08/2025"; u8"1/1/0001"; u8"29/02/2024"; u8"31/12/9999"; u8"29/02/2023"; u8"00/01/2020"; u8"1/13/2020"; u8"1/1/20"; u8"01/01/2020 "; u8" 1/1/2020"; u8"1/1/0000"; u8"32/1/2020"; u8"1/ 1/2020"]
  = [Some 739483; Some 1; Some 738945; Some 3652059; None; None; None; None; None; Some 737425; None; None; None].
Proof. vm_compute. reflexivity. Qed.

(** ** The listing: sorting and the upcoming window *)

Section Listing.
Context `{Builtins}.

Lemma get_concerts_sort_shows resp :
  get_concerts resp = sort_shows (parse_show <$> listed_shows resp).
Proof.
  unfold get_concerts, get_shows_raw, listed_shows, dict_empty.
  destruct resp as [| |[[[[s|l]|]|] ks]]; simpl; try done.
  by destruct ks.
Qed.

Lemma insert_sorted_perm x l : insert_sorted x l ≡ₚ x :: l.
Proof.
  induction l as [|y l IH]; simpl; [done|].
  destruct (sort_key x <=? sort_key y); [done|].
  rewrite IH. apply Permutation_swap.
Qed.

Lemma insert_sorted_sorted x l :
  StronglySorted (fun a b => sort_key a <= sort_key b) l ->
  StronglySorted (fun a b => sort_key a <= sort_key b) (insert_sorted x l).
Proof.
  induction l as [|y l IH]; intros Hs; simpl.
  - constructor; [constructor | constructor].
  - destruct (Z.leb_spec (sort_key x) (sort_key y)) as [Hle|Hlt].
    + constructor; [done|]. inversion Hs as [|? ? Hs' Hall]; subst.
      constructor; [done|]. eapply Forall_impl; [exact Hall|].
      intros z Hz. simpl in Hz. lia.
    + inversion Hs as [|? ? Hs' Hall]; subst. constructor; [by apply IH|].
      rewrite insert_sorted_perm. constructor; [lia | done].
Qed.

Lemma insert_sorted_stable k x l :
  filter (fun c => sort_key c = k) (insert_sorted x l)
  = filter (fun c => sort_key c = k) (x :: l).
Proof.
  induction l as [|y l IH]; simpl; [done|].
  destruct (Z.leb_spec (sort_key x) (sort_key y)) as [Hle|Hlt]; [done|].
  rewrite (filter_cons _ y), IH, !filter_cons.
  repeat case_decide; try done. lia.
Qed.

(** X1. The listing [get_concerts] returns is the stable sort, by date, of
    the parsed show objects of the response: it has the same records,
    in ascending order of [event_date], a record without one counting as
    [datetime.min], and records of the same date stay in the order of
    the response. *)
Theorem get_concerts_is_stable_sort resp :
  get_concerts resp ≡ₚ parse_show <$> listed_shows resp
  /\ StronglySorted (fun a b => sort_key a <= sort_key b) (get_concerts resp)
  /\ (forall k, filter (fun c => sort_key c = k) (get_concerts resp)
                = filter (fun c => sort_key c = k) (parse_show <$> listed_shows resp)).
Proof.
  rewrite get_concerts_sort_shows. unfold sort_shows.
  induction (parse_show <$> listed_shows resp) as [|x l (IHp & IHs & IHk)]; simpl.
  - split_and!; [done | constructor | done].
  - split_and!.
    + by rewrite insert_sorted_perm, IHp.
    + by apply insert_sorted_sorted.
    + intros k. by rewrite insert_sorted_stable, !filter_cons, IHk.
Qed.

Lemma upcoming_loop_filter today days_ahead l acc :
  upcoming_loop today days_ahead l acc
  = acc ++ filter (fun c => in_window today days_ahead c = true) l.
Proof.
  revert acc. induction l as [|c l IH]; intros acc; simpl.
  - by rewrite app_nil_r.
  - rewrite IH, filter_cons. unfold in_window. destruct (event_date c) as [d|].
    + destruct (Z.leb_spec 0 (d - today)), (Z.leb_spec (d - today) days_ahead),
        (Z.leb_spec today d), (Z.leb_spec d (today + days_ahead));
        simpl; try lia; by rewrite <- ?app_assoc.
    + done.
Qed.

Lemma get_upcoming_concerts_filter today days_ahead resp :
  get_upcoming_concerts today days_ahead resp
  = filter (fun c => in_window today days_ahead c = true) (get_concerts resp).
Proof.
  unfold get_upcoming_concerts. destruct (get_concerts resp) as [|c l] eqn:E; [done|].
  by rewrite upcoming_loop_filter.
Qed.

(** X2. [get_upcoming_concerts] keeps, in the order of the listing, exactly
    the concerts whose date is known and lies at most [days_ahead] days
    after today, today included; a concert without a parsed date is
    never among them, and with a negative [days_ahead] there is none. *)
Theorem upcoming_concerts_window today days_ahead resp :
  sublist (get_upcoming_concerts today days_ahead resp) (get_concerts resp)
  /\ (forall c, c ∈ get_upcoming_concerts today days_ahead resp
        <-> c ∈ get_concerts resp
            /\ exists d, event_date c = Some d
                         /\ today <= d /\ d <= today + days_ahead)
  /\ (days_ahead < 0 -> get_upcoming_concerts today days_ahead resp = []).
Proof.
  rewrite get_upcoming_concerts_filter. split_and!.
  - apply sublist_filter.
  - intros c. rewrite list_elem_of_filter. split.
    + intros [Hd Hin]. split; [done|]. unfold in_window in Hd.
      destruct (event_date c) as [d|]; [|done].
      exists d. split; [done | lia].
    + intros [Hin (d & Hd & Hlo & Hhi)]. split; [|done].
      unfold in_window. rewrite Hd. lia.
  - intros Hneg. induction (get_concerts resp) as [|c l IH]; [done|].
    rewrite filter_cons, IH. unfold in_window.
    destruct (event_date c); case_decide; try done. lia.
Qed.

(** X3. A longer horizon only adds concerts: the upcoming concerts of a
    horizon are a sublist of those of any longer one. *)
Theorem upcoming_concerts_monotone today days_ahead days_ahead' resp :
  days_ahead <= days_ahead' ->
  sublist (get_upcoming_concerts today days_ahead resp)
          (get_upcoming_concerts today days_ahead' resp).
Proof.
  intros Hle. rewrite !get_upcoming_concerts_filter.
  induction (get_concerts resp) as [|c l IH]; [done|].
  rewrite !filter_cons. unfold in_window. destruct (event_date c) as [d|].
  - repeat case_decide; try lia.
    + by apply sublist_skip.
    + by apply sublist_cons.
    + done.
  - done.
Qed.

End Listing.

(** ** The diff of a listing that repeats a show id *)

Section DiffRepeated.
Context {V : Type}.
Implicit Types (concerts : list Concert) (last_concerts : gmap pystr V).

Lemma dict_set_elem {A} (k : pystr) (v : A) (d : list (pystr * A)) k0 v0 :
  (k0, v0) ∈ dict_set k v d ->
  (k0 = k /\ v0 = v) \/ (k0 <> k /\ (k0, v0) ∈ d) \/ (k0 = k /\ k ∈ d.*1 /\ (k0, v0) ∈ d).
Proof.
  induction d as [|[k' v'] d IH]; simpl.
  - intros Hin. apply list_elem_of_singleton in Hin. injection Hin as -> ->. by left.
  - case_bool_decide as Hk.
    + subst k'. intros Hin. apply elem_of_cons in Hin as [Heq|Hin].
      * injection Heq as -> ->. by left.
      * destruct (decide (k0 = k)) as [->|Hne].
        -- right. right. split_and!; [done | left | by right].
        -- right. left. split; [done | by right].
    + intros Hin. apply elem_of_cons in Hin as [Heq|Hin].
      * injection Heq as -> ->. right. left. split; [done | left].
      * destruct (IH Hin) as [?|[[? ?]|(? & ? & ?)]]; [by left | |].
        -- right. left. split; [done | by right].
        -- right. right. split_and!; [done | by right | by right].
Qed.

Lemma dict_set_fst_old {A} (k : pystr) (v : A) (d : list (pystr * A)) :
  k ∈ d.*1 -> (dict_set k v d).*1 = d.*1.
Proof.
  induction d as [|[k' v'] d IH]; simpl; intros Hin.
  - by apply elem_of_nil in Hin.
  - case_bool_decide as Hk; simpl; [by subst|].
    apply elem_of_cons in Hin as [->|Hin]; [done|]. f_equal. by apply IH.
Qed.

Lemma dict_set_fst {A} (k : pystr) (v : A) (d : list (pystr * A)) :
  (dict_set k v d).*1 = if bool_decide (k ∈ d.*1) then d.*1 else d.*1 ++ [k].
Proof.
  case_bool_decide as Hk.
  - by apply dict_set_fst_old.
  - rewrite dict_set_fresh by done. by rewrite fmap_app.
Qed.

Lemma dict_set_replaces {A} (k : pystr) (v v0 : A) (d : list (pystr * A)) :
  NoDup d.*1 -> (k, v0) ∈ dict_set k v d -> v0 = v.
Proof.
  induction d as [|[k' v'] d IH]; simpl; intros Hnd Hin.
  - apply list_elem_of_singleton in Hin. by injection Hin as ->.
  - apply NoDup_cons in Hnd as [Hk' Hnd]. case_bool_decide as Hk.
    + subst k'. apply elem_of_cons in Hin as [Heq|Hin]; [by injection Heq as ->|].
      exfalso. apply Hk'. apply list_elem_of_fmap. by exists (k, v0).
    + apply elem_of_cons in Hin as [Heq|Hin]; [by injection Heq as -> _|].
      by apply IH.
Qed.

Lemma dict_of_snoc d l c :
  dict_of d l -> dict_of (dict_set (show_id c) c d) (l ++ [c]).
Proof.
  intros (Hnd & Hkeys & Hlast). split_and!.
  - rewrite dict_set_fst. case_bool_decide as Hk; [done|].
    apply NoDup_app. split_and!; [done | | apply NoDup_singleton].
    intros k Hk1 Hk2. apply list_elem_of_singleton in Hk2. by subst.
  - intros k. rewrite dict_set_fst, fmap_app, elem_of_app. simpl.
    rewrite list_elem_of_singleton, <- Hkeys.
    case_bool_decide as Hk.
    + split; [by left | intros [?| ->]; done].
    + by rewrite elem_of_app, list_elem_of_singleton.
  - intros k c0 Hin.
    destruct (decide (k = show_id c)) as [->|Hne].
    + apply dict_set_replaces in Hin as ->; [|done]. split; [done|].
      exists l, []. split; [done|]. simpl. apply not_elem_of_nil.
    + apply dict_set_elem in Hin as [[? ?]|[[_ Hin]|[? _]]]; try done.
      destruct (Hlast _ _ Hin) as (Hid & pre & post & -> & Hpost).
      split; [done|]. exists pre, (post ++ [c]). split.
      * by rewrite <- app_assoc.
      * rewrite fmap_app, elem_of_app. simpl. rewrite list_elem_of_singleton.
        intros [?|?]; [done | by subst].
Qed.

Lemma current_concerts_dict_of concerts : dict_of (current_concerts concerts) concerts.
Proof.
  unfold current_concerts.
  induction concerts as [|c concerts IH] using rev_ind.
  - split_and!; [constructor | done |]. intros k c Hin. by apply elem_of_nil in Hin.
  - rewrite foldl_app. simpl. by apply dict_of_snoc.
Qed.

(** X4. Whatever the listing, also one that repeats a show id, the diff
    holds at most one record per show id; the ids in it are those of the
    listing that are not keys of the previous mapping; and the record it
    holds for an id is the last one the listing has under that id. *)
Theorem diff_with_repeated_ids concerts last_concerts :
  NoDup (show_id <$> compute_new concerts last_concerts)
  /\ (forall k, k ∈ show_id <$> compute_new concerts last_concerts
        <-> k ∈ show_id <$> concerts /\ last_concerts !! k = None)
  /\ (forall c, c ∈ compute_new concerts last_concerts ->
        exists pre post, concerts = pre ++ c :: post
                         /\ show_id c ∉ show_id <$> post).
Proof.
  destruct (current_concerts_dict_of concerts) as (Hnd & Hkeys & Hlast).
  unfold compute_new. rewrite new_concerts_loop_filter. simpl.
  set (d := current_concerts concerts) in *.
  set (new := filter (fun kv => last_concerts !! kv.1 = None) d).
  assert (show_id <$> new.*2 = new.*1) as Hids.
  { assert (forall kv, kv ∈ new -> show_id kv.2 = kv.1) as Hall.
    { intros [k c] Hin. apply list_elem_of_filter in Hin as [_ Hin].
      by destruct (Hlast _ _ Hin). }
    clearbody new. induction new as [|[k c] new IH]; [done|].
    rewrite !fmap_cons. f_equal.
    - apply (Hall (k, c)). left.
    - apply IH. intros kv Hin. apply Hall. by right. }
  split_and!.
  - rewrite Hids. apply (sublist_NoDup new.*1 d.*1); [exact Hnd|].
    apply fmap_sublist, sublist_filter.
  - intros k. rewrite Hids, <- Hkeys. rewrite !list_elem_of_fmap. split.
    + intros ([k' c] & -> & Hin). apply list_elem_of_filter in Hin as [Hnone Hin].
      split; [by exists (k', c) | done].
    + intros [([k' c] & -> & Hin) Hnone]. exists (k', c). split; [done|].
      by apply list_elem_of_filter.
  - intros c Hin. apply list_elem_of_fmap in Hin as ([k c'] & -> & Hin).
    apply list_elem_of_filter in Hin as [_ Hin].
    destruct (Hlast _ _ Hin) as (<- & pre & post & -> & Hpost). simpl. eauto.
Qed.

End DiffRepeated.

(** ** The snapshot store: what a save leaves and what a load finds *)

Lemma prefixb_drop p s : Str.prefixb p s = true -> s = p ++ drop (length p) s.
Proof.
  revert s. induction p as [|a p IH]; intros s Hp; simpl; [done|].
  destruct s as [|b s]; [done|]. simpl in Hp.
  apply andb_true_iff in Hp as [Hab Hp]. apply N.eqb_eq in Hab as ->.
  simpl. f_equal. by apply IH.
Qed.

Lemma concert_keys_elem (s : gmap pystr json_doc) k :
  k ∈ concert_keys s <-> Str.prefixb concert_prefix k = true /\ is_Some (s !! k).
Proof.
  unfold concert_keys. rewrite list_elem_of_filter, list_elem_of_fmap. split.
  - intros [Hp ([k' d] & -> & Hin)]. split; [done|].
    apply elem_of_map_to_list in Hin. by exists d.
  - intros [Hp [d Hd]]. split; [done|]. exists (k, d). split; [done|].
    by apply elem_of_map_to_list.
Qed.

Lemma concert_key_drop concert_id :
  drop (length concert_prefix) (get_concert_key concert_id) = concert_id.
Proof. unfold get_concert_key. by rewrite drop_app_length. Qed.

Lemma concert_key_inj id1 id2 :
  get_concert_key id1 = get_concert_key id2 -> id1 = id2.
Proof. unfold get_concert_key. apply app_inv_head. Qed.

Lemma delete_old_keys (s : gmap pystr json_doc) k :
  foldl apply_cmd s
    (match concert_keys s with [] => [] | _ => [Delete (concert_keys s)] end) !! k
  = if Str.prefixb concert_prefix k then None else s !! k.
Proof.
  assert (foldl apply_cmd s
            (match concert_keys s with [] => [] | _ => [Delete (concert_keys s)] end)
          = foldr delete s (concert_keys s)) as ->.
  { by destruct (concert_keys s). }
  destruct (Str.prefixb concert_prefix k) eqn:Hp.
  - destruct (s !! k) as [d|] eqn:Hk.
    + apply lookup_foldr_delete. apply concert_keys_elem. split; [done | by exists d].
    + destruct (decide (k ∈ concert_keys s)).
      * by apply lookup_foldr_delete.
      * by rewrite lookup_foldr_delete_not_elem_of.
  - apply lookup_foldr_delete_not_elem_of. rewrite concert_keys_elem.
    intros [Hp' _]. congruence.
Qed.

Lemma set_concert_keys (concerts : list (pystr * Concert)) (s : gmap pystr json_doc) k :
  NoDup concerts.*1 ->
  foldl apply_cmd s
    (map (fun kv => Setex (get_concert_key kv.1) 604800 (JConcert (concert_copy kv.2)))
         concerts) !! k
  = if Str.prefixb concert_prefix k
    then match (list_to_map concerts : gmap pystr Concert)
                 !! drop (length concert_prefix) k with
         | Some c => Some (JConcert (concert_copy c))
         | None => s !! k
         end
    else s !! k.
Proof.
  revert s. induction concerts as [|[id c] concerts IH]; intros s Hnd.
  - cbn [map foldl list_to_map foldr]. rewrite lookup_empty.
    by destruct (Str.prefixb concert_prefix k).
  - rewrite fmap_cons in Hnd. apply NoDup_cons in Hnd as [Hid Hnd].
    cbn [map foldl list_to_map foldr apply_cmd fst snd uncurry].
    rewrite IH by done. destruct (Str.prefixb concert_prefix k) eqn:Hp.
    + destruct (decide (drop (length concert_prefix) k = id)) as [Hk|Hk].
      * assert (k = get_concert_key id) as ->.
        { rewrite (prefixb_drop _ _ Hp), Hk. done. }
        rewrite concert_key_drop, !lookup_insert_eq.
        by rewrite (not_elem_of_list_to_map_1 concerts id Hid).
      * rewrite (lookup_insert_ne _ id) by done.
        rewrite lookup_insert_ne; [done|].
        intros <-. by rewrite concert_key_drop in Hk.
    + rewrite lookup_insert_ne; [done|].
      intros <-. unfold get_concert_key in Hp. by rewrite prefixb_app in Hp.
Qed.

Lemma saved_lookup s timestamp (concerts : list (pystr * Concert)) k :
  NoDup concerts.*1 ->
  saved s timestamp concerts !! k = after_save s timestamp concerts k.
Proof.
  intros Hnd. unfold saved, save_pipeline, after_save.
  rewrite !foldl_app. cbn [foldl apply_cmd]. rewrite lookup_insert.
  case_decide as Hm; case_bool_decide as Hm'; try congruence; [done|].
  rewrite set_concert_keys, delete_old_keys by done.
  destruct (Str.prefixb concert_prefix k); [|done].
  by destruct (list_to_map concerts !! drop (length concert_prefix) k).
Qed.

(** X5. After a save that went through, the key of each show of the saved
    dict holds the record of that show without its [raw_data], no other
    key with the concert prefix is left, the metadata key holds the time
    and the size of the save, and every other key holds what it held. *)
Theorem save_state_replaces_snapshot (concerts : list (pystr * Concert)) w w' r :
  NoDup concerts.*1 ->
  save_state concerts w = (w', r) ->
  trace w' = trace w ++ [ERedis (Keys concert_prefix) true; ERedis Exec true] ->
  forall k, strings w' !! k = after_save (strings w) (clock (env w)) concerts k.
Proof.
  intros Hnd Hrun Htr k.
  pose proof (wp_run _ _ _ _ _ (save_state_spec concerts w) Hrun)
    as (_ & _ & _ & _ & t & Ht & Hout).
  rewrite Ht in Htr. apply app_inv_head in Htr. subst t.
  destruct Hout as [[Hc _]|[[Hc _]|[_ ->]]]; try discriminate.
  by apply saved_lookup.
Qed.

Lemma save_state_healthy concerts w :
  faults w = [] ->
  wp (save_state concerts)
     (fun r w' =>
        r = Ok tt /\ faults w' = [] /\ env w' = env w
        /\ subscribers w' = subscribers w /\ replies w' = replies w
        /\ strings w' = saved (strings w) (clock (env w)) concerts
        /\ trace w' = trace w
             ++ [ERedis (Keys concert_prefix) true; ERedis Exec true]) w.
Proof.
  intros Hf. unfold save_state, save_body.
  apply wp_try, wp_bind, wp_get_world, wp_bind, wp_redis.
  { intros msg Hmsg. by rewrite next_fault_nil in Hmsg. }
  intros _. simpl. apply wp_bind, wp_redis.
  { intros msg Hmsg. rewrite next_fault_nil in Hmsg; [done|]. simpl. by rewrite Hf. }
  intros _. simpl. apply wp_logger. simpl. rewrite Hf. simpl.
  split_and!; try done. by rewrite <- app_assoc.
Qed.

Lemma load_last_state_exact w :
  faults w = [] ->
  wp load_last_state
     (fun r w' =>
        r = Ok (loaded (strings w) (concert_keys (strings w)) ∅,
                stored_last_check (strings w))
        /\ faults w' = [] /\ reads w w') w.
Proof.
  intros Hf. unfold load_last_state, load_body. apply wp_try, wp_bind, wp_redis.
  { intros msg Hmsg. by rewrite next_fault_nil in Hmsg. }
  intros _. simpl. fold (concert_keys (strings w)).
  set (w1 := add_event _ _).
  assert (reads w w1) as Hr1 by by apply reads_cmd.
  assert (faults w1 = []) as Hf1 by by apply pop_fault_nil.
  apply wp_bind. eapply wp_mono; [by apply load_concerts_healthy|].
  intros r w2 (-> & Hf2 & Hr2). change (strings w1) with (strings w).
  assert (reads w w2) as Hw2 by by eapply reads_trans.
  assert (strings w2 = strings w) as Hs2.
  { destruct Hw2 as (t & (_ & Hs & _) & _). exact Hs. }
  apply wp_bind, wp_redis.
  { intros msg Hmsg. by rewrite next_fault_nil in Hmsg. }
  intros _. simpl.
  assert (reads w (add_event (ERedis (Get get_metadata_key) true) (pop_fault w2))) as Hw3.
  { eapply reads_trans; [exact Hw2|]. by apply reads_cmd. }
  assert (faults (pop_fault w2) = []) as Hf3 by by apply pop_fault_nil.
  apply wp_bind, wp_logger, wp_bind. unfold stored_last_check. rewrite <- Hs2.
  destruct (strings w2 !! get_metadata_key) as [[c|m]|];
    repeat first [apply wp_logger | apply wp_ret | apply wp_bind];
    (split; [done|]); (split; [done|]); repeat apply reads_log; exact Hw3.
Qed.

Lemma loaded_hit s ks acc i d :
  (forall k, k ∈ ks -> Str.last_segment 58 k = i -> s !! k = None \/ s !! k = Some d) ->
  acc !! i = Some d
  \/ (exists k, k ∈ ks /\ Str.last_segment 58 k = i /\ s !! k = Some d) ->
  loaded s ks acc !! i = Some d.
Proof.
  revert acc. induction ks as [|k0 ks IH]; intros acc Hall Hsrc; simpl.
  - destruct Hsrc as [?|(k & Hk & _)]; [done|]. by apply elem_of_nil in Hk.
  - apply IH.
    + intros k Hk. apply Hall. by right.
    + destruct Hsrc as [Hacc|(k & Hk & Hseg & Hd)].
      * left. destruct (s !! k0) as [d0|] eqn:E0; [|done].
        destruct (decide (Str.last_segment 58 k0 = i)) as [Hi|Hi].
        -- destruct (Hall k0) as [Hn|Hs]; [left | done | congruence |].
           rewrite E0 in Hs. injection Hs as ->. subst i. apply lookup_insert_eq.
        -- by rewrite lookup_insert_ne.
      * apply elem_of_cons in Hk as [->|Hk].
        -- left. rewrite Hd. subst i. apply lookup_insert_eq.
        -- right. by exists k.
Qed.

Lemma loaded_miss s ks acc i :
  acc !! i = None ->
  (forall k, k ∈ ks -> Str.last_segment 58 k = i -> s !! k = None) ->
  loaded s ks acc !! i = None.
Proof.
  revert acc. induction ks as [|k0 ks IH]; intros acc Hacc Hall; simpl; [done|].
  apply IH.
  - destruct (s !! k0) as [d0|] eqn:E0; [|done].
    destruct (decide (Str.last_segment 58 k0 = i)) as [Hi|Hi].
    + rewrite (Hall k0) in E0; [done | left | done].
    + by rewrite lookup_insert_ne.
  - intros k Hk. apply Hall. by right.
Qed.

Lemma loaded_after_save s timestamp (concerts : list (pystr * Concert)) :
  NoDup concerts.*1 ->
  (forall id, id ∈ concerts.*1 -> 58%N ∉ id) ->
  loaded (saved s timestamp concerts) (concert_keys (saved s timestamp concerts)) ∅
  = JConcert ∘ concert_copy <$> (list_to_map concerts : gmap pystr Concert).
Proof.
  intros Hnd Hcolon. set (s' := saved s timestamp concerts).
  assert (forall k, k ∈ concert_keys s' ->
            exists id c, k = get_concert_key id /\ (id, c) ∈ concerts
                         /\ s' !! k = Some (JConcert (concert_copy c))) as Hkeys.
  { intros k Hk. apply concert_keys_elem in Hk as [Hp [d Hd]].
    unfold s' in Hd. rewrite saved_lookup in Hd by done. unfold after_save in Hd.
    case_bool_decide as Hm; [by subst k|]. rewrite Hp in Hd.
    destruct (list_to_map concerts !! drop (length concert_prefix) k) as [c|] eqn:Ec;
      [|done].
    exists (drop (length concert_prefix) k), c. split_and!.
    - by apply prefixb_drop.
    - by apply elem_of_list_to_map_2.
    - unfold s'. rewrite saved_lookup by done. unfold after_save.
      rewrite bool_decide_eq_false_2 by done. by rewrite Hp, Ec. }
  assert (forall k id, k ∈ concert_keys s' -> Str.last_segment 58 k = id ->
            k = get_concert_key id /\ id ∈ concerts.*1) as Hseg.
  { intros k id Hk Hid. destruct (Hkeys k Hk) as (id' & c & -> & Hin & _).
    assert (id' ∈ concerts.*1) as Hid'.
    { apply list_elem_of_fmap. by exists (id', c). }
    rewrite last_segment_concert_key in Hid by by apply Hcolon. by subst. }
  apply map_eq. intros id. rewrite lookup_fmap.
  destruct (list_to_map concerts !! id) as [c|] eqn:Ec; simpl.
  - assert (s' !! get_concert_key id = Some (JConcert (concert_copy c))) as Hs.
    { unfold s'. rewrite saved_lookup by done. unfold after_save.
      rewrite bool_decide_eq_false_2.
      - unfold get_concert_key at 1. rewrite prefixb_app, concert_key_drop, Ec. done.
      - intros Heq. assert (Str.prefixb concert_prefix get_metadata_key = true) as Hp.
        { rewrite <- Heq. apply prefixb_app. }
        vm_compute in Hp. discriminate. }
    apply loaded_hit.
    + intros k Hk Hid. right. destruct (Hseg k id Hk Hid) as [-> _]. done.
    + right. exists (get_concert_key id). split_and!; [|  |done].
      * apply concert_keys_elem. split; [apply prefixb_app | by eexists].
      * apply last_segment_concert_key, Hcolon.
        apply list_elem_of_fmap. exists (id, c). split; [done|].
        by apply elem_of_list_to_map_2.
  - apply loaded_miss; [done|].
    intros k Hk Hid. destruct (Hseg k id Hk Hid) as [_ Hin].
    apply not_elem_of_list_to_map_2 in Ec. done.
Qed.

Section RoundTrip.
Context `{Builtins}.

(** X6. A load that follows a save finds what was saved: when Redis answers
    every command and no listed show id has a colon in it, the dict the
    load returns has exactly the show ids of the saved listing as keys,
    under each the record of that show without its [raw_data], and the
    time it returns is the time of the save. *)
Theorem save_then_load_round_trip (X : list Concert) w :
  faults w = [] ->
  (forall c, c ∈ X -> 58%N ∉ show_id c) ->
  exists w1 w2,
    save_state (current_concerts X) w = (w1, Ok tt)
    /\ load_last_state w1
       = (w2, Ok (JConcert ∘ concert_copy <$> snapshot_from X,
                  Some (clock (env w))))
    /\ strings w2 = strings w1.
Proof.
  intros Hf Hcolon.
  destruct (save_state (current_concerts X) w) as [w1 r1] eqn:E1.
  pose proof (wp_run _ _ _ _ _ (save_state_healthy (current_concerts X) w Hf) E1)
    as (-> & Hf1 & Henv & _ & _ & Hs1 & _).
  destruct (load_last_state w1) as [w2 r2] eqn:E2.
  pose proof (wp_run _ _ _ _ _ (load_last_state_exact w1 Hf1) E2)
    as (-> & _ & (t & (_ & Hs2 & _) & _)).
  exists w1, w2. split_and!; [done | rewrite E2 | done].
  destruct (current_concerts_dict_of X) as (Hnd & Hkeys & _).
  assert (loaded (strings w1) (concert_keys (strings w1)) ∅
          = JConcert ∘ concert_copy <$> snapshot_from X) as ->.
  { rewrite Hs1. apply loaded_after_save; [done|].
    intros id Hid. apply Hkeys in Hid.
    apply list_elem_of_fmap in Hid as (c & -> & Hc). by apply Hcolon. }
  assert (stored_last_check (strings w1) = Some (clock (env w))) as ->; [|done].
  unfold stored_last_check. rewrite Hs1, saved_lookup by done.
  unfold after_save. by rewrite bool_decide_eq_true_2.
Qed.

End RoundTrip.

Lemma load_concerts_outcome ks acc w :
  wp (load_concerts ks acc)
     (fun r w' =>
        strings w' = strings w
        /\ exists t, trace w' = trace w ++ t
           /\ match r with
              | Ok m => Forall (fun e => answered e = true) t
                        /\ m = loaded (strings w) ks acc
              | Raise _ => exists t0 cmd, t = t0 ++ [ERedis cmd false]
              end) w.
Proof.
  revert acc w. induction ks as [|key ks IH]; intros acc w; simpl.
  - apply wp_ret. split; [done|]. exists []. by rewrite app_nil_r.
  - apply wp_bind, wp_redis.
    + intros msg _. split; [done|]. exists [ERedis (Get key) false].
      split; [done|]. by exists [], (Get key).
    + intros _. simpl.
      set (w1 := add_event (ERedis (Get key) true) (pop_fault w)).
      assert (forall acc',
        wp (load_concerts ks acc')
           (fun r w' =>
              strings w' = strings w
              /\ exists t, trace w' = trace w ++ t
                 /\ match r with
                    | Ok m => Forall (fun e => answered e = true) t
                              /\ m = loaded (strings w) ks acc'
                    | Raise _ => exists t0 cmd, t = t0 ++ [ERedis cmd false]
                    end) w1) as Hrest.
      { intros acc'. eapply wp_mono; [apply IH|].
        intros r w' (Hs & t & Ht & Hr). split; [done|].
        exists (ERedis (Get key) true :: t). split.
        - rewrite Ht. simpl. by rewrite <- app_assoc.
        - destruct r as [m|e].
          + destruct Hr as [Hall ->]. split; [by constructor | done].
          + destruct Hr as (t0 & cmd & ->). by exists (ERedis (Get key) true :: t0), cmd. }
      destruct (strings w !! key); apply Hrest.
Qed.

Lemma load_last_state_outcome w :
  wp load_last_state
     (fun r w' =>
        exists t, trace w' = trace w ++ t
        /\ ((Forall (fun e => answered e = true) t
             /\ r = Ok (loaded (strings w) (concert_keys (strings w)) ∅,
                        stored_last_check (strings w)))
            \/ ((exists t0 cmd, t = t0 ++ [ERedis cmd false])
                /\ r = Ok (∅, None)))) w.
Proof.
  unfold load_last_state, load_body. apply wp_try, wp_bind, wp_redis.
  { intros msg _. apply wp_bind, wp_logger, wp_ret.
    exists [ERedis (Keys concert_prefix) false]. split; [done|]. right.
    split; [|done]. by exists [], (Keys concert_prefix). }
  intros _. simpl. fold (concert_keys (strings w)).
  set (w1 := add_event _ _).
  apply wp_bind. eapply wp_mono; [apply load_concerts_outcome|].
  intros r w2 (Hs2 & t & Ht & Hr). change (strings w1) with (strings w) in *.
  destruct r as [m|e].
  2:{ destruct Hr as (t0 & cmd & ->). apply wp_bind, wp_logger, wp_ret.
      exists (ERedis (Keys concert_prefix) true :: t0 ++ [ERedis cmd false]). split.
      - simpl. rewrite Ht. simpl. by rewrite <- app_assoc.
      - right. split; [|done].
        by exists (ERedis (Keys concert_prefix) true :: t0), cmd. }
  destruct Hr as [Hall ->]. apply wp_bind, wp_redis.
  { intros msg _. apply wp_bind, wp_logger, wp_ret.
    exists (ERedis (Keys concert_prefix) true :: t ++ [ERedis (Get get_metadata_key) false]).
    split.
    - simpl. rewrite Ht. simpl. by rewrite <- !app_assoc.
    - right. split; [|done].
      by exists (ERedis (Keys concert_prefix) true :: t), (Get get_metadata_key). }
  intros _. simpl. apply wp_bind, wp_logger, wp_bind.
  unfold stored_last_check. rewrite <- Hs2.
  destruct (strings w2 !! get_metadata_key) as [[c|md]|];
    repeat first [apply wp_logger | apply wp_ret | apply wp_bind];
    (exists (ERedis (Keys concert_prefix) true :: t ++ [ERedis (Get get_metadata_key) true]));
    (split; [simpl; rewrite Ht; simpl; by rewrite <- !app_assoc|]);
    left; (split; [|done]);
    (constructor; [done|]); (apply Forall_app; split; [done | by constructor]).
Qed.

(** X7. A load returns the whole snapshot or nothing: either Redis answered
    every command of the load, and the result is the dict of all stored
    concerts with the stored time of the last check; or the last command
    it sent failed, and the result is the empty dict with no time,
    whatever had been read before the failure. The load never raises. *)
Theorem load_all_or_nothing w w' r t :
  load_last_state w = (w', r) -> trace w' = trace w ++ t ->
  (Forall (fun e => answered e = true) t
   /\ r = Ok (loaded (strings w) (concert_keys (strings w)) ∅,
              stored_last_check (strings w)))
  \/ ((exists t0 cmd, t = t0 ++ [ERedis cmd false]) /\ r = Ok (∅, None)).
Proof.
  intros Hrun Htr.
  pose proof (wp_run _ _ _ _ _ (load_last_state_outcome w) Hrun) as (t' & Ht' & Hcases).
  rewrite Ht' in Htr. apply app_inv_head in Htr. by subst t'.
Qed.

(** ** What an operation leaves as it was *)

Section Preserves.
Context (R : world -> world -> Prop) `{!Stable R}.

Lemma preserves_ret {A} (a : A) : preserves R (ret a).
Proof. intros w. apply stable_refl. Qed.

Lemma preserves_raise {A} e : preserves R (@raise A e).
Proof. intros w. apply stable_refl. Qed.

Lemma preserves_get_world : preserves R get_world.
Proof. intros w. apply stable_refl. Qed.

Lemma preserves_sleep : preserves R sleep.
Proof. intros w. apply stable_refl. Qed.

Lemma preserves_getenv_redis_port : preserves R getenv_redis_port.
Proof. intros w. apply stable_refl. Qed.

Lemma preserves_logger l text : preserves R (logger l text).
Proof. intros w. apply stable_log. Qed.

Lemma preserves_bind {A B} (m : M A) (k : A -> M B) :
  preserves R m -> (forall a, preserves R (k a)) -> preserves R (bind m k).
Proof.
  intros Hm Hk w. unfold bind. specialize (Hm w).
  destruct (m w) as [w' [a|e]]; [|done].
  eapply stable_trans; [exact Hm | apply Hk].
Qed.

Lemma preserves_try {A} (body : M A) handler :
  preserves R body -> (forall e, preserves R (handler e)) ->
  preserves R (try_except body handler).
Proof.
  intros Hm Hk w. unfold try_except. specialize (Hm w).
  destruct (body w) as [w' [a|e]]; [done|].
  eapply stable_trans; [exact Hm | apply Hk].
Qed.

Lemma preserves_try_pass (body : M unit) :
  preserves R body -> preserves R (try_pass body).
Proof. intros Hm w. unfold try_pass. specialize (Hm w). by destruct (body w). Qed.

Lemma preserves_for_each {A} (l : list A) (body : A -> M unit) :
  (forall x, preserves R (body x)) -> preserves R (for_each l body).
Proof.
  intros Hbody. induction l as [|x l IH]; simpl.
  - apply preserves_ret.
  - by apply preserves_bind.
Qed.

Lemma preserves_bot_call c : preserves R (bot_call c).
Proof.
  intros w. unfold bot_call.
  destruct (head (replies w)) as [[e|]|]; simpl;
    (eapply stable_trans; [apply stable_replies | apply stable_event]).
Qed.

Lemma preserves_redis {A} cmd (run : world -> world * A) :
  (forall w, R w (run w).1) -> preserves R (redis_command cmd run).
Proof.
  intros Hrun w. unfold redis_command.
  destruct (head (faults w)) as [[e|]|]; simpl.
  - eapply stable_trans; [apply stable_faults | apply stable_event].
  - specialize (Hrun (set_faults (tail (faults w)) w)).
    destruct (run _) as [w1 a]. simpl in *.
    eapply stable_trans; [apply stable_faults|].
    eapply stable_trans; [exact Hrun | apply stable_event].
  - specialize (Hrun (set_faults (tail (faults w)) w)).
    destruct (run _) as [w1 a]. simpl in *.
    eapply stable_trans; [apply stable_faults|].
    eapply stable_trans; [exact Hrun | apply stable_event].
Qed.

Lemma preserves_read {A} cmd (answer : world -> A) :
  preserves R (redis_command cmd (fun w => (w, answer w))).
Proof. apply preserves_redis. intros w. apply stable_refl. Qed.

Lemma preserves_ping : preserves R ping.
Proof. apply preserves_read. Qed.

Lemma preserves_keys prefix : preserves R (keys prefix).
Proof. apply preserves_read. Qed.

Lemma preserves_get key : preserves R (get key).
Proof. apply preserves_read. Qed.

Lemma preserves_hgetall : preserves R hgetall.
Proof. apply preserves_read. Qed.

Lemma preserves_hexists field : preserves R (hexists field).
Proof. apply preserves_read. Qed.

Lemma preserves_hlen : preserves R hlen.
Proof. apply preserves_read. Qed.

Lemma preserves_cache_init : preserves R RedisConcertCache.init.
Proof.
  intros w. unfold RedisConcertCache.init.
  pose proof (preserves_ping w) as Hp. destruct (ping w) as [w' [[]|e]]; simpl in *.
  - eapply stable_trans; [exact Hp | apply stable_log].
  - eapply stable_trans; [exact Hp | apply stable_log].
Qed.

Lemma preserves_notifier_init : preserves R BarbyConcertNotifier.init.
Proof.
  intros w. unfold BarbyConcertNotifier.init.
  destruct (telegram_token (env w)) as [[|c t]|]; apply stable_refl.
Qed.

Lemma preserves_load_concerts ks acc : preserves R (load_concerts ks acc).
Proof.
  revert acc. induction ks as [|key ks IH]; intros acc; simpl.
  - apply preserves_ret.
  - apply preserves_bind; [apply preserves_get|]. by intros [d|].
Qed.

Lemma preserves_load_last_state : preserves R load_last_state.
Proof.
  unfold load_last_state, load_body.
  apply preserves_try.
  - apply preserves_bind; [apply preserves_keys | intros ks].
    apply preserves_bind; [apply preserves_load_concerts | intros concerts].
    apply preserves_bind; [apply preserves_get | intros md].
    apply preserves_bind; [apply preserves_logger | intros _].
    apply preserves_bind; [|intros _; apply preserves_ret].
    destruct md as [[c|m]|]; first [apply preserves_logger | apply preserves_ret].
  - intros e. apply preserves_bind; [apply preserves_logger | intros _; apply preserves_ret].
Qed.

Lemma preserves_get_subscriber_count : preserves R get_subscriber_count.
Proof.
  unfold get_subscriber_count. apply preserves_try; [apply preserves_hlen|].
  intros e. apply preserves_bind; [apply preserves_logger | intros _; apply preserves_ret].
Qed.

Lemma preserves_get_all_subscribers : preserves R get_all_subscribers.
Proof.
  unfold get_all_subscribers. apply preserves_try.
  - apply preserves_bind; [apply preserves_hgetall | intros l; apply preserves_ret].
  - intros e. apply preserves_bind; [apply preserves_logger | intros _; apply preserves_ret].
Qed.

Lemma preserves_subscriber_exists uid : preserves R (subscriber_exists uid).
Proof. apply preserves_hexists. Qed.

Lemma preserves_health_check : preserves R health_check.
Proof.
  unfold health_check. apply preserves_try.
  - apply preserves_bind; [apply preserves_ping | intros _; apply preserves_ret].
  - intros e. apply preserves_ret.
Qed.

(** The operations that write, given that the write is one [R] allows. *)

Lemma preserves_save_state concerts :
  (forall w s, R w (set_strings s w)) -> preserves R (save_state concerts).
Proof.
  intros Hw. unfold save_state, save_body. apply preserves_try.
  - apply preserves_bind; [apply preserves_get_world | intros w0].
    apply preserves_bind; [apply preserves_keys | intros ks].
    apply preserves_bind; [|intros _; apply preserves_logger].
    apply preserves_redis. intros w. apply Hw.
  - intros e. apply preserves_logger.
Qed.

Lemma preserves_remove_subscriber uid :
  (forall w, R w (set_subscribers (delete uid (subscribers w)) w)) ->
  preserves R (remove_subscriber uid).
Proof.
  intros Hw. unfold remove_subscriber. apply preserves_try.
  - apply preserves_bind; [by apply preserves_redis | intros result].
    apply preserves_bind; [|intros _; apply preserves_ret].
    destruct (negb (result =? 0)); apply preserves_logger.
  - intros e. apply preserves_bind; [apply preserves_logger | intros _; apply preserves_ret].
Qed.

Lemma preserves_add_subscriber uid un fn :
  (forall w ts, R w (set_subscribers (<[uid := new_entry uid un fn ts]> (subscribers w)) w)) ->
  preserves R (add_subscriber uid un fn).
Proof.
  intros Hw. unfold add_subscriber. apply preserves_try.
  - apply preserves_bind; [apply preserves_get_world | intros w0].
    apply preserves_bind; [|intros _; apply preserves_logger].
    apply preserves_redis. intros w. apply Hw.
  - intros e. apply preserves_logger.
Qed.

Section NotifierPreserves.
Context `{Builtins}.
Hypothesis Hdel : forall uid w, R w (set_subscribers (delete uid (subscribers w)) w).

Lemma preserves_deliver message image_url s :
  preserves R (deliver message image_url s).
Proof.
  unfold deliver. apply preserves_try.
  - apply preserves_bind; [|intros _; apply preserves_sleep].
    destruct image_url;
      (apply preserves_bind; [apply preserves_bot_call | intros _; apply preserves_logger]).
  - intros e. apply preserves_bind; [apply preserves_logger | intros _].
    apply preserves_bind.
    + destruct (photo_error e && bool_decide (is_Some image_url)); [|apply preserves_ret].
      apply preserves_try_pass.
      apply preserves_bind; [apply preserves_bot_call | intros _; apply preserves_logger].
    + intros _. destruct (invalid_subscriber_error e); [|apply preserves_ret].
      apply preserves_bind; [by apply preserves_remove_subscriber|].
      intros _. apply preserves_logger.
Qed.

Lemma preserves_send_concert_notification concert :
  preserves R (send_concert_notification concert).
Proof.
  unfold send_concert_notification.
  apply preserves_bind; [apply preserves_get_all_subscribers | intros subs].
  apply preserves_for_each. intros s. apply preserves_deliver.
Qed.

Lemma preserves_notify_new_concerts items :
  preserves R (BarbyConcertNotifier.notify_new_concerts items).
Proof.
  unfold BarbyConcertNotifier.notify_new_concerts. destruct items as [|c items];
    [apply preserves_ret|].
  apply preserves_bind; [apply preserves_get_subscriber_count | intros n].
  destruct (n =? 0); [apply preserves_logger|].
  apply preserves_bind; [apply preserves_logger | intros _].
  apply preserves_for_each. intros concert.
  apply preserves_bind; [apply preserves_send_concert_notification|].
  intros _. apply preserves_sleep.
Qed.

Lemma preserves_lambda_handler :
  (forall w s, R w (set_strings s w)) -> preserves R lambda_handler.
Proof.
  intros Hw. unfold lambda_handler. apply preserves_try.
  2:{ intros e. apply preserves_bind; [apply preserves_logger | intros _; apply preserves_ret]. }
  apply preserves_bind; [apply preserves_logger | intros _].
  apply preserves_bind; [apply preserves_getenv_redis_port | intros port].
  apply preserves_bind; [apply preserves_cache_init | intros _].
  apply preserves_bind; [apply preserves_notifier_init | intros _].
  apply preserves_bind; [apply preserves_logger | intros _].
  apply preserves_bind; [apply preserves_get_world | intros w0].
  destruct (get_concerts (upstream (env w0))) as [|c0 cs]; [apply preserves_ret|].
  apply preserves_bind; [apply preserves_logger | intros _].
  apply preserves_bind; [apply preserves_load_last_state | intros loaded].
  apply preserves_bind; [|intros _; apply preserves_ret].
  destruct (new_concerts_loop _ _ _) as [|n ns]; [apply preserves_logger|].
  apply preserves_bind; [apply preserves_logger | intros _].
  apply preserves_bind; [by apply preserves_save_state | intros _].
  apply preserves_notify_new_concerts.
Qed.

Lemma preserves_notify_one application message s :
  preserves R (BarbyTelegramBot.notify_one application message s).
Proof.
  unfold BarbyTelegramBot.notify_one. apply preserves_try.
  - apply preserves_bind.
    + unfold BarbyTelegramBot.send_message. destruct application;
        [apply preserves_bot_call | apply preserves_raise].
    + intros _. apply preserves_bind; [apply preserves_logger | intros _; apply preserves_sleep].
  - intros e. apply preserves_bind; [apply preserves_logger | intros _].
    destruct (invalid_subscriber_error e); [|apply preserves_ret].
    apply preserves_bind; [by apply preserves_remove_subscriber|].
    intros _. apply preserves_logger.
Qed.

Lemma preserves_notify_subscribers application message :
  preserves R (BarbyTelegramBot.notify_subscribers application message).
Proof.
  unfold BarbyTelegramBot.notify_subscribers.
  apply preserves_bind; [apply preserves_get_subscriber_count | intros n].
  destruct (n =? 0); [apply preserves_logger|].
  apply preserves_bind; [apply preserves_logger | intros _].
  apply preserves_bind; [apply preserves_get_all_subscribers | intros subs].
  apply preserves_for_each. intros s. apply preserves_notify_one.
Qed.

Lemma preserves_bot_notify_new_concerts application items :
  preserves R (BarbyTelegramBot.notify_new_concerts application items).
Proof.
  unfold BarbyTelegramBot.notify_new_concerts. destruct items as [|c items];
    [apply preserves_ret|].
  apply preserves_bind; [apply preserves_get_subscriber_count | intros n].
  destruct (n =? 0); [apply preserves_logger|].
  apply preserves_bind; [apply preserves_logger | intros _].
  apply preserves_notify_subscribers.
Qed.

End NotifierPreserves.

Section CommandPreserves.
Context `{Builtins}.
Variable update : Update.t.
Hypothesis Hdel : forall w,
  R w (set_subscribers (delete (sender update) (subscribers w)) w).
Hypothesis Hins : forall w un fn ts,
  R w (set_subscribers
         (<[sender update := new_entry (sender update) un fn ts]> (subscribers w)) w).

Lemma preserves_reply_text text : preserves R (BarbyTelegramBot.reply_text update text).
Proof. apply preserves_bot_call. Qed.

Lemma preserves_start_command : preserves R (BarbyTelegramBot.start_command update).
Proof.
  unfold BarbyTelegramBot.start_command.
  apply preserves_bind; [apply preserves_reply_text | intros _; apply preserves_logger].
Qed.

Lemma preserves_subscribe_command : preserves R (BarbyTelegramBot.subscribe_command update).
Proof.
  unfold BarbyTelegramBot.subscribe_command.
  apply preserves_bind; [apply preserves_subscriber_exists | intros already].
  apply preserves_bind; [|intros message; apply preserves_reply_text].
  destruct already; [apply preserves_ret|].
  apply preserves_bind; [apply preserves_add_subscriber; intros; apply Hins | intros _].
  apply preserves_bind; [apply preserves_get_subscriber_count | intros n].
  apply preserves_bind; [apply preserves_logger | intros _; apply preserves_ret].
Qed.

Lemma preserves_unsubscribe_command :
  preserves R (BarbyTelegramBot.unsubscribe_command update).
Proof.
  unfold BarbyTelegramBot.unsubscribe_command.
  apply preserves_bind; [apply preserves_subscriber_exists | intros already].
  apply preserves_bind; [|intros message; apply preserves_reply_text].
  destruct already; [|apply preserves_ret].
  apply preserves_bind; [by apply preserves_remove_subscriber | intros _].
  apply preserves_bind; [apply preserves_get_subscriber_count | intros n].
  apply preserves_bind; [apply preserves_logger | intros _; apply preserves_ret].
Qed.

End CommandPreserves.
End Preserves.

(** ** Invariants of the registry *)

Section Invariants.
Context `{Builtins}.

(** X8. An invocation of the handler never adds a subscriber and never
    changes an entry: every entry of the registry after it was in the
    registry before it. The same holds for the dispatch of the
    notifications alone. *)
Theorem invocation_never_adds_subscribers w :
  subscribers (lambda_handler w).1 ⊆ subscribers w
  /\ (forall items,
        subscribers (BarbyConcertNotifier.notify_new_concerts items w).1
        ⊆ subscribers w).
Proof.
  assert (forall uid w0,
            no_new_subscriber w0 (set_subscribers (delete uid (subscribers w0)) w0)) as Hdel.
  { intros uid w0. apply delete_subseteq. }
  split.
  - apply (preserves_lambda_handler no_new_subscriber Hdel).
    intros w0 s. unfold no_new_subscriber. simpl. reflexivity.
  - intros items. apply (preserves_notify_new_concerts no_new_subscriber Hdel).
Qed.

(** X9. A chat command changes at most the registry entry of its sender, and
    it leaves the snapshot of the listing alone. *)
Theorem command_changes_only_the_sender update w :
  (forall uid', uid' <> sender update ->
     subscribers (BarbyTelegramBot.subscribe_command update w).1 !! uid'
     = subscribers w !! uid'
     /\ subscribers (BarbyTelegramBot.unsubscribe_command update w).1 !! uid'
        = subscribers w !! uid')
  /\ strings (BarbyTelegramBot.subscribe_command update w).1 = strings w
  /\ strings (BarbyTelegramBot.unsubscribe_command update w).1 = strings w
  /\ subscribers (BarbyTelegramBot.start_command update w).1 = subscribers w.
Proof.
  split_and!.
  - intros uid' Hne. split.
    + apply (preserves_subscribe_command (only_entry (sender update)) update); [|done].
      intros w0 un fn ts uid0 Hne0. simpl. by rewrite lookup_insert_ne.
    + apply (preserves_unsubscribe_command (only_entry (sender update)) update); [|done].
      intros w0 uid0 Hne0. simpl. by rewrite lookup_delete_ne.
  - by apply (preserves_subscribe_command same_snapshot update).
  - by apply (preserves_unsubscribe_command same_snapshot update).
  - assert (Stable (fun w0 w1 => subscribers w1 = subscribers w0)) as Hst.
    { split; intros; simpl; congruence. }
    apply (preserves_start_command (fun w0 w1 => subscribers w1 = subscribers w0) update).
Qed.

(** X10. The registry stays well formed: when every entry is filed under its
    own [user_id], it is so after each operation that writes to the
    registry, whatever Redis and the Bot API answer. *)
Theorem registry_stays_well_formed w :
  wf_registry (subscribers w) ->
  (forall uid un fn, wf_registry (subscribers (add_subscriber uid un fn w).1))
  /\ (forall uid, wf_registry (subscribers (remove_subscriber uid w).1))
  /\ (forall update,
        wf_registry (subscribers (BarbyTelegramBot.subscribe_command update w).1)
        /\ wf_registry (subscribers (BarbyTelegramBot.unsubscribe_command update w).1))
  /\ (forall application message,
        wf_registry
          (subscribers (BarbyTelegramBot.notify_subscribers application message w).1))
  /\ wf_registry (subscribers (lambda_handler w).1).
Proof.
  intros Hwf.
  assert (forall uid w0,
            keeps_wf w0 (set_subscribers (delete uid (subscribers w0)) w0)) as Hdel.
  { intros uid w0 Hw0. by apply map_Forall_delete. }
  assert (forall uid w0 un fn ts,
            keeps_wf w0 (set_subscribers
                           (<[uid := new_entry uid un fn ts]> (subscribers w0)) w0)) as Hins.
  { intros uid w0 un fn ts Hw0. by apply map_Forall_insert_2. }
  split_and!.
  - intros uid un fn. apply (preserves_add_subscriber keeps_wf); [|done].
    intros w0 ts. apply Hins.
  - intros uid. by apply (preserves_remove_subscriber keeps_wf).
  - intros update. split.
    + apply (preserves_subscribe_command keeps_wf update); [|done].
      intros w0 un fn ts. apply Hins.
    + apply (preserves_unsubscribe_command keeps_wf update); [|done].
      intros w0. apply Hdel.
  - intros application message.
    by apply (preserves_notify_subscribers keeps_wf Hdel).
  - apply (preserves_lambda_handler keeps_wf Hdel); [|done]. intros w0 s Hw0. exact Hw0.
Qed.

End Invariants.

(** ** The registry: how its operations compose *)

Lemma add_subscriber_spec uid un fn w :
  wp (add_subscriber uid un fn)
     (fun r w' =>
        r = Ok tt /\ env w' = env w /\ strings w' = strings w
        /\ replies w' = replies w /\ faults w' = tail (faults w)
        /\ ((exists msg, next_fault w = Some msg
                         /\ subscribers w' = subscribers w
                         /\ trace w' = trace w ++ [ERedis (Hset uid) false])
            \/ (next_fault w = None
                /\ subscribers w'
                   = <[uid := new_entry uid un fn (clock (env w))]> (subscribers w)
                /\ trace w' = trace w ++ [ERedis (Hset uid) true]))) w.
Proof.
  unfold add_subscriber. apply wp_try, wp_bind, wp_get_world, wp_bind, wp_redis.
  - intros msg Hm. apply wp_logger. split_and!; try done. left. by exists msg.
  - intros Hm. simpl. apply wp_logger. split_and!; try done. by right.
Qed.

Lemma subscriber_exists_spec uid w :
  wp (subscriber_exists uid)
     (fun r w' =>
        faults w' = tail (faults w)
        /\ ((exists msg, next_fault w = Some msg /\ r = Raise msg
                         /\ frame w w' [ERedis (Hexists uid) false])
            \/ (next_fault w = None
                /\ r = Ok (bool_decide (is_Some (subscribers w !! uid)))
                /\ frame w w' [ERedis (Hexists uid) true]))) w.
Proof.
  unfold subscriber_exists, hexists. apply wp_redis.
  - intros msg Hm. split; [done|]. left. by exists msg.
  - intros Hm. simpl. split; [done|]. by right.
Qed.

Lemma tail_nil_faults w w' : faults w = [] -> faults w' = tail (faults w) -> faults w' = [].
Proof. by intros -> ->. Qed.

(** X11. A subscriber that was added is found: when Redis answers, after
    [add_subscriber] the registry holds the new entry under the user's
    id, [subscriber_exists] says so, [get_all_subscribers] lists the
    entry, and the count has grown by one if the user was not registered
    and is unchanged if they were, the old entry being overwritten. *)
Theorem added_subscriber_is_found uid un fn w :
  faults w = [] ->
  exists w1,
    add_subscriber uid un fn w = (w1, Ok tt)
    /\ subscribers w1
       = <[uid := new_entry uid un fn (clock (env w))]> (subscribers w)
    /\ (subscriber_exists uid w1).2 = Ok true
    /\ (exists l, (get_all_subscribers w1).2 = Ok l
                  /\ new_entry uid un fn (clock (env w)) ∈ l)
    /\ (get_subscriber_count w1).2
       = Ok (Z.of_nat (size (subscribers w))
             + match subscribers w !! uid with Some _ => 0 | None => 1 end).
Proof.
  intros Hf. destruct (add_subscriber uid un fn w) as [w1 r1] eqn:E1.
  pose proof (wp_run _ _ _ _ _ (add_subscriber_spec uid un fn w) E1)
    as (-> & _ & _ & _ & Hf1 & [(msg & Hm & _)|(_ & Hs1 & _)]).
  { by rewrite next_fault_nil in Hm. }
  pose proof (tail_nil_faults _ _ Hf Hf1) as Hf1'.
  exists w1. split_and!; [done | done | | |].
  - destruct (subscriber_exists uid w1) as [w2 r2] eqn:E2.
    pose proof (wp_run _ _ _ _ _ (subscriber_exists_spec uid w1) E2)
      as (_ & [(msg & Hm & _)|(_ & -> & _)]).
    { by rewrite next_fault_nil in Hm. }
    simpl. rewrite Hs1, lookup_insert_eq. by rewrite bool_decide_eq_true_2.
  - destruct (get_all_subscribers w1) as [w2 r2] eqn:E2.
    pose proof (wp_run _ _ _ _ _ (get_all_subscribers_spec w1) E2)
      as (_ & [(msg & Hm & _)|(_ & -> & _)]).
    { by rewrite next_fault_nil in Hm. }
    eexists. split; [done|]. apply list_elem_of_fmap.
    exists (uid, new_entry uid un fn (clock (env w))). split; [done|].
    apply elem_of_map_to_list. rewrite Hs1. apply lookup_insert_eq.
  - destruct (get_subscriber_count w1) as [w2 r2] eqn:E2.
    pose proof (wp_run _ _ _ _ _ (get_subscriber_count_spec w1) E2)
      as (_ & [(msg & Hm & _)|(_ & -> & _)]).
    { by rewrite next_fault_nil in Hm. }
    simpl. f_equal. rewrite Hs1, map_size_insert.
    destruct (subscribers w !! uid); simpl; lia.
Qed.

(** X12. Removing undoes adding: when Redis answers and the user was not
    registered, [add_subscriber] followed by [remove_subscriber] leaves
    the registry exactly as it was, and [subscriber_exists] then answers
    no. *)
Theorem remove_undoes_add uid un fn w :
  faults w = [] -> subscribers w !! uid = None ->
  exists w1 w2,
    add_subscriber uid un fn w = (w1, Ok tt)
    /\ remove_subscriber uid w1 = (w2, Ok None)
    /\ subscribers w2 = subscribers w
    /\ (subscriber_exists uid w2).2 = Ok false.
Proof.
  intros Hf Hnew. destruct (add_subscriber uid un fn w) as [w1 r1] eqn:E1.
  pose proof (wp_run _ _ _ _ _ (add_subscriber_spec uid un fn w) E1)
    as (-> & _ & _ & _ & Hf1 & [(msg & Hm & _)|(_ & Hs1 & _)]).
  { by rewrite next_fault_nil in Hm. }
  pose proof (tail_nil_faults _ _ Hf Hf1) as Hf1'.
  destruct (remove_subscriber uid w1) as [w2 r2] eqn:E2.
  pose proof (wp_run _ _ _ _ _ (remove_subscriber_spec uid w1) E2)
    as (-> & _ & _ & _ & Hf2 & [(msg & Hm & _)|(_ & Hs2 & _)]).
  { by rewrite next_fault_nil in Hm. }
  pose proof (tail_nil_faults _ _ Hf1' Hf2) as Hf2'.
  assert (subscribers w2 = subscribers w) as Hs.
  { rewrite Hs2, Hs1, delete_insert_eq. by apply delete_id. }
  exists w1, w2. split_and!; try done.
  destruct (subscriber_exists uid w2) as [w3 r3] eqn:E3.
  pose proof (wp_run _ _ _ _ _ (subscriber_exists_spec uid w2) E3)
    as (_ & [(msg & Hm & _)|(_ & -> & _)]).
  { by rewrite next_fault_nil in Hm. }
  simpl. rewrite Hs, Hnew. rewrite bool_decide_eq_false_2; [done|]. by intros [? ?].
Qed.

(** X13. The count and the list agree: when Redis answers,
    [get_all_subscribers] returns as many entries as
    [get_subscriber_count] counts, one for each entry of the registry,
    and in a well-formed registry no two of them have the same
    [user_id]. *)
Theorem subscriber_list_matches_count w :
  faults w = [] ->
  exists w1 n l,
    get_subscriber_count w = (w1, Ok n)
    /\ (get_all_subscribers w1).2 = Ok l
    /\ Z.of_nat (length l) = n
    /\ (forall s, s ∈ l <-> exists uid, subscribers w !! uid = Some s)
    /\ (wf_registry (subscribers w) -> NoDup (user_id <$> l)).
Proof.
  intros Hf. destruct (get_subscriber_count w) as [w1 r1] eqn:E1.
  pose proof (wp_run _ _ _ _ _ (get_subscriber_count_spec w) E1)
    as (Hf1 & [(msg & Hm & _)|(_ & -> & (_ & _ & Hs1 & _))]).
  { by rewrite next_fault_nil in Hm. }
  pose proof (tail_nil_faults _ _ Hf Hf1) as Hf1'.
  destruct (get_all_subscribers w1) as [w2 r2] eqn:E2.
  pose proof (wp_run _ _ _ _ _ (get_all_subscribers_spec w1) E2)
    as (_ & [(msg & Hm & _)|(_ & -> & _)]).
  { by rewrite next_fault_nil in Hm. }
  exists w1, (Z.of_nat (size (subscribers w))), (map snd (map_to_list (subscribers w1))).
  rewrite E2, Hs1. split_and!; try done.
  - by rewrite length_map, length_map_to_list.
  - intros s. rewrite list_elem_of_fmap. split.
    + intros ([uid s'] & -> & Hin). exists uid. by apply elem_of_map_to_list.
    + intros [uid Hs]. exists (uid, s). split; [done|]. by apply elem_of_map_to_list.
  - apply registry_list_nodup.
Qed.

(** X14. [health_check] never raises and changes nothing in Redis: it
    answers whether the ping was answered, which is whether building
    the cache object in the same state would succeed. *)
Theorem health_check_reports_the_ping w :
  (health_check w).2 = Ok (bool_decide (next_fault w = None))
  /\ strings (health_check w).1 = strings w
  /\ subscribers (health_check w).1 = subscribers w
  /\ ((health_check w).2 = Ok true <-> (RedisConcertCache.init w).2 = Ok tt).
Proof.
  unfold health_check, RedisConcertCache.init, try_except, bind, ping, redis_command,
    next_fault, ret, logger.
  destruct (head (faults w)) as [[msg|]|]; simpl; split_and!; try done;
    split; intros; done.
Qed.

(** ** The chat commands *)

Lemma fault_at_0 w : fault_at 0 w = next_fault w.
Proof. unfold fault_at, next_fault. by destruct (faults w). Qed.

Lemma next_fault_tail w w' :
  faults w' = tail (faults w) -> next_fault w' = fault_at 1 w.
Proof. unfold fault_at, next_fault. intros ->. by destruct (faults w) as [|? [|? ?]]. Qed.

Lemma next_fault_tail2 w w' :
  faults w' = tail (tail (faults w)) -> next_fault w' = fault_at 2 w.
Proof.
  unfold fault_at, next_fault. intros ->.
  by destruct (faults w) as [|? [|? [|? ?]]].
Qed.

Lemma or_else_nil (a : pystr) : Str.or_else a [] = a.
Proof. by destruct a. Qed.

Section Commands.
Context `{Builtins}.
Variable update : Update.t.

Lemma reply_text_spec text w :
  wp (BarbyTelegramBot.reply_text update text)
     (fun r w' =>
        r = reply_result w
        /\ env w' = env w /\ strings w' = strings w
        /\ subscribers w' = subscribers w /\ faults w' = faults w
        /\ replies w' = tail (replies w)
        /\ trace w' = trace w
             ++ [ESend (SendMessage (Update.chat_id update) text) (next_reply w)]) w.
Proof.
  unfold BarbyTelegramBot.reply_text, reply_result. apply wp_bot.
  - intros e He. rewrite He. by split_and!.
  - intros He. rewrite He. by split_and!.
Qed.

(** The three ways [subscribe_command] can go. *)
Lemma subscribe_command_spec w :
  wp (BarbyTelegramBot.subscribe_command update)
     (fun r w' =>
        (exists msg, next_fault w = Some msg /\ r = Raise msg
           /\ subscribers w' = subscribers w /\ replies w' = replies w
           /\ faults w' = tail (faults w)
           /\ trace w' = trace w ++ [ERedis (Hexists (sender update)) false])
        \/ (next_fault w = None /\ is_Some (subscribers w !! (sender update))
            /\ r = reply_result w
            /\ subscribers w' = subscribers w
            /\ faults w' = tail (faults w)
            /\ trace w' = trace w
                 ++ [ERedis (Hexists (sender update)) true;
                     ESend (SendMessage (Update.chat_id update)
                              (BarbyTelegramBot.already_subscribed_message
                                 (sender_name update)))
                           (next_reply w)])
        \/ (next_fault w = None /\ subscribers w !! (sender update) = None
            /\ r = reply_result w
            /\ subscribers w'
               = match fault_at 1 w with
                 | None =>
                   <[sender update := new_entry (sender update) (sender_username update)
                                      (sender_name update) (clock (env w))]>
                     (subscribers w)
                 | Some _ => subscribers w
                 end
            /\ faults w' = tail (tail (tail (faults w)))
            /\ trace w' = trace w
                 ++ [ERedis (Hexists (sender update)) true;
                     ERedis (Hset (sender update)) (bool_decide (fault_at 1 w = None));
                     ERedis Hlen (bool_decide (fault_at 2 w = None));
                     ESend (SendMessage (Update.chat_id update)
                              (BarbyTelegramBot.subscribed_message
                                 (sender_name update)))
                           (next_reply w)])) w.
Proof.
  unfold BarbyTelegramBot.subscribe_command. cbv zeta.
  change (User.id (Update.effective_user update)) with (sender update).
  change (User.first_name (Update.effective_user update)) with (sender_name update).
  apply wp_bind.
  eapply wp_mono; [apply subscriber_exists_spec|].
  intros r w1 (Hf1 & [(msg & Hm & -> & Hfr)|(Hm & -> & Hfr)]);
    destruct Hfr as (Henv1 & Hstr1 & Hsub1 & Hrep1 & Htr1).
  { left. exists msg. by split_and!. }
  destruct (subscribers w !! (sender update)) as [s|] eqn:Es.
  - rewrite bool_decide_eq_true_2 by by eexists. apply wp_bind, wp_ret.
    eapply wp_mono; [apply reply_text_spec|].
    intros r w2 (-> & _ & _ & Hsub2 & Hf2 & _ & Htr2).
    assert (next_reply w1 = next_reply w) as Hnr
      by (unfold next_reply; by rewrite Hrep1).
    right. left. unfold reply_result. rewrite Htr2, Htr1, Hnr, <- app_assoc.
    split_and!; first [done | congruence | by eexists].
  - rewrite bool_decide_eq_false_2 by by intros [? ?].
    apply wp_bind, wp_bind.
    eapply wp_mono; [apply add_subscriber_spec|].
    intros r w2 (-> & Henv2 & _ & Hrep2 & Hf2 & Hadd).
    apply wp_bind.
    eapply wp_mono; [apply get_subscriber_count_spec|].
    intros r w3 (Hf3 & Hcount).
    assert (exists n, r = Ok n /\ subscribers w3 = subscribers w2
                      /\ replies w3 = replies w2
                      /\ trace w3 = trace w2
                           ++ [ERedis Hlen (bool_decide (next_fault w2 = None))])
      as (n & -> & Hsub3 & Hrep3 & Htr3).
    { destruct Hcount as [(msg & Hm3 & -> & (_ & _ & ? & ? & ?))
                         |(Hm3 & -> & (_ & _ & ? & ? & ?))];
        eexists; rewrite Hm3; by split_and!. }
    apply wp_bind, wp_logger, wp_ret. set (w3' := add_log _ _ w3).
    eapply wp_mono; [apply reply_text_spec|].
    intros r w4 (-> & _ & _ & Hsub4 & Hf4 & _ & Htr4).
    change (subscribers w3') with (subscribers w3) in Hsub4.
    change (faults w3') with (faults w3) in Hf4.
    change (trace w3') with (trace w3) in Htr4.
    change (next_reply w3') with (next_reply w3) in Htr4.
    change (reply_result w3') with (reply_result w3).
    right. right.
    assert (next_fault w1 = fault_at 1 w) as Hn1 by by apply next_fault_tail.
    assert (next_fault w2 = fault_at 2 w) as Hn2.
    { apply next_fault_tail2. by rewrite Hf2, Hf1. }
    assert (next_reply w3 = next_reply w) as Hnr.
    { unfold next_reply. by rewrite Hrep3, Hrep2, Hrep1. }
    unfold reply_result. rewrite Hn1 in Hadd.
    assert (subscribers w4
            = match fault_at 1 w with
              | None =>
                <[sender update := new_entry (sender update) (sender_username update)
                                   (sender_name update) (clock (env w))]>
                  (subscribers w)
              | Some _ => subscribers w
              end) as Hsubs.
    { rewrite Hsub4, Hsub3.
      destruct Hadd as [(msg & -> & -> & _)|(-> & -> & _)]; [done|].
      rewrite Hsub1, Henv1, or_else_nil.
      unfold BarbyTelegramBot.username_or_empty, sender_username.
      destruct (User.username (Update.effective_user update)) as [un|]; [|done].
      by rewrite or_else_nil. }
    assert (trace w4 = trace w
              ++ [ERedis (Hexists (sender update)) true;
                  ERedis (Hset (sender update)) (bool_decide (fault_at 1 w = None));
                  ERedis Hlen (bool_decide (fault_at 2 w = None));
                  ESend (SendMessage (Update.chat_id update)
                           (BarbyTelegramBot.subscribed_message
                              (sender_name update)))
                        (next_reply w)]) as Htrace.
    { rewrite Htr4, Htr3, Hn2, Hnr.
      destruct Hadd as [(msg & Hm2 & _ & ->)|(Hm2 & _ & ->)];
        rewrite Hm2, Htr1, <- !app_assoc; done. }
    rewrite Hnr.
    split_and!; first [done | by rewrite Hf4, Hf3, Hf2, Hf1].
Qed.

(** The three ways [unsubscribe_command] can go. *)
Lemma unsubscribe_command_spec w :
  wp (BarbyTelegramBot.unsubscribe_command update)
     (fun r w' =>
        (exists msg, next_fault w = Some msg /\ r = Raise msg
           /\ subscribers w' = subscribers w /\ replies w' = replies w
           /\ faults w' = tail (faults w)
           /\ trace w' = trace w ++ [ERedis (Hexists (sender update)) false])
        \/ (next_fault w = None /\ subscribers w !! (sender update) = None
            /\ r = reply_result w
            /\ subscribers w' = subscribers w
            /\ faults w' = tail (faults w)
            /\ trace w' = trace w
                 ++ [ERedis (Hexists (sender update)) true;
                     ESend (SendMessage (Update.chat_id update)
                              (BarbyTelegramBot.not_subscribed_message
                                 (sender_name update)))
                           (next_reply w)])
        \/ (next_fault w = None /\ is_Some (subscribers w !! (sender update))
            /\ r = reply_result w
            /\ subscribers w'
               = match fault_at 1 w with
                 | None => delete (sender update) (subscribers w)
                 | Some _ => subscribers w
                 end
            /\ faults w' = tail (tail (tail (faults w)))
            /\ trace w' = trace w
                 ++ [ERedis (Hexists (sender update)) true;
                     ERedis (Hdel (sender update)) (bool_decide (fault_at 1 w = None));
                     ERedis Hlen (bool_decide (fault_at 2 w = None));
                     ESend (SendMessage (Update.chat_id update)
                              (BarbyTelegramBot.unsubscribed_message
                                 (sender_name update)))
                           (next_reply w)])) w.
Proof.
  unfold BarbyTelegramBot.unsubscribe_command. cbv zeta.
  change (User.id (Update.effective_user update)) with (sender update).
  change (User.first_name (Update.effective_user update)) with (sender_name update).
  apply wp_bind.
  eapply wp_mono; [apply subscriber_exists_spec|].
  intros r w1 (Hf1 & [(msg & Hm & -> & Hfr)|(Hm & -> & Hfr)]);
    destruct Hfr as (Henv1 & Hstr1 & Hsub1 & Hrep1 & Htr1).
  { left. exists msg. by split_and!. }
  destruct (subscribers w !! (sender update)) as [s|] eqn:Es.
  - rewrite bool_decide_eq_true_2 by by eexists.
    apply wp_bind, wp_bind.
    eapply wp_mono; [apply remove_subscriber_spec|].
    intros r w2 (-> & Henv2 & _ & Hrep2 & Hf2 & Hrm).
    apply wp_bind.
    eapply wp_mono; [apply get_subscriber_count_spec|].
    intros r w3 (Hf3 & Hcount).
    assert (exists n, r = Ok n /\ subscribers w3 = subscribers w2
                      /\ replies w3 = replies w2
                      /\ trace w3 = trace w2
                           ++ [ERedis Hlen (bool_decide (next_fault w2 = None))])
      as (n & -> & Hsub3 & Hrep3 & Htr3).
    { destruct Hcount as [(msg & Hm3 & -> & (_ & _ & ? & ? & ?))
                         |(Hm3 & -> & (_ & _ & ? & ? & ?))];
        eexists; rewrite Hm3; by split_and!. }
    apply wp_bind, wp_logger, wp_ret. set (w3' := add_log _ _ w3).
    eapply wp_mono; [apply reply_text_spec|].
    intros r w4 (-> & _ & _ & Hsub4 & Hf4 & _ & Htr4).
    change (subscribers w3') with (subscribers w3) in Hsub4.
    change (faults w3') with (faults w3) in Hf4.
    change (trace w3') with (trace w3) in Htr4.
    change (next_reply w3') with (next_reply w3) in Htr4.
    change (reply_result w3') with (reply_result w3).
    right. right.
    assert (next_fault w1 = fault_at 1 w) as Hn1 by by apply next_fault_tail.
    assert (next_fault w2 = fault_at 2 w) as Hn2.
    { apply next_fault_tail2. by rewrite Hf2, Hf1. }
    assert (next_reply w3 = next_reply w) as Hnr.
    { unfold next_reply. by rewrite Hrep3, Hrep2, Hrep1. }
    unfold reply_result. rewrite Hn1 in Hrm.
    assert (subscribers w4
            = match fault_at 1 w with
              | None => delete (sender update) (subscribers w)
              | Some _ => subscribers w
              end) as Hsubs.
    { rewrite Hsub4, Hsub3.
      destruct Hrm as [(msg & -> & -> & _)|(-> & -> & _)]; [done|].
      by rewrite Hsub1. }
    assert (trace w4 = trace w
              ++ [ERedis (Hexists (sender update)) true;
                  ERedis (Hdel (sender update)) (bool_decide (fault_at 1 w = None));
                  ERedis Hlen (bool_decide (fault_at 2 w = None));
                  ESend (SendMessage (Update.chat_id update)
                           (BarbyTelegramBot.unsubscribed_message
                              (sender_name update)))
                        (next_reply w)]) as Htrace.
    { rewrite Htr4, Htr3, Hn2, Hnr.
      destruct Hrm as [(msg & Hm2 & _ & -> & _)|(Hm2 & _ & -> & _)];
        rewrite Hm2, Htr1, <- !app_assoc; done. }
    rewrite Hnr.
    split_and!; first [done | by eexists | by rewrite Hf4, Hf3, Hf2, Hf1].
  - rewrite bool_decide_eq_false_2 by by intros [? ?]. apply wp_bind, wp_ret.
    eapply wp_mono; [apply reply_text_spec|].
    intros r w2 (-> & _ & _ & Hsub2 & Hf2 & _ & Htr2).
    assert (next_reply w1 = next_reply w) as Hnr
      by (unfold next_reply; by rewrite Hrep1).
    right. left. unfold reply_result. rewrite Htr2, Htr1, Hnr, <- app_assoc.
    split_and!; first [done | congruence | by eexists].
Qed.

(** X15. [/subscribe] from a user who is not registered: the reply is the
    confirmation of the subscription whether or not the registry stored
    the entry. The entry is in the registry afterwards exactly when
    Redis answered the write, and it holds the user's id, username (the
    empty string if they have none), first name and the time. The
    command raises only what the reply raises. *)
Theorem subscribe_new_user w :
  next_fault w = None -> subscribers w !! (sender update) = None ->
  exists w',
    BarbyTelegramBot.subscribe_command update w = (w', reply_result w)
    /\ subscribers w'
       = match fault_at 1 w with
         | None =>
           <[sender update := new_entry (sender update) (sender_username update)
                              (sender_name update) (clock (env w))]>
             (subscribers w)
         | Some _ => subscribers w
         end
    /\ trace w' = trace w
         ++ [ERedis (Hexists (sender update)) true;
             ERedis (Hset (sender update)) (bool_decide (fault_at 1 w = None));
             ERedis Hlen (bool_decide (fault_at 2 w = None));
             ESend (SendMessage (Update.chat_id update)
                      (BarbyTelegramBot.subscribed_message (sender_name update)))
                   (next_reply w)].
Proof.
  intros Hf Hnew.
  destruct (BarbyTelegramBot.subscribe_command update w) as [w' r] eqn:E.
  pose proof (wp_run _ _ _ _ _ (subscribe_command_spec w) E) as Hspec.
  destruct Hspec as [(msg & Hm & _)|[(_ & [s Hs] & _)|(_ & _ & -> & Hsub & _ & Htr)]];
    [congruence | congruence |].
  by exists w'.
Qed.

(** X16. [/subscribe] from a user who is registered changes nothing: the
    entry, with the time of the first subscription, stays as it is, no
    write is sent to Redis, and the reply says that the user is
    subscribed already. *)
Theorem subscribe_again_changes_nothing w s :
  next_fault w = None -> subscribers w !! (sender update) = Some s ->
  exists w',
    BarbyTelegramBot.subscribe_command update w = (w', reply_result w)
    /\ subscribers w' = subscribers w
    /\ trace w' = trace w
         ++ [ERedis (Hexists (sender update)) true;
             ESend (SendMessage (Update.chat_id update)
                      (BarbyTelegramBot.already_subscribed_message
                         (sender_name update)))
                   (next_reply w)].
Proof.
  intros Hf Hs.
  destruct (BarbyTelegramBot.subscribe_command update w) as [w' r] eqn:E.
  pose proof (wp_run _ _ _ _ _ (subscribe_command_spec w) E) as Hspec.
  destruct Hspec as [(msg & Hm & _)|[(_ & _ & -> & Hsub & _ & Htr)|(_ & Hn & _)]];
    [congruence | | congruence].
  by exists w'.
Qed.

(** X17. [/unsubscribe]: a registered user gets the confirmation whether or
    not Redis carried out the removal, and is out of the registry
    afterwards exactly when it did; a user who is not registered is told
    so, and nothing is written. *)
Theorem unsubscribe_outcomes w :
  next_fault w = None ->
  exists w',
    BarbyTelegramBot.unsubscribe_command update w = (w', reply_result w)
    /\ match subscribers w !! (sender update) with
       | Some _ =>
         subscribers w'
         = match fault_at 1 w with
           | None => delete (sender update) (subscribers w)
           | Some _ => subscribers w
           end
         /\ trace w' = trace w
              ++ [ERedis (Hexists (sender update)) true;
                  ERedis (Hdel (sender update)) (bool_decide (fault_at 1 w = None));
                  ERedis Hlen (bool_decide (fault_at 2 w = None));
                  ESend (SendMessage (Update.chat_id update)
                           (BarbyTelegramBot.unsubscribed_message
                              (sender_name update)))
                        (next_reply w)]
       | None =>
         subscribers w' = subscribers w
         /\ trace w' = trace w
              ++ [ERedis (Hexists (sender update)) true;
                  ESend (SendMessage (Update.chat_id update)
                           (BarbyTelegramBot.not_subscribed_message
                              (sender_name update)))
                        (next_reply w)]
       end.
Proof.
  intros Hf.
  destruct (BarbyTelegramBot.unsubscribe_command update w) as [w' r] eqn:E.
  pose proof (wp_run _ _ _ _ _ (unsubscribe_command_spec w) E) as Hspec.
  destruct Hspec as [(msg & Hm & _)
                    |[(_ & Hn & -> & Hsub & _ & Htr)
                     |(_ & [s Hs] & -> & Hsub & _ & Htr)]]; [congruence | |].
  - exists w'. split; [done|]. by rewrite Hn.
  - exists w'. split; [done|]. by rewrite Hs.
Qed.

(** X18. When Redis does not answer the membership test, a chat command
    raises the error of Redis: nothing is sent to the user, and the
    registry is as it was. *)
Theorem command_raises_when_registry_is_down w msg :
  next_fault w = Some msg ->
  (exists w', BarbyTelegramBot.subscribe_command update w = (w', Raise msg)
              /\ subscribers w' = subscribers w /\ replies w' = replies w
              /\ trace w' = trace w ++ [ERedis (Hexists (sender update)) false])
  /\ (exists w', BarbyTelegramBot.unsubscribe_command update w = (w', Raise msg)
                 /\ subscribers w' = subscribers w /\ replies w' = replies w
                 /\ trace w' = trace w ++ [ERedis (Hexists (sender update)) false]).
Proof.
  intros Hf. split.
  - destruct (BarbyTelegramBot.subscribe_command update w) as [w' r] eqn:E.
    pose proof (wp_run _ _ _ _ _ (subscribe_command_spec w) E) as Hspec.
    destruct Hspec as [(msg' & Hm & -> & ? & ? & _ & ?)|[(Hn & _)|(Hn & _)]];
      [|congruence | congruence].
    exists w'. split_and!; try done. congruence.
  - destruct (BarbyTelegramBot.unsubscribe_command update w) as [w' r] eqn:E.
    pose proof (wp_run _ _ _ _ _ (unsubscribe_command_spec w) E) as Hspec.
    destruct Hspec as [(msg' & Hm & -> & ? & ? & _ & ?)|[(Hn & _)|(Hn & _)]];
      [|congruence | congruence].
    exists w'. split_and!; try done. congruence.
Qed.

(** X19. Subscribing and then unsubscribing leaves the registry as it was:
    when Redis answers and the user was not registered, after
    [/subscribe] followed by [/unsubscribe] the registry is the one
    before the two commands, whatever became of the replies. *)
Theorem subscribe_then_unsubscribe w :
  faults w = [] ->
  subscribers w !! sender update = None ->
  subscribers
    (BarbyTelegramBot.unsubscribe_command update
       (BarbyTelegramBot.subscribe_command update w).1).1
  = subscribers w.
Proof.
  intros Hf Hnew.
  destruct (BarbyTelegramBot.subscribe_command update w) as [w1 r1] eqn:E1.
  pose proof (wp_run _ _ _ _ _ (subscribe_command_spec w) E1) as Hspec.
  assert (next_fault w = None) as Hn by by apply next_fault_nil.
  assert (fault_at 1 w = None) as Hn1 by (unfold fault_at; by rewrite Hf).
  destruct Hspec as [(msg & Hm & _)|[(_ & [s Hs] & _)|(_ & _ & _ & Hsub1 & Hf1 & _)]];
    [congruence | congruence |].
  rewrite Hn1 in Hsub1. rewrite Hf in Hf1. simpl in Hf1. simpl.
  destruct (BarbyTelegramBot.unsubscribe_command update w1) as [w2 r2] eqn:E2.
  pose proof (wp_run _ _ _ _ _ (unsubscribe_command_spec w1) E2) as Hspec.
  assert (next_fault w1 = None) as Hn' by by apply next_fault_nil.
  assert (fault_at 1 w1 = None) as Hn1' by (unfold fault_at; by rewrite Hf1).
  destruct Hspec as [(msg & Hm & _)|[(_ & Hs & _)|(_ & _ & _ & Hsub2 & _)]].
  - congruence.
  - rewrite Hsub1, lookup_insert_eq in Hs. discriminate.
  - simpl. rewrite Hsub2, Hn1', Hsub1, delete_insert_eq. by apply delete_id.
Qed.

End Commands.

(** ** The bot's own notifications *)

Section BotNotify.
Context `{Builtins}.
Variables (app : unit) (message : pystr).

Lemma text_events_deliver uid r1 r2 f :
  deliver_events message None uid r1 r2 f = text_events message uid r1 f.
Proof.
  unfold deliver_events, text_events, retried, first_call.
  destruct r1 as [e|]; [|done]. by rewrite andb_false_r.
Qed.

Lemma notify_one_spec s w :
  wp (BarbyTelegramBot.notify_one (Some app) message s)
     (fun r w' =>
        r = Ok tt /\ env w' = env w /\ strings w' = strings w
        /\ trace w' = trace w
             ++ deliver_events message None (user_id s) (next_reply w) None (next_fault w)
        /\ subscribers w'
           = after_deliver (user_id s) (next_reply w) (next_fault w) (subscribers w)
        /\ replies w' = tail (replies w)
        /\ faults w' = (if condemned (next_reply w) then tail (faults w) else faults w)) w.
Proof.
  unfold BarbyTelegramBot.notify_one, BarbyTelegramBot.send_message.
  rewrite text_events_deliver. unfold text_events, after_deliver, condemned.
  apply wp_try, wp_bind, wp_bot.
  - intros e He. rewrite He. apply wp_bind, wp_logger.
    set (w1 := add_log _ _ _).
    destruct (invalid_subscriber_error e).
    + apply wp_bind. eapply wp_mono; [apply remove_subscriber_spec|].
      intros r w2 (-> & Henv2 & Hstr2 & Hrep2 & Hf2 & Hcases). apply wp_logger.
      change (next_fault w1) with (next_fault w) in Hcases.
      change (trace w1) with (trace w ++ [ESend (SendMessage (user_id s) message) (Some e)])
        in Hcases.
      change (subscribers w1) with (subscribers w) in Hcases.
      split_and!; try done.
      * destruct Hcases as [(msg & Hm & _ & Ht & _)|(Hm & _ & Ht & _)];
          simpl; rewrite Ht, Hm, <- app_assoc; done.
      * destruct Hcases as [(msg & Hm & Hs & _)|(Hm & Hs & _)];
          simpl; rewrite Hs, Hm; done.
    + apply wp_ret. split_and!; try done.
  - intros He. rewrite He. apply wp_bind, wp_logger, wp_sleep. by split_and!.
Qed.

Lemma for_each_notify_one_pass subs w :
  wp (for_each subs (BarbyTelegramBot.notify_one (Some app) message))
     (fun r w' =>
        r = Ok tt /\ env w' = env w /\ strings w' = strings w
        /\ exists t, trace w' = trace w ++ t
                     /\ pass message None subs (subscribers w) t (subscribers w')) w.
Proof.
  revert w. induction subs as [|s subs IH]; intros w; simpl.
  - apply wp_ret. repeat split; try done. exists [].
    split; [by rewrite app_nil_r | constructor].
  - apply wp_bind. eapply wp_mono; [apply notify_one_spec|].
    intros r w1 (-> & Henv & Hstr & Htr & Hsub & _ & _).
    eapply wp_mono; [apply IH|].
    intros r w2 (-> & Henv2 & Hstr2 & t & Htr2 & Hpass).
    repeat split; try congruence.
    eexists. split.
    + rewrite Htr2, Htr, <- app_assoc. reflexivity.
    + econstructor. rewrite <- Hsub. exact Hpass.
Qed.

(** X20. A text for all subscribers reaches each of them once: when the
    registry is well formed and Redis answers the count and the list,
    [notify_subscribers] returns normally and, for every subscriber,
    makes exactly one call, a text to that subscriber, with no second
    attempt whatever the error; the subscriber is removed exactly when
    that call failed with "chat not found" or "bot was blocked" and
    Redis carried out the removal. With no subscriber, or with a count
    that fails, nothing but the count is done. In every world, whatever
    Redis and the Bot API do, [notify_subscribers] returns normally. *)
Theorem text_reaches_each_subscriber_once w w' r :
  wf_registry (subscribers w) ->
  next_fault w = None -> fault_at 1 w = None -> subscribers w <> ∅ ->
  BarbyTelegramBot.notify_subscribers (Some app) message w = (w', r) ->
  r = Ok tt
  /\ (forall uid s, subscribers w !! uid = Some s ->
        exists r1 f pre post,
          trace w' = trace w ++ ERedis Hlen true :: ERedis Hgetall true
                       :: pre ++ text_events message uid r1 f ++ post
          /\ sends_to uid pre = [] /\ sends_to uid post = []
          /\ subscribers w' !! uid
             = (if condemned r1 && bool_decide (f = None) then None else Some s))
  /\ (forall w0, subscribers w0 = ∅ \/ next_fault w0 <> None ->
        exists w1 ok,
          BarbyTelegramBot.notify_subscribers (Some app) message w0 = (w1, Ok tt)
          /\ trace w1 = trace w0 ++ [ERedis Hlen ok]
          /\ subscribers w1 = subscribers w0)
  /\ (forall w0, (BarbyTelegramBot.notify_subscribers (Some app) message w0).2 = Ok tt).
Proof.
  intros Hwf Hnf Hnf1 Hne Hrun.
  assert (size (subscribers w) <> 0%nat) as Hsize by by rewrite map_size_non_empty_iff.
  assert (wp (BarbyTelegramBot.notify_subscribers (Some app) message)
            (fun r w' =>
               r = Ok tt
               /\ exists t, trace w' = trace w ++ ERedis Hlen true :: ERedis Hgetall true :: t
                  /\ pass message None (map snd (map_to_list (subscribers w)))
                          (subscribers w) t (subscribers w')) w) as Hwp.
  { unfold BarbyTelegramBot.notify_subscribers. apply wp_bind.
    eapply wp_mono; [apply get_subscriber_count_spec|].
    intros r0 w1 (Hf1 & [(msg & Hm & _)|(_ & -> & Hfr)]); [congruence|].
    destruct Hfr as (Henv1 & Hstr1 & Hsub1 & Hrep1 & Htr1).
    cbv beta iota.
    destruct (Z.eqb_spec (Z.of_nat (size (subscribers w))) 0) as [Hz|Hz]; [lia|].
    apply wp_bind, wp_logger. set (w1' := add_log _ _ w1). apply wp_bind.
    eapply wp_mono; [apply get_all_subscribers_spec|].
    assert (next_fault w1' = None) as Hn1'.
    { rewrite <- Hnf1. by apply next_fault_tail. }
    intros r1 w2 (Hf2 & [(msg & Hm & _)|(_ & -> & Hfr)]); [congruence|].
    destruct Hfr as (Henv2 & Hstr2 & Hsub2 & Hrep2 & Htr2).
    change (subscribers w1') with (subscribers w1) in *.
    change (trace w1') with (trace w1) in *.
    eapply wp_mono; [apply for_each_notify_one_pass|].
    intros r2 w3 (-> & _ & _ & t & Htr3 & Hpass).
    split; [done|]. exists t. split.
    - rewrite Htr3, Htr2, Htr1, <- !app_assoc. done.
    - rewrite Hsub2, Hsub1 in Hpass. exact Hpass. }
  pose proof (wp_run _ _ _ _ _ Hwp Hrun) as (-> & t & Htr & Hpass).
  split; [done|]. split; [|split].
  3:{ intros w0.
      change (wp (BarbyTelegramBot.notify_subscribers (Some app) message)
                 (fun r _ => r = Ok tt) w0).
      unfold BarbyTelegramBot.notify_subscribers. apply wp_bind.
      eapply wp_mono; [apply get_subscriber_count_spec|].
      intros r0 w2 (_ & [(msg & _ & -> & _)|(_ & -> & _)]); [by apply wp_logger|].
      cbv beta iota. destruct (_ =? 0); [by apply wp_logger|].
      apply wp_bind, wp_logger, wp_bind.
      eapply wp_mono; [apply get_all_subscribers_spec|].
      intros r1 w3 (_ & [(msg & _ & -> & _)|(_ & -> & _)]);
        (eapply wp_mono; [apply for_each_notify_one_pass|]);
        by intros ? ? (-> & _). }
  - intros uid s Hs.
    assert (s ∈ map snd (map_to_list (subscribers w))) as Hin.
    { apply list_elem_of_fmap. exists (uid, s). split; [done|].
      by apply elem_of_map_to_list. }
    destruct (pass_member _ _ _ _ _ _ _ Hpass (registry_list_nodup _ Hwf) Hin)
      as (r1 & r2 & f & pre & post & -> & Hpre & Hpost & Hreg).
    rewrite (Hwf _ _ Hs) in *.
    rewrite text_events_deliver in Htr.
    exists r1, f, pre, post. split_and!; try done.
    rewrite Hreg. unfold after_deliver.
    destruct (condemned r1 && bool_decide (f = None)); [|done].
    apply lookup_delete_eq.
  - intros w0 Hw0.
    destruct (BarbyTelegramBot.notify_subscribers (Some app) message w0) as [w1 r1] eqn:E.
    assert (wp (BarbyTelegramBot.notify_subscribers (Some app) message)
              (fun r w' => r = Ok tt /\ subscribers w' = subscribers w0
                           /\ exists ok, trace w' = trace w0 ++ [ERedis Hlen ok]) w0) as Hwp0.
    { unfold BarbyTelegramBot.notify_subscribers. apply wp_bind.
      eapply wp_mono; [apply get_subscriber_count_spec|].
      intros r0 w2 (_ & [(msg & Hm & -> & Hfr)|(Hm & -> & Hfr)]);
        destruct Hfr as (_ & _ & Hsub2 & _ & Htr2).
      - apply wp_logger. split_and!; try done. by exists false.
      - destruct Hw0 as [Hempty|Hdown]; [|congruence].
        assert (size (subscribers w0) = 0%nat) as ->
          by (rewrite Hempty; apply map_size_empty).
        apply wp_logger.
        split_and!; try done. by exists true. }
    pose proof (wp_run _ _ _ _ _ Hwp0 E) as (-> & Hsub & ok & Htr0).
    by exists w1, ok.
Qed.

End BotNotify.

(** ** When everything is answered *)

Lemma next_reply_nil w : replies w = [] -> next_reply w = None.
Proof. unfold next_reply. by intros ->. Qed.

Section Quiet.
Context `{Builtins}.

Lemma deliver_quiet message image_url s w :
  faults w = [] -> replies w = [] ->
  wp (deliver message image_url s)
     (fun r w' =>
        r = Ok tt /\ env w' = env w /\ strings w' = strings w
        /\ subscribers w' = subscribers w /\ faults w' = [] /\ replies w' = []
        /\ trace w' = trace w
             ++ [ESend (first_call message image_url (user_id s)) None]) w.
Proof.
  intros Hf Hr. eapply wp_mono; [apply deliver_spec|].
  intros r w' (-> & Henv & Hstr & Htr & Hsub & Hrep & Hflt).
  rewrite (next_reply_nil _ Hr) in *.
  unfold deliver_events, after_deliver, retried, condemned in *. simpl in *.
  rewrite Hr in Hrep. split_and!; try done. congruence.
Qed.

Lemma for_each_deliver_quiet message image_url subs w :
  faults w = [] -> replies w = [] ->
  wp (for_each subs (deliver message image_url))
     (fun r w' =>
        r = Ok tt /\ env w' = env w /\ strings w' = strings w
        /\ subscribers w' = subscribers w /\ faults w' = [] /\ replies w' = []
        /\ trace w' = trace w ++ calls_to subs (first_call message image_url)) w.
Proof.
  revert w. induction subs as [|s subs IH]; intros w Hf Hr; simpl.
  - apply wp_ret. split_and!; try done. unfold calls_to. simpl. by rewrite app_nil_r.
  - apply wp_bind. eapply wp_mono; [by apply deliver_quiet|].
    intros r w1 (-> & Henv & Hstr & Hsub & Hf1 & Hr1 & Htr).
    eapply wp_mono; [by apply IH|].
    intros r w2 (-> & Henv2 & Hstr2 & Hsub2 & Hf2 & Hr2 & Htr2).
    split_and!; try congruence.
    rewrite Htr2, Htr, <- app_assoc. done.
Qed.

Lemma notify_loop_quiet (items : list show_dict) w :
  faults w = [] -> replies w = [] ->
  wp (for_each items (fun concert => send_concert_notification concert ;; sleep))
     (fun r w' =>
        r = Ok tt /\ env w' = env w /\ strings w' = strings w
        /\ subscribers w' = subscribers w /\ faults w' = [] /\ replies w' = []
        /\ trace w' = trace w
             ++ dispatch_events items (map snd (map_to_list (subscribers w)))) w.
Proof.
  revert w. induction items as [|c items IH]; intros w Hf Hr; simpl.
  - apply wp_ret. split_and!; try done. unfold dispatch_events. simpl.
    by rewrite app_nil_r.
  - apply wp_bind, wp_bind. unfold send_concert_notification. apply wp_bind.
    eapply wp_mono; [apply get_all_subscribers_spec|].
    intros r w1 (Hf1 & [(msg & Hm & _)|(_ & -> & Hfr)]).
    { by rewrite next_fault_nil in Hm. }
    destruct Hfr as (Henv1 & Hstr1 & Hsub1 & Hrep1 & Htr1).
    rewrite Hf in Hf1. simpl in Hf1.
    eapply wp_mono; [apply for_each_deliver_quiet; congruence|].
    intros r w2 (-> & Henv2 & Hstr2 & Hsub2 & Hf2 & Hr2 & Htr2).
    apply wp_sleep.
    eapply wp_mono; [by apply IH|].
    intros r w3 (-> & Henv3 & Hstr3 & Hsub3 & Hf3 & Hr3 & Htr3).
    split_and!; try congruence.
    rewrite Htr3, Htr2, Htr1. unfold dispatch_events. simpl.
    rewrite Hsub2, Hsub1, <- !app_assoc. done.
Qed.

Lemma dispatch_events_sends (items : list show_dict) (subs : list Subscriber) :
  length (filter (fun e => is_send e = true) (dispatch_events items subs))
  = (length items * length subs)%nat.
Proof.
  assert (forall c, length (filter (fun e => is_send e = true) (calls_to subs c))
                    = length subs) as Hcalls.
  { intros c. unfold calls_to. induction subs as [|s subs IHs]; [done|].
    rewrite fmap_cons, filter_cons, decide_True by done.
    cbn [length]. by rewrite IHs. }
  unfold dispatch_events. induction items as [|c items IH]; [done|].
  rewrite fmap_cons. cbn [concat]. rewrite <- app_comm_cons.
  rewrite filter_cons, decide_False by done.
  rewrite filter_app, length_app, IH, Hcalls. done.
Qed.

Lemma notify_new_concerts_quiet (items : list show_dict) w :
  items <> [] -> faults w = [] -> replies w = [] -> subscribers w <> ∅ ->
  wp (BarbyConcertNotifier.notify_new_concerts items)
     (fun r w' =>
        r = Ok tt /\ strings w' = strings w /\ subscribers w' = subscribers w
        /\ trace w' = trace w ++ ERedis Hlen true
             :: dispatch_events items (map snd (map_to_list (subscribers w)))) w.
Proof.
  intros Hne Hf Hr Hsub.
  assert (size (subscribers w) <> 0%nat) as Hsize by by rewrite map_size_non_empty_iff.
  unfold BarbyConcertNotifier.notify_new_concerts.
  destruct items as [|c items]; [done|]. apply wp_bind.
  eapply wp_mono; [apply get_subscriber_count_spec|].
  intros r0 w1 (Hf1 & [(msg & Hm & _)|(_ & -> & Hfr)]).
  { by rewrite next_fault_nil in Hm. }
  destruct Hfr as (Henv1 & Hstr1 & Hsub1 & Hrep1 & Htr1).
  rewrite Hf in Hf1. simpl in Hf1. cbv beta iota.
  destruct (Z.eqb_spec (Z.of_nat (size (subscribers w))) 0) as [Hz|Hz]; [lia|].
  apply wp_bind, wp_logger. set (w1' := add_log _ _ w1).
  eapply wp_mono;
    [apply notify_loop_quiet;
       [exact Hf1 | change (replies w1') with (replies w1); congruence]|].
  intros r1 w2 (-> & _ & Hstr2 & Hsub2 & _ & _ & Htr2).
  change (subscribers w1') with (subscribers w1) in *.
  change (strings w1') with (strings w1) in *.
  change (trace w1') with (trace w1) in *.
  split_and!; [done | congruence | congruence |].
  rewrite Htr2, Htr1, Hsub1, <- app_assoc. done.
Qed.

(** X21. Every subscriber gets every new concert, once: when Redis and the
    Bot API answer everything and there is a subscriber, the dispatch of
    a non-empty list of items counts the subscribers once and then, item
    by item in the order of the list, reads the registry and makes one
    call per subscriber, a photo if the item has an image and a text if
    not. It makes as many calls as there are items times subscribers
    and leaves the registry as it was. *)
Theorem every_subscriber_gets_every_concert (items : list show_dict) w :
  items <> [] -> faults w = [] -> replies w = [] -> subscribers w <> ∅ ->
  exists w',
    BarbyConcertNotifier.notify_new_concerts items w = (w', Ok tt)
    /\ subscribers w' = subscribers w
    /\ trace w' = trace w
         ++ ERedis Hlen true
            :: dispatch_events items (map snd (map_to_list (subscribers w)))
    /\ length (filter (fun e => is_send e = true)
                      (drop (length (trace w)) (trace w')))
       = (length items * size (subscribers w))%nat.
Proof.
  intros Hne Hf Hr Hsub.
  destruct (BarbyConcertNotifier.notify_new_concerts items w) as [w' r] eqn:E.
  pose proof (wp_run _ _ _ _ _ (notify_new_concerts_quiet items w Hne Hf Hr Hsub) E)
    as (-> & _ & Hsub' & Htr).
  exists w'. split_and!; try done.
  rewrite Htr, drop_app_length, filter_cons, decide_False by done.
  by rewrite dispatch_events_sends, length_map, length_map_to_list.
Qed.

End Quiet.

Section Digest.
Context `{Builtins}.

Lemma format_loop_concat (concerts : list show_dict) message :
  BarbyTelegramBot.format_loop concerts message
  = message ++ concat (BarbyTelegramBot.concert_entry <$> concerts).
Proof.
  revert message. induction concerts as [|c concerts IH]; intros message; simpl.
  - by rewrite app_nil_r.
  - by rewrite IH, <- app_assoc.
Qed.

(** X22. The digest lists the first five concerts: the message is the header,
    then the entries of at most five concerts, the first ones, in their
    order, then, if there are more than five, one line that says how
    many are left out. Of the sixth concert and those after it only
    their number shows. *)
Theorem digest_lists_the_first_five (concerts : list show_dict) header :
  BarbyTelegramBot._format_concerts_message concerts header
  = header ++ concat (BarbyTelegramBot.concert_entry <$> take 5 concerts)
    ++ (if (5 <? length concerts)%nat then more_line (length concerts - 5) else [])
  /\ (forall concerts' : list show_dict,
        take 5 concerts' = take 5 concerts -> length concerts' = length concerts ->
        BarbyTelegramBot._format_concerts_message concerts' header
        = BarbyTelegramBot._format_concerts_message concerts header).
Proof.
  unfold BarbyTelegramBot._format_concerts_message, more_line. split.
  - rewrite format_loop_concat. destruct (5 <? length concerts)%nat.
    + by rewrite <- !app_assoc.
    + by rewrite app_nil_r.
  - intros concerts' Htake Hlen. by rewrite Htake, Hlen.
Qed.

Variable app : unit.

Lemma notify_one_quiet message s w :
  faults w = [] -> replies w = [] ->
  wp (BarbyTelegramBot.notify_one (Some app) message s)
     (fun r w' =>
        r = Ok tt /\ subscribers w' = subscribers w /\ faults w' = [] /\ replies w' = []
        /\ trace w' = trace w ++ [ESend (SendMessage (user_id s) message) None]) w.
Proof.
  intros Hf Hr. eapply wp_mono; [apply notify_one_spec|].
  intros r w' (-> & Henv & Hstr & Htr & Hsub & Hrep & Hflt).
  rewrite (next_reply_nil _ Hr) in *.
  unfold deliver_events, after_deliver, retried, condemned in *. simpl in *.
  rewrite Hr in Hrep. split_and!; try done. congruence.
Qed.

Lemma for_each_notify_one_quiet message subs w :
  faults w = [] -> replies w = [] ->
  wp (for_each subs (BarbyTelegramBot.notify_one (Some app) message))
     (fun r w' =>
        r = Ok tt /\ subscribers w' = subscribers w /\ faults w' = [] /\ replies w' = []
        /\ trace w' = trace w ++ calls_to subs (fun uid => SendMessage uid message)) w.
Proof.
  revert w. induction subs as [|s subs IH]; intros w Hf Hr; simpl.
  - apply wp_ret. split_and!; try done. unfold calls_to. simpl. by rewrite app_nil_r.
  - apply wp_bind. eapply wp_mono; [by apply notify_one_quiet|].
    intros r w1 (-> & Hsub & Hf1 & Hr1 & Htr).
    eapply wp_mono; [by apply IH|].
    intros r w2 (-> & Hsub2 & Hf2 & Hr2 & Htr2).
    split_and!; try congruence.
    rewrite Htr2, Htr, <- app_assoc. done.
Qed.

(** X23. The bot announces new concerts in one message: when Redis and the
    Bot API answer everything and there is a subscriber,
    [notify_new_concerts] of the bot counts the subscribers twice, reads
    the registry once and sends every subscriber one text, the digest of
    the new concerts, however many concerts are new. *)
Theorem digest_goes_once_to_each_subscriber (items : list show_dict) w :
  items <> [] -> faults w = [] -> replies w = [] -> subscribers w <> ∅ ->
  exists w',
    BarbyTelegramBot.notify_new_concerts (Some app) items w = (w', Ok tt)
    /\ subscribers w' = subscribers w
    /\ trace w' = trace w
         ++ [ERedis Hlen true; ERedis Hlen true; ERedis Hgetall true]
         ++ calls_to (map snd (map_to_list (subscribers w)))
                     (fun uid => SendMessage uid (BarbyTelegramBot.digest_message items)).
Proof.
  intros Hne Hf Hr Hsub.
  assert (size (subscribers w) <> 0%nat) as Hsize by by rewrite map_size_non_empty_iff.
  destruct (BarbyTelegramBot.notify_new_concerts (Some app) items w) as [w' r] eqn:E.
  assert (wp (BarbyTelegramBot.notify_new_concerts (Some app) items)
            (fun r w' =>
               r = Ok tt /\ subscribers w' = subscribers w
               /\ trace w' = trace w
                    ++ [ERedis Hlen true; ERedis Hlen true; ERedis Hgetall true]
                    ++ calls_to (map snd (map_to_list (subscribers w)))
                         (fun uid => SendMessage uid (BarbyTelegramBot.digest_message items))) w)
    as Hwp.
  { unfold BarbyTelegramBot.notify_new_concerts.
    destruct items as [|c items]; [done|]. apply wp_bind.
    eapply wp_mono; [apply get_subscriber_count_spec|].
    intros r0 w1 (Hf1 & [(msg & Hm & _)|(_ & -> & Hfr)]).
    { by rewrite next_fault_nil in Hm. }
    destruct Hfr as (Henv1 & Hstr1 & Hsub1 & Hrep1 & Htr1).
    rewrite Hf in Hf1. simpl in Hf1. cbv beta iota.
    destruct (Z.eqb_spec (Z.of_nat (size (subscribers w))) 0) as [Hz|Hz]; [lia|].
    apply wp_bind, wp_logger. set (w1' := add_log _ _ w1).
    unfold BarbyTelegramBot.notify_subscribers. apply wp_bind.
    eapply wp_mono; [apply get_subscriber_count_spec|].
    intros r1 w2 (Hf2 & [(msg & Hm & _)|(_ & -> & Hfr)]).
    { rewrite next_fault_nil in Hm; done. }
    destruct Hfr as (Henv2 & Hstr2 & Hsub2 & Hrep2 & Htr2).
    change (subscribers w1') with (subscribers w1) in *.
    change (trace w1') with (trace w1) in *.
    change (replies w1') with (replies w1) in *.
    change (faults w1') with (faults w1) in *.
    rewrite Hf1 in Hf2. simpl in Hf2. cbv beta iota. rewrite Hsub1.
    destruct (Z.eqb_spec (Z.of_nat (size (subscribers w))) 0) as [Hz'|_]; [lia|].
    apply wp_bind, wp_logger. set (w2' := add_log _ _ w2). apply wp_bind.
    eapply wp_mono; [apply get_all_subscribers_spec|].
    intros r2 w3 (Hf3 & [(msg & Hm & _)|(_ & -> & Hfr)]).
    { rewrite next_fault_nil in Hm; done. }
    destruct Hfr as (Henv3 & Hstr3 & Hsub3 & Hrep3 & Htr3).
    change (subscribers w2') with (subscribers w2) in *.
    change (trace w2') with (trace w2) in *.
    change (replies w2') with (replies w2) in *.
    change (faults w2') with (faults w2) in *.
    rewrite Hf2 in Hf3. simpl in Hf3.
    eapply wp_mono; [apply for_each_notify_one_quiet; [exact Hf3 | congruence]|].
    intros r3 w4 (-> & Hsub4 & _ & _ & Htr4).
    split_and!; [done | congruence |].
    rewrite Htr4, Htr3, Htr2, Htr1, Hsub2, Hsub1, <- !app_assoc. done. }
  pose proof (wp_run _ _ _ _ _ Hwp E) as (-> & Hsub' & Htr).
  by exists w'.
Qed.

End Digest.

(** ** The invocation as a whole *)

Lemma load_concerts_trace ks acc w :
  faults w = [] ->
  wp (load_concerts ks acc)
     (fun r w' =>
        r = Ok (loaded (strings w) ks acc) /\ faults w' = []
        /\ frame w w' ((fun key => ERedis (Get key) true) <$> ks)) w.
Proof.
  revert acc w. induction ks as [|key ks IH]; intros acc w Hf; simpl.
  - apply wp_ret. split_and!; [done | done | apply frame_refl].
  - apply wp_bind, wp_redis.
    + intros msg Hmsg. by rewrite next_fault_nil in Hmsg.
    + intros _. simpl.
      set (w1 := add_event (ERedis (Get key) true) (pop_fault w)).
      assert (frame w w1 [ERedis (Get key) true]) as Hfr by done.
      assert (faults w1 = []) as Hf1 by by apply pop_fault_nil.
      assert (strings w1 = strings w) as Hs by done.
      destruct (strings w !! key) as [d|];
        (eapply wp_mono; [by apply IH|]);
        intros r w' (-> & Hf' & Hfr'); rewrite Hs;
        (split_and!; [done | done |]);
        apply (frame_trans _ _ _ [ERedis (Get key) true] _ Hfr Hfr').
Qed.

Lemma load_last_state_trace w :
  faults w = [] ->
  wp load_last_state
     (fun r w' =>
        r = Ok (loaded (strings w) (concert_keys (strings w)) ∅,
                stored_last_check (strings w))
        /\ faults w' = [] /\ frame w w' (load_events (strings w))) w.
Proof.
  intros Hf. unfold load_last_state, load_body. apply wp_try, wp_bind, wp_redis.
  { intros msg Hmsg. by rewrite next_fault_nil in Hmsg. }
  intros _. cbn [fst snd].
  change (filter _ _) with (concert_keys (strings w)).
  set (w1 := add_event _ _).
  assert (frame w w1 [ERedis (Keys concert_prefix) true]) as Hfr1 by done.
  assert (faults w1 = []) as Hf1 by by apply pop_fault_nil.
  apply wp_bind. eapply wp_mono; [by apply load_concerts_trace|].
  intros r w2 (-> & Hf2 & Hfr2). change (strings w1) with (strings w) in *.
  pose proof (frame_trans _ _ _ _ _ Hfr1 Hfr2) as Hw2.
  assert (strings w2 = strings w) as Hs2 by (by destruct Hw2 as (_ & ? & _)).
  apply wp_bind, wp_redis.
  { intros msg Hmsg. by rewrite next_fault_nil in Hmsg. }
  intros _. simpl.
  set (w3 := add_event (ERedis (Get get_metadata_key) true) (pop_fault w2)).
  assert (frame w2 w3 [ERedis (Get get_metadata_key) true]) as Hfr3 by done.
  pose proof (frame_trans _ _ _ _ _ Hw2 Hfr3) as Hw3.
  assert (faults w3 = []) as Hf3 by by apply pop_fault_nil.
  apply wp_bind, wp_logger, wp_bind.
  replace (stored_last_check (strings w)) with (stored_last_check (strings w2))
    by by rewrite Hs2.
  unfold stored_last_check, load_events. rewrite <- app_assoc in Hw3.
  destruct (strings w2 !! get_metadata_key) as [[c|m]|];
    repeat first [apply wp_logger | apply wp_ret | apply wp_bind];
    (split_and!; [done | done |]); repeat apply frame_log; exact Hw3.
Qed.

Section Invocation.
Context `{Builtins}.

(** X24. An invocation never raises. Its result is [None] exactly when
    [REDIS_PORT] does not spell a number, or the ping of Redis fails,
    or the bot token is missing or empty. It has then done nothing at
    all if the port is not a number, and nothing but the ping otherwise:
    nothing is read from the snapshot, written to it or sent. *)
Theorem handler_never_raises w :
  exists w' r,
    lambda_handler w = (w', Ok r)
    /\ (r = None <->
        port_ok w = false \/ next_fault w <> None \/ token_ok w = false)
    /\ (r = None ->
        trace w' = trace w
                   ++ (if port_ok w
                       then [ERedis Ping (bool_decide (next_fault w = None))]
                       else [])
        /\ strings w' = strings w /\ subscribers w' = subscribers w
        /\ replies w' = replies w).
Proof.
  destruct (lambda_handler w) as [w' r] eqn:E.
  pose proof (handler_run _ _ _ E) as Hout.
  destruct Hout as [w' Hport Hfr|w' Hport Hnf Hfr|w' Hport Hnf Htok Hfr
                   |w' Hport Hnf Htok Hc Hfr
                   |w' t last Hport Hnf Htok Hc Hnew Hfr Hreads Hshape
                   |w' t_load t_save t_notify ok last Hport Hnf Htok Hnew Henv Htr
                       Hreads Hshape Hsave Hex Hnk].
  - exists w', None. split_and!; [done | split; [by left | done] |].
    intros _. rewrite Hport. by destruct Hfr as (_ & ? & ? & ? & ?).
  - exists w', None. split_and!; [done | split; [by right; left | done] |].
    intros _. rewrite Hport, bool_decide_eq_false_2 by done.
    by destruct Hfr as (_ & ? & ? & ? & ?).
  - exists w', None. split_and!; [done | split; [by right; right | done] |].
    intros _. rewrite Hport, bool_decide_eq_true_2 by done.
    by destruct Hfr as (_ & ? & ? & ? & ?).
  - eexists w', _. split_and!; [done | | done].
    split; [done | intros [?|[?|?]]; congruence].
  - eexists w', _. split_and!; [done | | done].
    split; [done | intros [?|[?|?]]; congruence].
  - eexists w', _. split_and!; [done | | done].
    split; [done | intros [?|[?|?]]; congruence].
Qed.

(** The steps of an invocation up to the dispatch when Redis answers
    everything and something is new. *)
Lemma lambda_handler_healthy w :
  port_ok w = true -> faults w = [] -> token_ok w = true -> unseen w <> [] ->
  exists w3,
    env w3 = env w /\ subscribers w3 = subscribers w /\ replies w3 = replies w
    /\ faults w3 = []
    /\ strings w3 = saved (strings w) (clock (env w))
                          (current_concerts (get_concerts (upstream (env w))))
    /\ trace w3 = trace w ++ ERedis Ping true :: load_events (strings w) ++ save_events
    /\ (lambda_handler w).1
       = (BarbyConcertNotifier.notify_new_concerts (map FromParser (unseen w)) w3).1
    /\ (lambda_handler w).2 = Ok (Some success).
Proof.
  intros Hport Hf Htok Hnew.
  assert (wp lambda_handler
            (fun r w' =>
               r = Ok (Some success)
               /\ exists w3,
                    env w3 = env w /\ subscribers w3 = subscribers w
                    /\ replies w3 = replies w /\ faults w3 = []
                    /\ strings w3 = saved (strings w) (clock (env w))
                         (current_concerts (get_concerts (upstream (env w))))
                    /\ trace w3 = trace w
                         ++ ERedis Ping true :: load_events (strings w) ++ save_events
                    /\ w' = (BarbyConcertNotifier.notify_new_concerts
                               (map FromParser (unseen w)) w3).1) w) as Hwp.
  { unfold lambda_handler. apply wp_try, wp_bind, wp_logger.
    set (wa := add_log _ _ w).
    apply wp_bind, wp_redis_port_ok; [exact Hport|]. intros port. apply wp_bind.
    eapply wp_mono; [apply cache_init_spec|].
    intros r w1 (Hf1 & [(msg & Hm & _)|(_ & -> & Hfr1)]).
    { change (next_fault wa) with (next_fault w) in Hm.
      by rewrite next_fault_nil in Hm. }
    change (faults wa) with (faults w) in Hf1. rewrite Hf in Hf1. simpl in Hf1.
    assert (frame w w1 [ERedis Ping true]) as Hw1 by exact Hfr1. clear Hfr1.
    apply wp_bind. eapply wp_mono; [apply notifier_init_spec|].
    intros r w1' [-> Htok1].
    assert (token_ok w1 = true) as Htok1'.
    { unfold token_ok. destruct Hw1 as (-> & _). exact Htok. }
    rewrite Htok1' in Htok1. subst r.
    apply wp_bind, wp_logger. set (wb := add_log _ _ w1).
    apply wp_bind, wp_get_world.
    assert (env wb = env w) as -> by by destruct Hw1.
    unfold unseen, compute_new in Hnew.
    destruct (get_concerts (upstream (env w))) as [|c0 cs0] eqn:Econcerts; [done|].
    rewrite <- Econcerts in *.
    apply wp_bind, wp_logger. set (wc := add_log _ _ wb). apply wp_bind.
    assert (faults wc = []) as Hfc by exact Hf1.
    eapply wp_mono; [apply (load_last_state_trace wc Hfc)|].
    assert (strings wc = strings w) as Hsc by by destruct Hw1 as (_ & ? & _).
    rewrite Hsc.
    intros r w2 (-> & Hf2 & Hfr2).
    assert (frame w w2 (ERedis Ping true :: load_events (strings w))) as Hw2.
    { change (ERedis Ping true :: load_events (strings w))
        with ([ERedis Ping true] ++ load_events (strings w)).
      eapply frame_trans; [exact Hw1 | exact Hfr2]. }
    clear Hfr2. cbn [fst].
    destruct (new_concerts_loop (current_concerts (get_concerts (upstream (env w))))
                (loaded (strings w) (concert_keys (strings w)) ∅) [])
      as [|n0 ns] eqn:Enew; [done|].
    rewrite <- Enew.
    apply wp_bind, wp_bind, wp_logger. set (wd := add_log _ _ w2). apply wp_bind.
    assert (faults wd = []) as Hfd by exact Hf2.
    eapply wp_mono; [apply (save_state_healthy _ wd Hfd)|].
    intros r w3 (-> & Hf3 & Henv3 & Hsub3 & Hrep3 & Hstr3 & Htr3).
    destruct Hw2 as (Henv2 & Hstr2 & Hsub2 & Hrep2 & Htr2).
    change (env wd) with (env w2) in *. change (subscribers wd) with (subscribers w2) in *.
    change (replies wd) with (replies w2) in *. change (strings wd) with (strings w2) in *.
    change (trace wd) with (trace w2) in *.
    eapply wp_mono;
      [apply (wp_and _ _ _ _ (notify_new_concerts_spec _ w3) (wp_self _ w3))|].
    intros r w4 [(-> & _) Hrun]. apply wp_ret. split; [done|].
    assert (strings w3 = saved (strings w) (clock (env w))
              (current_concerts (get_concerts (upstream (env w))))) as Hstrings
      by (by rewrite Hstr3, Hstr2, Henv2).
    assert (trace w3 = trace w
              ++ ERedis Ping true :: load_events (strings w) ++ save_events) as Htrace
      by (rewrite Htr3, Htr2, <- app_assoc; done).
    assert (w4 = (BarbyConcertNotifier.notify_new_concerts
                    (map FromParser (unseen w)) w3).1) as Hw4
      by (unfold unseen, compute_new; by rewrite Hrun).
    exists w3. split_and!; first [done | congruence]. }
  unfold wp in Hwp. destruct Hwp as (Hr & w3 & ? & ? & ? & ? & ? & ? & Hw').
  exists w3. by split_and!.
Qed.

End Invocation.

Lemma quiet_refl w : quiet w w.
Proof. split; [done|]. exists []. by rewrite app_nil_r. Qed.

Lemma quiet_trans w1 w2 w3 : quiet w1 w2 -> quiet w2 w3 -> quiet w1 w3.
Proof.
  intros (Hs1 & t1 & Ht1 & Hq1) (Hs2 & t2 & Ht2 & Hq2). split; [congruence|].
  exists (t1 ++ t2). split; [|by apply Forall_app].
  by rewrite Ht2, Ht1, <- app_assoc.
Qed.

Lemma quiet_log w w' l text : quiet w w' -> quiet w (add_log l text w').
Proof. done. Qed.

Lemma quiet_frame w w' t :
  frame w w' t -> Forall (fun e => is_send e = false) t -> quiet w w'.
Proof. intros (_ & _ & Hs & _ & Ht) Hq. split; [done|]. by exists t. Qed.

Lemma quiet_reads w w' : reads w w' -> quiet w w'.
Proof.
  intros (t & Hfr & Hr). apply (quiet_frame _ _ t Hfr).
  eapply Forall_impl; [exact Hr|]. by intros [[]|].
Qed.

Section InvocationTheorems.
Context `{Builtins}.

Lemma lambda_handler_no_subscriber w :
  subscribers w = ∅ ->
  wp lambda_handler
     (fun r w' => exists t, trace w' = trace w ++ t
                            /\ Forall (fun e => is_send e = false) t) w.
Proof.
  intros Hempty.
  assert (forall w0 w1 : world, quiet w w0 -> trace w1 = trace w0 ->
            exists t, trace w1 = trace w ++ t
                      /\ Forall (fun e => is_send e = false) t) as Hend.
  { intros w0 w1 (_ & t & Ht & Hq) Htr. exists t. split; [congruence | done]. }
  unfold lambda_handler. apply wp_try, wp_bind, wp_logger.
  set (wa := add_log _ _ w). apply wp_bind, wp_getenv_redis_port.
  destruct (redis_port (env wa)) as [port|e].
  2:{ apply wp_bind, wp_logger, wp_ret. apply (Hend w); [apply quiet_refl | done]. }
  apply wp_bind.
  eapply wp_mono; [apply cache_init_spec|].
  intros r w1 (_ & Hinit).
  assert (quiet w w1) as Hq1.
  { destruct Hinit as [(msg & _ & _ & Hfr)|(_ & _ & Hfr)];
      apply (quiet_frame _ _ _ Hfr); by repeat constructor. }
  destruct Hinit as [(msg & _ & -> & _)|(_ & -> & _)].
  { apply wp_bind, wp_logger, wp_ret. by apply (Hend w1). }
  apply wp_bind. eapply wp_mono; [apply notifier_init_spec|].
  intros r w1' [-> Htok]. destruct (token_ok w1).
  2:{ destruct Htok as [e ->]. apply wp_bind, wp_logger, wp_ret. by apply (Hend w1). }
  subst r. apply wp_bind, wp_logger. set (wb := add_log _ _ w1).
  apply wp_bind, wp_get_world.
  destruct (get_concerts (upstream (env wb))) as [|c0 cs0].
  { apply wp_ret. by apply (Hend w1). }
  apply wp_bind, wp_logger. set (wc := add_log _ _ wb). apply wp_bind.
  eapply wp_mono; [apply load_last_state_reads|].
  intros r w2 ([[last lc] ->] & Hreads).
  assert (quiet w w2) as Hq2.
  { eapply quiet_trans; [exact Hq1|]. by apply quiet_reads. }
  cbn [fst].
  destruct (new_concerts_loop _ last []) as [|n0 ns].
  { apply wp_bind, wp_logger, wp_ret. by apply (Hend w2). }
  apply wp_bind, wp_bind, wp_logger. set (wd := add_log _ _ w2). apply wp_bind.
  eapply wp_mono; [apply save_state_spec|].
  intros r w3 (-> & _ & Hsub3 & _ & t_save & Htr3 & Hsave).
  assert (quiet w w3) as Hq3.
  { eapply quiet_trans; [exact Hq2|]. split; [exact Hsub3|].
    exists t_save. split; [exact Htr3|].
    destruct Hsave as [[-> _]|[[-> _]|[-> _]]]; by repeat constructor. }
  eapply wp_mono; [apply notify_new_concerts_spec|].
  intros r w4 (-> & _ & _ & t & Htr4 & _ & Hshape). apply wp_ret.
  cbn [map] in Hshape. destruct Hshape as (ok & t' & -> & _ & Hnone & _).
  assert (size (subscribers w3) = 0%nat) as Hsize.
  { destruct Hq3 as (-> & _). rewrite Hempty. apply map_size_empty. }
  rewrite Hnone in Htr4 by by right.
  destruct Hq3 as (_ & t3 & Ht3 & Hq3). exists (t3 ++ [ERedis Hlen ok]). split.
  - by rewrite Htr4, Ht3, <- app_assoc.
  - apply Forall_app. split; [done | by repeat constructor].
Qed.

(** X25. With nobody subscribed an invocation calls the Bot API not once,
    whatever Redis does; and when Redis answers, the port is a number,
    the token is set and the listing has something new, it saves the
    listing as the snapshot all the same, so that every listed show is
    in the snapshot afterwards. *)
Theorem nothing_sent_without_subscribers w w' r :
  subscribers w = ∅ -> lambda_handler w = (w', r) ->
  Forall (fun e => is_send e = false) (drop (length (trace w)) (trace w'))
  /\ (faults w = [] -> port_ok w = true -> token_ok w = true -> unseen w <> [] ->
      strings w' = saved (strings w) (clock (env w))
                         (current_concerts (get_concerts (upstream (env w))))
      /\ forall c, c ∈ get_concerts (upstream (env w)) ->
                   is_Some (strings w' !! get_concert_key (show_id c))).
Proof.
  intros Hempty Hrun. split.
  - pose proof (wp_run _ _ _ _ _ (lambda_handler_no_subscriber w Hempty) Hrun)
      as (t & -> & Hq).
    by rewrite drop_app_length.
  - intros Hf Hport Htok Hnew.
    destruct (lambda_handler_healthy w Hport Hf Htok Hnew)
      as (w3 & _ & _ & _ & _ & Hstr3 & _ & Hw' & _).
    rewrite Hrun in Hw'. simpl in Hw'.
    destruct (BarbyConcertNotifier.notify_new_concerts (map FromParser (unseen w)) w3)
      as [w4 r4] eqn:E4.
    pose proof (wp_run _ _ _ _ _ (notify_new_concerts_spec _ w3) E4) as (_ & _ & Hstr4 & _).
    simpl in Hw'. subst w4. rewrite Hstr4, Hstr3. split; [done|].
    intros c Hc. apply saved_has_key. by apply current_concerts_has_key.
Qed.

(** X26. An invocation in which everything answers: when Redis and the Bot
    API answer every call, the port is a number, the token is set,
    somebody is subscribed and
    the load finds some listed show missing from the snapshot, the
    invocation returns the success response, having pinged Redis,
    loaded the snapshot, saved the listing as the new snapshot, counted
    the subscribers and then sent every new concert to every subscriber;
    it does these in that order and nothing else, and the registry is
    as it was. *)
Theorem healthy_run_end_to_end w :
  faults w = [] -> replies w = [] -> port_ok w = true -> token_ok w = true ->
  subscribers w <> ∅ -> unseen w <> [] ->
  exists w',
    lambda_handler w = (w', Ok (Some success))
    /\ strings w' = saved (strings w) (clock (env w))
                          (current_concerts (get_concerts (upstream (env w))))
    /\ subscribers w' = subscribers w
    /\ trace w' = trace w
         ++ ERedis Ping true :: load_events (strings w) ++ save_events
         ++ ERedis Hlen true
            :: dispatch_events (map FromParser (unseen w))
                               (map snd (map_to_list (subscribers w))).
Proof.
  intros Hf Hr Hport Htok Hsub Hnew.
  destruct (lambda_handler_healthy w Hport Hf Htok Hnew)
    as (w3 & _ & Hsub3 & Hrep3 & Hf3 & Hstr3 & Htr3 & Hw' & Hres).
  destruct (lambda_handler w) as [w' r] eqn:E. simpl in Hw', Hres. subst r.
  destruct (BarbyConcertNotifier.notify_new_concerts (map FromParser (unseen w)) w3)
    as [w4 r4] eqn:E4.
  assert (map FromParser (unseen w) <> []) as Hitems.
  { destruct (unseen w); [done | discriminate]. }
  assert (replies w3 = []) as Hr3 by congruence.
  assert (subscribers w3 <> ∅) as Hs3 by congruence.
  pose proof (wp_run _ _ _ _ _ (notify_new_concerts_quiet _ w3 Hitems Hf3 Hr3 Hs3) E4)
    as (_ & Hstr4 & Hsub4 & Htr4).
  simpl in Hw'. subst w4. exists w'.
  split_and!; [reflexivity | congruence | congruence |].
  rewrite Htr4, Htr3, Hsub3, <- !app_assoc. cbn [app]. by rewrite <- !app_assoc.
Qed.

Lemma lambda_handler_nothing_new w :
  port_ok w = true -> faults w = [] -> token_ok w = true ->
  get_concerts (upstream (env w)) <> [] -> unseen w = [] ->
  wp lambda_handler
     (fun r w' =>
        r = Ok (Some success)
        /\ frame w w' (ERedis Ping true :: load_events (strings w))) w.
Proof.
  intros Hport Hf Htok Hlisted Hnew.
  unfold lambda_handler. apply wp_try, wp_bind, wp_logger.
  set (wa := add_log _ _ w).
  apply wp_bind, wp_redis_port_ok; [exact Hport|]. intros port. apply wp_bind.
  eapply wp_mono; [apply cache_init_spec|].
  intros r w1 (Hf1 & [(msg & Hm & _)|(_ & -> & Hfr1)]).
  { change (next_fault wa) with (next_fault w) in Hm.
    by rewrite next_fault_nil in Hm. }
  change (faults wa) with (faults w) in Hf1. rewrite Hf in Hf1. simpl in Hf1.
  assert (frame w w1 [ERedis Ping true]) as Hw1 by exact Hfr1. clear Hfr1.
  apply wp_bind. eapply wp_mono; [apply notifier_init_spec|].
  intros r w1' [-> Htok1].
  assert (token_ok w1 = true) as Htok1'.
  { unfold token_ok. destruct Hw1 as (-> & _). exact Htok. }
  rewrite Htok1' in Htok1. subst r.
  apply wp_bind, wp_logger. set (wb := add_log _ _ w1).
  apply wp_bind, wp_get_world.
  assert (env wb = env w) as -> by by destruct Hw1.
  unfold unseen, compute_new in Hnew.
  destruct (get_concerts (upstream (env w))) as [|c0 cs0] eqn:Econcerts; [done|].
  rewrite <- Econcerts in *.
  apply wp_bind, wp_logger. set (wc := add_log _ _ wb). apply wp_bind.
  assert (faults wc = []) as Hfc by exact Hf1.
  eapply wp_mono; [apply (load_last_state_trace wc Hfc)|].
  assert (strings wc = strings w) as Hsc by by destruct Hw1 as (_ & ? & _).
  rewrite Hsc.
  intros r w2 (-> & Hf2 & Hfr2).
  assert (frame w w2 (ERedis Ping true :: load_events (strings w))) as Hw2.
  { change (ERedis Ping true :: load_events (strings w))
      with ([ERedis Ping true] ++ load_events (strings w)).
    eapply frame_trans; [exact Hw1 | exact Hfr2]. }
  cbn [fst]. rewrite Hnew.
  apply wp_bind, wp_logger, wp_ret. split; [done|]. by apply frame_log.
Qed.

(** X27. An invocation that finds nothing new only reads: when Redis answers,
    the port is a number, the token is set, the listing is not empty and
    the load finds every
    listed show in the snapshot, the invocation pings Redis, loads the
    snapshot and returns the success response. It does not save: the
    snapshot and its metadata, with the time of the last check, stay as
    they were, and neither the registry nor the Bot API is touched. *)
Theorem unchanged_listing_is_only_read w :
  faults w = [] -> port_ok w = true -> token_ok w = true ->
  get_concerts (upstream (env w)) <> [] -> unseen w = [] ->
  exists w',
    lambda_handler w = (w', Ok (Some success))
    /\ strings w' = strings w /\ subscribers w' = subscribers w
    /\ replies w' = replies w
    /\ trace w' = trace w ++ ERedis Ping true :: load_events (strings w).
Proof.
  intros Hf Hport Htok Hlisted Hnew.
  destruct (lambda_handler w) as [w' r] eqn:E.
  pose proof (wp_run _ _ _ _ _ (lambda_handler_nothing_new w Hport Hf Htok Hlisted Hnew) E)
    as (-> & _ & Hstr & Hsub & Hrep & Htr).
  by exists w'.
Qed.

(** X28. When the first command of the load fails, the load returns the
    empty dict and no time; against the empty dict every listed show is
    new: the diff is then the whole listing, one record per show id,
    and the listing itself if no id is repeated. *)
Theorem failed_load_makes_everything_new w msg (concerts : list Concert) :
  next_fault w = Some msg ->
  exists w',
    load_last_state w = (w', Ok (∅, None))
    /\ strings w' = strings w
    /\ compute_new concerts (∅ : gmap pystr json_doc) = (current_concerts concerts).*2
    /\ (NoDup (show_id <$> concerts) ->
        compute_new concerts (∅ : gmap pystr json_doc) = concerts).
Proof.
  intros Hnf.
  destruct (load_last_state w) as [w' r] eqn:E.
  assert (wp load_last_state
            (fun r w' => r = Ok (∅, None) /\ strings w' = strings w) w) as Hwp.
  { unfold load_last_state, load_body. apply wp_try, wp_bind, wp_redis.
    - intros msg' _. apply wp_bind, wp_logger, wp_ret. by split.
    - intros Hn. congruence. }
  pose proof (wp_run _ _ _ _ _ Hwp E) as (-> & Hs).
  exists w'. split_and!; [done | done | |].
  - unfold compute_new. rewrite new_concerts_loop_filter. simpl.
    f_equal. induction (current_concerts concerts) as [|kv l IH]; [done|].
    rewrite filter_cons, decide_True by apply lookup_empty. by rewrite IH.
  - intros Hnd. rewrite compute_new_filter by done.
    induction concerts as [|c l IH]; [done|].
    rewrite filter_cons, decide_True by apply lookup_empty.
    f_equal. apply IH. by apply NoDup_cons in Hnd as [_ ?].
Qed.

End InvocationTheorems.

(** ** The text of a notification *)

Lemma split_ws_words cur s :
  Forall (fun c => Str.isspace c = false) cur -> Forall word (Str.split_ws cur s).
Proof.
  revert cur. induction s as [|c s IH]; intros cur Hcur; simpl.
  - destruct cur as [|a cur]; [constructor|]. constructor; [|constructor]. split.
    + intros Hnil. apply (f_equal (@length N)) in Hnil.
      rewrite length_rev in Hnil. discriminate.
    + by apply Forall_rev.
  - destruct (Str.isspace c) eqn:Ec.
    + destruct cur as [|a cur]; [by apply IH|]. constructor; [|by apply IH]. split.
      * intros Hnil. apply (f_equal (@length N)) in Hnil.
        rewrite length_rev in Hnil. discriminate.
      * by apply Forall_rev.
    + apply IH. by constructor.
Qed.

Lemma split_ws_nonempty cur s :
  cur <> [] \/ (exists c, c ∈ s /\ Str.isspace c = false) -> Str.split_ws cur s <> [].
Proof.
  revert cur. induction s as [|c s IH]; intros cur Hsrc; simpl.
  - destruct Hsrc as [Hcur|(c & Hc & _)]; [by destruct cur|]. by apply elem_of_nil in Hc.
  - destruct (Str.isspace c) eqn:Ec.
    + destruct cur as [|a cur]; [|done]. apply IH. right.
      destruct Hsrc as [?|(c' & Hc' & Hns)]; [done|].
      apply elem_of_cons in Hc' as [->|Hc']; [congruence|]. by exists c'.
    + apply IH. by left.
Qed.

Lemma lstrip_elem s c : c ∈ Str.lstrip s -> c ∈ s.
Proof.
  induction s as [|a s IH]; simpl; [done|].
  destruct (Str.isspace a); [|done]. intros Hc. right. by apply IH.
Qed.

Lemma lstrip_nonspace s :
  Str.lstrip s <> [] -> exists c, c ∈ s /\ Str.isspace c = false.
Proof.
  induction s as [|a s IH]; simpl; [done|].
  destruct (Str.isspace a) eqn:Ea.
  - intros Hne. destruct (IH Hne) as (c & Hc & Hns). exists c. split; [by right | done].
  - intros _. exists a. split; [left | done].
Qed.

Lemma strip_nonspace s :
  Str.strip s <> [] -> exists c, c ∈ s /\ Str.isspace c = false.
Proof.
  unfold Str.strip, Str.rstrip. intros Hne.
  assert (Str.lstrip (rev (Str.lstrip s)) <> []) as Hne'.
  { intros Hnil. apply Hne. by rewrite Hnil. }
  destruct (lstrip_nonspace _ Hne') as (c & Hc & Hns). exists c. split; [|done].
  apply lstrip_elem. apply list_elem_of_In, in_rev. by apply list_elem_of_In.
Qed.

Lemma space_literal : u8" " = [32%N].
Proof. reflexivity. Qed.

Lemma join_words (parts : list pystr) :
  Forall word parts ->
  Forall (fun c => Str.isspace c = true -> c = 32%N) (Str.join (u8" ") parts)
  /\ (parts <> [] -> Str.join (u8" ") parts <> []).
Proof.
  assert (forall p, word p -> Forall (fun c => Str.isspace c = true -> c = 32%N) p) as Hword.
  { intros p [_ Hp]. eapply Forall_impl; [exact Hp|]. intros c Hc Hs. congruence. }
  induction 1 as [|p parts Hp Hparts [IH _]]; [split; [constructor | done]|].
  destruct parts as [|q parts].
  - split; [by apply Hword|]. intros _. apply Hp.
  - change (Str.join (u8" ") (p :: q :: parts))
      with (p ++ u8" " ++ Str.join (u8" ") (q :: parts)).
    split.
    + apply Forall_app. split; [by apply Hword|]. rewrite space_literal.
      constructor; [done | exact IH].
    + intros _ Hnil. apply app_eq_nil in Hnil as [Hnil _]. by destruct Hp.
Qed.

Lemma word_head p :
  word p -> exists b p', p = b :: p' /\ Str.isspace b = false.
Proof.
  intros [Hne Hall]. destruct p as [|b p']; [done|].
  apply Forall_cons in Hall as [Hb _]. by exists b, p'.
Qed.

Lemma word_last p :
  word p -> exists p' a, p = p' ++ [a] /\ Str.isspace a = false.
Proof.
  intros [Hne Hall]. destruct p as [|a p' _] using rev_ind; [done|].
  apply Forall_app in Hall as [_ Ha]. apply Forall_cons in Ha as [Ha _].
  by exists p', a.
Qed.

Lemma join_single_spaced p (parts : list pystr) :
  word p -> Forall word parts ->
  (exists b t', Str.join (u8" ") (p :: parts) = b :: t' /\ Str.isspace b = false)
  /\ (exists t' a, Str.join (u8" ") (p :: parts) = t' ++ [a] /\ Str.isspace a = false)
  /\ single_spaced (Str.join (u8" ") (p :: parts)).
Proof.
  rewrite space_literal. intros Hp Hparts. revert p Hp.
  induction Hparts as [|q parts Hq Hparts IH]; intros p Hp.
  - change (Str.join [32%N] [p]) with p. split_and!.
    + by apply word_head.
    + by apply word_last.
    + intros pre c post -> Hc. destruct Hp as [_ Hp].
      apply Forall_app in Hp as [_ Hp]. apply Forall_cons in Hp as [Hp _]. congruence.
  - change (Str.join [32%N] (p :: q :: parts))
      with (p ++ 32%N :: Str.join [32%N] (q :: parts)).
    destruct (IH q Hq) as ((b2 & t2 & Hhead & Hb2) & (t3 & a3 & Hlast & Ha3) & Hss).
    set (rest := Str.join [32%N] (q :: parts)) in *.
    destruct (word_head p Hp) as (b & p' & Hpb & Hb).
    destruct (word_last p Hp) as (p'' & a & Hpa & Ha).
    split_and!.
    + exists b, (p' ++ 32%N :: rest). split; [|done]. by rewrite Hpb.
    + exists (p ++ 32%N :: t3), a3. split; [|done].
      rewrite Hlast, <- app_assoc. done.
    + intros pre c post Heq Hc.
      apply app_eq_app in Heq as [l [[Hl Hr]|[Hl Hr]]].
      * destruct l as [|x l]; simpl in Hr.
        -- injection Hr as -> ->. rewrite app_nil_r in Hl. subst pre.
           split; [done|]. exists a, p'', b2, t2. by split_and!.
        -- exfalso. injection Hr as <- _. destruct Hp as [_ Hall]. rewrite Hl in Hall.
           apply Forall_app in Hall as [_ Hall].
           apply Forall_cons in Hall as [Hall _]. congruence.
      * destruct l as [|x l]; simpl in Hr.
        -- injection Hr as <- <-. rewrite app_nil_r in Hl. subst pre.
           split; [done|]. exists a, p'', b2, t2. by split_and!.
        -- injection Hr as <- Hr.
           destruct (Hss l c post Hr Hc) as (-> & a' & l' & b' & post' & -> & -> & ? & ?).
           split; [done|]. exists a', (p ++ 32%N :: l'), b', post'.
           split_and!; try done. rewrite Hl, <- app_assoc. done.
Qed.

Section Rendering.
Context `{Builtins}.

(** X29. The title of a notification is one line of single-spaced
    words: when the message has a title line, the title in it is not
    empty and holds no line break, and every whitespace character in it
    is a U+0020 that stands alone between two characters that are not
    whitespace, whatever whitespace the upstream title has; the line
    ends where the title ends. *)
Theorem title_line_is_one_line (concert : show_dict) :
  title_line concert = []
  \/ exists t, title_line concert = u8"📝 <i>" ++ t ++ u8"</i>" ++ nl
               /\ t <> []
               /\ Forall (fun c => Str.isspace c = true -> c = 32%N) t
               /\ (10%N ∉ t)
               /\ single_spaced t.
Proof.
  unfold title_line. destruct (title_shown concert) eqn:Eshown; [|by left].
  right. exists (Str.join (u8" ") (Str.split (display_title concert))).
  split; [done|].
  assert (Forall word (Str.split (display_title concert))) as Hwords.
  { apply split_ws_words. constructor. }
  assert (Str.split (display_title concert) <> []) as Hsome.
  { apply split_ws_nonempty. right. apply strip_nonspace.
    unfold title_shown in Eshown.
    apply andb_true_iff in Eshown as [_ Hlen]. apply Nat.ltb_lt in Hlen.
    intros Hnil. rewrite Hnil in Hlen. simpl in Hlen. lia. }
  destruct (join_words _ Hwords) as [Hspaces Hne].
  split_and!.
  - by apply Hne.
  - exact Hspaces.
  - intros Hin. rewrite Forall_forall in Hspaces.
    specialize (Hspaces _ Hin eq_refl). discriminate.
  - destruct (Str.split (display_title concert)) as [|p parts]; [done|].
    apply Forall_cons in Hwords as [Hp Hparts].
    by destruct (join_single_spaced p parts Hp Hparts) as (_ & _ & ?).
Qed.

(** X30. What the notifier shows of a raw show object is what [parse_show]
    records of it: the link is the record's [url], the sold-out mark its
    [is_sold_out], the artist its [artist] stripped, the price and the
    date its [price] and [datetime] with "TBA" in place of an empty
    one, and the image that of its [raw_data], which is the object
    itself. *)
Theorem parsed_record_agrees_with_renderer (r : RawShow) :
  show_url (FromApi r) = url (parse_show r)
  /\ is_sold_out_of (FromApi r) = is_sold_out (parse_show r)
  /\ artist_of (FromApi r) = Str.strip (artist (parse_show r))
  /\ price_text (FromApi r)
     = (if Str.truthy (price (parse_show r))
        then u8"₪" ++ price (parse_show r) else u8"TBA")
  /\ datetime_str (FromApi r) = Str.or_else (datetime (parse_show r)) (u8"TBA")
  /\ raw_data (parse_show r) = Some r.
Proof.
  unfold show_url, is_sold_out_of, artist_of, price_text, datetime_str, parse_show,
    api_field, dict_get.
  cbn [url is_sold_out artist price datetime raw_data].
  split_and!; try done.
  destruct (default [] (showDate r)) as [|c d]; [done|].
  destruct (default [] (showTime r)) as [|c' t]; done.
Qed.

End Rendering.

(** * The properties on the sample data *)

#[local] Existing Instance ascii_builtins.

(** The notification of the sample show, as the notifier renders the
    show object itself. *)
Lemma real_concert_image :
  get_concert_image_url (FromApi real_concert)
  = Some (u8"https://images.barby.co.il/Logos/מושיק.jpg").
Proof. vm_compute. reflexivity. Qed.

(** Witness of C1: three listed shows, the second one already known under
    another price. *)
Lemma diff_is_the_unseen_sublist_witness :
  NoDup (show_id <$> [show_a; show_b; show_c])
  /\ compute_new [show_a; show_b; show_c] {[ u8"5290" := show_b_before ]}
     = [show_a; show_c].
Proof.
  assert (NoDup (show_id <$> [show_a; show_b; show_c])) as Hnd by compute_done.
  split; [exact Hnd|].
  rewrite (proj1 (diff_is_the_unseen_sublist [show_a; show_b; show_c]
                    {[ u8"5290" := show_b_before ]} Hnd)).
  vm_compute. reflexivity.
Defined.



(** Counterexample of C3. In [save_fails] the diff is not empty and the
    notification is sent with no save completed before it; the second
    invocation, on the same listing, notifies again. In [reload_fails]
    the save goes through and the delivery fails; at the second
    invocation the load fails, every listed show counts as new and is
    notified again. *)
Lemma notified_again_on_the_same_listing :
  (trace (lambda_handler save_fails).1
   = [ERedis Ping true;
      ERedis (Keys concert_prefix) true; ERedis (Get get_metadata_key) true;
      ERedis (Keys concert_prefix) true; ERedis Exec false;
      ERedis Hlen true; ERedis Hgetall true;
      ESend (SendMessage 1 unknown_message) None]
   /\ second_run save_fails
      = [ERedis Ping true;
         ERedis (Keys concert_prefix) true; ERedis (Get get_metadata_key) true;
         ERedis (Keys concert_prefix) true; ERedis Exec true;
         ERedis Hlen true; ERedis Hgetall true;
         ESend (SendMessage 1 unknown_message) None])
  /\ (trace (lambda_handler reload_fails).1
      = [ERedis Ping true;
         ERedis (Keys concert_prefix) true; ERedis (Get get_metadata_key) true;
         ERedis (Keys concert_prefix) true; ERedis Exec true;
         ERedis Hlen true; ERedis Hgetall true;
         ESend (SendMessage 1 unknown_message) (Some timed_out)]
      /\ env (lambda_handler reload_fails).1 = env reload_fails
      /\ second_run reload_fails
         = [ERedis Ping true; ERedis (Keys concert_prefix) false;
            ERedis (Keys concert_prefix) true; ERedis Exec true;
            ERedis Hlen true; ERedis Hgetall true;
            ESend (SendMessage 1 unknown_message) None]).
Proof. split_and!; vm_compute; reflexivity. Qed.

(** Witness of C3, amended: the save goes through, the delivery fails,
    and the second invocation only reads. *)
Lemma save_before_notify_witness :
  ERedis Exec true ∈ trace (lambda_handler delivery_fails).1
  /\ exists w1',
       lambda_handler (lambda_handler delivery_fails).1 = (w1', Ok (Some success))
       /\ reads (lambda_handler delivery_fails).1 w1'.
Proof.
  assert (ERedis Exec true ∈ trace (lambda_handler delivery_fails).1) as Hexec
    by compute_done.
  split; [exact Hexec|].
  apply (proj2 (save_before_notify delivery_fails (lambda_handler delivery_fails).1 _
                  (trace (lambda_handler delivery_fails).1)
                  (surjective_pairing _) eq_refl Hexec)).
  - vm_compute. reflexivity.
  - reflexivity.
  - vm_compute. reflexivity.
  - apply Forall_forall. compute_done.
Defined.

(** The second invocation of that witness, event by event. *)
Lemma second_run_after_failed_delivery :
  second_run delivery_fails
  = [ERedis Ping true; ERedis (Keys concert_prefix) true;
     ERedis (Get (get_concert_key (u8"5286"))) true;
     ERedis (Get get_metadata_key) true].
Proof. vm_compute. reflexivity. Qed.

(** A show id with a colon in it is stored under [barby:concert:52:86]
    and loaded as ["86"]: the show is found new, and notified, at every
    invocation. *)
Lemma show_id_with_colon_is_new_again :
  second_run colon_id
  = [ERedis Ping true; ERedis (Keys concert_prefix) true;
     ERedis (Get (get_concert_key (u8"52:86"))) true;
     ERedis (Get get_metadata_key) true;
     ERedis (Keys concert_prefix) true; ERedis Exec true;
     ERedis Hlen true; ERedis Hgetall true;
     ESend (SendMessage 1 unknown_message) None].
Proof. vm_compute. reflexivity. Qed.

(** Counterexample of C4. In [three_subscribers] the text retry to
    subscriber 2 fails with the message of a blocked bot, and subscriber
    2, who got two attempts, is still registered after the pass. In
    [removal_fails] the first attempt to subscriber 1 fails with that
    message, the registry raises on the removal, and subscriber 1 is
    still registered. *)
Lemma blocked_subscriber_still_registered :
  invalid_subscriber_error blocked = true
  /\ (trace (send_concert_notification (FromApi real_concert) three_subscribers).1
      = [ERedis Hgetall true;
         ESend (photo_to 3) (Some blocked); ERedis (Hdel 3) true;
         ESend (photo_to 2) (Some bad_photo); ESend (text_to 2) (Some blocked);
         ESend (photo_to 1) None]
      /\ subscribers (send_concert_notification (FromApi real_concert) three_subscribers).1
         = registry [1; 2])
  /\ (trace (send_concert_notification (FromApi real_concert) removal_fails).1
      = [ERedis Hgetall true; ESend (photo_to 1) (Some blocked); ERedis (Hdel 1) false]
      /\ subscribers (send_concert_notification (FromApi real_concert) removal_fails).1
         = registry [1]).
Proof. split_and!; vm_compute; reflexivity. Qed.

(** Witness of C4, amended. *)
Lemma permanent_failure_cleanup_witness :
  wf_registry (subscribers three_subscribers)
  /\ next_fault three_subscribers = None
  /\ (send_concert_notification (FromApi real_concert) three_subscribers).2 = Ok tt.
Proof.
  assert (wf_registry (subscribers three_subscribers)) as Hwf by compute_done.
  split_and!; [exact Hwf | reflexivity |].
  exact (proj1 (permanent_failure_cleanup (FromApi real_concert) three_subscribers
                  _ _ Hwf eq_refl (surjective_pairing _))).
Defined.

(** Witness of C5: the photo fails on its dimensions, the text retry is
    refused as well; nothing more is sent and nobody is removed. *)
Lemma attachment_fallback_witness :
  replies photo_fails = [Some bad_photo; Some timed_out]
  /\ photo_error bad_photo = true
  /\ exists w' removal,
       deliver (format_single_concert_message (FromApi real_concert))
               (Some (u8"https://images.barby.co.il/Logos/מושיק.jpg"))
               (subscriber 7) photo_fails = (w', Ok tt)
       /\ trace w' = trace photo_fails
            ++ [ESend (photo_to 7) (Some bad_photo);
                ESend (text_to 7) (Some timed_out)]
            ++ removal
       /\ Forall (fun ev => is_send ev = false) removal
       /\ (invalid_subscriber_error bad_photo = false ->
           removal = [] /\ subscribers w' = subscribers photo_fails).
Proof.
  assert (photo_error bad_photo = true) as Hphoto by (vm_compute; reflexivity).
  split_and!; [reflexivity | exact Hphoto |].
  exact (attachment_fallback (format_single_concert_message (FromApi real_concert))
           (u8"https://images.barby.co.il/Logos/מושיק.jpg")
           (subscriber 7) photo_fails bad_photo [Some timed_out] eq_refl Hphoto).
Defined.



(** C8. The code at the failing input: a sold-out show with a price, a
    date and a title is listed and is new; the record [parse_show] makes
    of it says so; the notification the invocation sends for it is the
    text rendered for a record without any of these, as for every
    parsed record: no artist, no title line, "TBA" for the date and the
    price, no sold-out mark. *)
Theorem parsed_record_renders_blank :
  (is_sold_out show_c = true /\ price show_c = u8"75"
   /\ date show_c = u8"03/09/2025" /\ artist show_c = u8"Artist 5301"
   /\ full_title show_c = u8"A full evening")
  /\ trace (lambda_handler sold_out_listed).1
     = [ERedis Ping true;
        ERedis (Keys concert_prefix) true; ERedis (Get get_metadata_key) true;
        ERedis (Keys concert_prefix) true; ERedis Exec true;
        ERedis Hlen true; ERedis Hgetall true;
        ESend (SendMessage 1 unknown_message) None]
  /\ format_single_concert_message (FromParser show_c) = unknown_message
  /\ status (FromParser show_c) = []
  /\ title_shown (FromParser show_c) = false.
Proof. split_and!; vm_compute; reflexivity. Qed.

(** The same show handed to the notifier as the upstream object: every
    field is rendered. *)
Lemma listed_show_renders_in_full :
  format_single_concert_message
    (FromApi (show_of (u8"5301") (u8"03/09/2025") (u8"75")))
  = u8"🆕 <b>הופעה חדשה בבארבי!</b>" ++ nl ++ nl
    ++ u8"🎵 <b>Artist 5301</b>" ++ nl
    ++ u8"📝 <i>A full evening</i>" ++ nl
    ++ u8"📅 03/09/2025 21:00" ++ nl
    ++ u8"💰 ₪75 🔴 <b>אזל כרטיסים</b>" ++ nl
    ++ u8"🎫 <a href=" ++ dquote ++ u8"https://barby.co.il/show/5301" ++ dquote
    ++ u8">קניית כרטיסים</a>" ++ nl ++ nl
    ++ u8"🔔 הודעה מבוט התראות בארבי".
Proof. vm_compute. reflexivity. Qed.

(** Counterexample of C9: removing a subscriber who is there and one who
    is not returns the same [None]. *)
Lemma remove_subscriber_returns_none :
  subscribers delivery_fails !! 1 = Some (subscriber 1)
  /\ (remove_subscriber 1 delivery_fails).2 = Ok None
  /\ subscribers (remove_subscriber 1 delivery_fails).1 !! 1 = None
  /\ subscribers delivery_fails !! 2 = None
  /\ (remove_subscriber 2 delivery_fails).2 = Ok None.
Proof. split_and!; vm_compute; reflexivity. Qed.

(** Witness of C10. *)
Lemma registry_unreachable_witness :
  faults registry_down = [Some connection_lost]
  /\ (exists w', get_subscriber_count registry_down = (w', Ok 0))
  /\ (exists w', get_all_subscribers registry_down = (w', Ok []))
  /\ (forall items, exists w',
        notify_new_concerts items registry_down = (w', Ok tt)
        /\ replies w' = replies registry_down
        /\ trace w' = trace registry_down
             ++ match items with [] => [] | _ => [ERedis Hlen false] end)
  /\ (forall concert, exists w',
        send_concert_notification concert registry_down = (w', Ok tt)
        /\ replies w' = replies registry_down
        /\ trace w' = trace registry_down ++ [ERedis Hgetall false]).
Proof.
  split; [reflexivity|].
  exact (registry_unreachable registry_down connection_lost [] eq_refl).
Defined.

(** ** The further properties on the sample data *)

(** With a horizon of one day only the show of 01/09/2025 is upcoming on
    31/08/2025; a horizon of two days adds the show of the day after. *)
Lemma upcoming_concerts_monotone_witness :
  1 <= 2
  /\ sublist (get_upcoming_concerts last_of_august 1 three_shows)
             (get_upcoming_concerts last_of_august 2 three_shows).
Proof.
  split; [lia|].
  apply (upcoming_concerts_monotone last_of_august 1 2 three_shows). lia.
Defined.

(** A save over a keyspace that holds another snapshot and a foreign
    key. *)
Lemma save_state_replaces_snapshot_witness :
  NoDup (current_concerts [show_a; show_b]).*1
  /\ forall k,
       strings (save_state (current_concerts [show_a; show_b]) stale_snapshot).1 !! k
       = after_save (strings stale_snapshot) (clock (env stale_snapshot))
                    (current_concerts [show_a; show_b]) k.
Proof.
  assert (NoDup (current_concerts [show_a; show_b]).*1) as Hnd by compute_done.
  split; [exact Hnd|].
  apply (save_state_replaces_snapshot (current_concerts [show_a; show_b])
           stale_snapshot _ _ Hnd (surjective_pairing _)).
  vm_compute. reflexivity.
Defined.

Lemma save_then_load_round_trip_witness :
  faults one_subscriber = []
  /\ (forall c, c ∈ [show_a; show_b] -> 58%N ∉ show_id c)
  /\ exists w1 w2,
       save_state (current_concerts [show_a; show_b]) one_subscriber = (w1, Ok tt)
       /\ load_last_state w1
          = (w2, Ok (JConcert ∘ concert_copy <$> snapshot_from [show_a; show_b],
                     Some (clock (env one_subscriber))))
       /\ strings w2 = strings w1.
Proof.
  assert (forall c, c ∈ [show_a; show_b] -> 58%N ∉ show_id c) as Hcolon.
  { apply Forall_forall. compute_done. }
  split_and!; [reflexivity | exact Hcolon |].
  exact (save_then_load_round_trip [show_a; show_b] one_subscriber eq_refl Hcolon).
Defined.

(** The load reads the first of two stored concerts and fails on the
    second: it returns the empty dict. *)
Lemma load_all_or_nothing_witness :
  (Forall (fun e => answered e = true) (trace (load_last_state read_breaks).1)
   /\ (load_last_state read_breaks).2
      = Ok (loaded (strings read_breaks) (concert_keys (strings read_breaks)) ∅,
            stored_last_check (strings read_breaks)))
  \/ ((exists t0 cmd, trace (load_last_state read_breaks).1 = t0 ++ [ERedis cmd false])
      /\ (load_last_state read_breaks).2 = Ok (∅, None)).
Proof.
  apply (load_all_or_nothing read_breaks (load_last_state read_breaks).1
           (load_last_state read_breaks).2 (trace (load_last_state read_breaks).1)).
  - apply surjective_pairing.
  - reflexivity.
Defined.

Lemma registry_stays_well_formed_witness :
  wf_registry (subscribers three_subscribers)
  /\ wf_registry (subscribers (lambda_handler three_subscribers).1)
  /\ wf_registry
       (subscribers (BarbyTelegramBot.subscribe_command from_dana three_subscribers).1).
Proof.
  assert (wf_registry (subscribers three_subscribers)) as Hwf by compute_done.
  destruct (registry_stays_well_formed three_subscribers Hwf)
    as (_ & _ & Hcommands & _ & Hhandler).
  split_and!; [exact Hwf | exact Hhandler | exact (proj1 (Hcommands from_dana))].
Defined.

Lemma added_subscriber_is_found_witness :
  faults one_subscriber = []
  /\ exists w1,
       add_subscriber 2 (u8"dana") (u8"Dana") one_subscriber = (w1, Ok tt)
       /\ subscribers w1
          = <[2 := new_entry 2 (u8"dana") (u8"Dana") (clock (env one_subscriber))]>
              (subscribers one_subscriber)
       /\ (subscriber_exists 2 w1).2 = Ok true
       /\ (exists l, (get_all_subscribers w1).2 = Ok l
                     /\ new_entry 2 (u8"dana") (u8"Dana")
                                  (clock (env one_subscriber)) ∈ l)
       /\ (get_subscriber_count w1).2
          = Ok (Z.of_nat (size (subscribers one_subscriber))
                + match subscribers one_subscriber !! 2 with
                  | Some _ => 0
                  | None => 1
                  end).
Proof.
  split; [reflexivity|].
  exact (added_subscriber_is_found 2 (u8"dana") (u8"Dana") one_subscriber eq_refl).
Defined.

Lemma remove_undoes_add_witness :
  faults one_subscriber = [] /\ subscribers one_subscriber !! 2 = None
  /\ exists w1 w2,
       add_subscriber 2 (u8"dana") (u8"Dana") one_subscriber = (w1, Ok tt)
       /\ remove_subscriber 2 w1 = (w2, Ok None)
       /\ subscribers w2 = subscribers one_subscriber
       /\ (subscriber_exists 2 w2).2 = Ok false.
Proof.
  assert (subscribers one_subscriber !! 2 = None) as Hnew by (vm_compute; reflexivity).
  split_and!; [reflexivity | exact Hnew |].
  exact (remove_undoes_add 2 (u8"dana") (u8"Dana") one_subscriber eq_refl Hnew).
Defined.

Lemma subscriber_list_matches_count_witness :
  faults two_subscribers = []
  /\ exists w1 n l,
       get_subscriber_count two_subscribers = (w1, Ok n)
       /\ (get_all_subscribers w1).2 = Ok l
       /\ Z.of_nat (length l) = n
       /\ (forall s, s ∈ l <-> exists uid, subscribers two_subscribers !! uid = Some s)
       /\ (wf_registry (subscribers two_subscribers) -> NoDup (user_id <$> l)).
Proof.
  split; [reflexivity|].
  exact (subscriber_list_matches_count two_subscribers eq_refl).
Defined.

(** Redis raises on the write of the new entry: the user is told that
    the subscription is active, and is not in the registry. *)
Lemma subscribe_new_user_witness :
  next_fault write_fails = None
  /\ subscribers write_fails !! sender from_dana = None
  /\ fault_at 1 write_fails = Some connection_lost
  /\ exists w',
       BarbyTelegramBot.subscribe_command from_dana write_fails = (w', Ok tt)
       /\ subscribers w' = subscribers write_fails
       /\ trace w'
          = [ERedis (Hexists 2) true; ERedis (Hset 2) false; ERedis Hlen true;
             ESend (SendMessage 2 (BarbyTelegramBot.subscribed_message (u8"Dana")))
                   None].
Proof.
  assert (subscribers write_fails !! sender from_dana = None) as Hnew
    by (vm_compute; reflexivity).
  split_and!; [reflexivity | exact Hnew | reflexivity |].
  destruct (subscribe_new_user from_dana write_fails eq_refl Hnew)
    as (w' & Hrun & Hsub & Htr).
  exists w'. split_and!; [exact Hrun | exact Hsub | exact Htr].
Defined.

Lemma subscribe_again_changes_nothing_witness :
  next_fault one_subscriber = None
  /\ subscribers one_subscriber !! sender from_subscriber_1 = Some (subscriber 1)
  /\ exists w',
       BarbyTelegramBot.subscribe_command from_subscriber_1 one_subscriber
       = (w', Ok tt)
       /\ subscribers w' = subscribers one_subscriber
       /\ trace w'
          = [ERedis (Hexists 1) true;
             ESend (SendMessage 1
                      (BarbyTelegramBot.already_subscribed_message (u8"User")))
                   None].
Proof.
  assert (subscribers one_subscriber !! sender from_subscriber_1 = Some (subscriber 1))
    as Hs by (vm_compute; reflexivity).
  split_and!; [reflexivity | exact Hs |].
  destruct (subscribe_again_changes_nothing from_subscriber_1 one_subscriber
              (subscriber 1) eq_refl Hs) as (w' & Hrun & Hsub & Htr).
  exists w'. split_and!; [exact Hrun | exact Hsub | exact Htr].
Defined.

(** Redis raises on the removal: the user is told that they are
    unsubscribed, and is in the registry still. *)
Lemma unsubscribe_outcomes_witness :
  next_fault write_fails = None
  /\ exists w',
       BarbyTelegramBot.unsubscribe_command from_subscriber_1 write_fails = (w', Ok tt)
       /\ subscribers w' = subscribers write_fails
       /\ trace w'
          = [ERedis (Hexists 1) true; ERedis (Hdel 1) false; ERedis Hlen true;
             ESend (SendMessage 1 (BarbyTelegramBot.unsubscribed_message (u8"User")))
                   None].
Proof.
  split; [reflexivity|].
  destruct (unsubscribe_outcomes from_subscriber_1 write_fails eq_refl)
    as (w' & Hrun & Hcase).
  exists w'. split; [exact Hrun|]. exact Hcase.
Defined.

Lemma command_raises_when_registry_is_down_witness :
  next_fault registry_down = Some connection_lost
  /\ (exists w',
        BarbyTelegramBot.subscribe_command from_dana registry_down
        = (w', Raise connection_lost)
        /\ subscribers w' = subscribers registry_down
        /\ replies w' = replies registry_down
        /\ trace w' = trace registry_down ++ [ERedis (Hexists (sender from_dana)) false])
  /\ (exists w',
        BarbyTelegramBot.unsubscribe_command from_dana registry_down
        = (w', Raise connection_lost)
        /\ subscribers w' = subscribers registry_down
        /\ replies w' = replies registry_down
        /\ trace w' = trace registry_down ++ [ERedis (Hexists (sender from_dana)) false]).
Proof.
  split; [reflexivity|].
  exact (command_raises_when_registry_is_down from_dana registry_down connection_lost
           eq_refl).
Defined.

Lemma subscribe_then_unsubscribe_witness :
  faults one_subscriber = []
  /\ subscribers one_subscriber !! sender from_dana = None
  /\ subscribers
       (BarbyTelegramBot.unsubscribe_command from_dana
          (BarbyTelegramBot.subscribe_command from_dana one_subscriber).1).1
     = subscribers one_subscriber.
Proof.
  assert (subscribers one_subscriber !! sender from_dana = None) as Hnew
    by (vm_compute; reflexivity).
  split_and!; [reflexivity | exact Hnew |].
  exact (subscribe_then_unsubscribe from_dana one_subscriber eq_refl Hnew).
Defined.

(** Three subscribers, of whom the first served has blocked the bot. *)
Lemma text_reaches_each_subscriber_once_witness :
  wf_registry (subscribers three_subscribers)
  /\ next_fault three_subscribers = None /\ fault_at 1 three_subscribers = None
  /\ subscribers three_subscribers <> ∅
  /\ (BarbyTelegramBot.notify_subscribers (Some tt) (u8"hello") three_subscribers).2
     = Ok tt
  /\ size (subscribers
             (BarbyTelegramBot.notify_subscribers (Some tt) (u8"hello")
                three_subscribers).1) = 1%nat.
Proof.
  assert (wf_registry (subscribers three_subscribers)) as Hwf by compute_done.
  assert (subscribers three_subscribers <> ∅) as Hne by compute_done.
  split_and!; [exact Hwf | reflexivity | reflexivity | exact Hne | | vm_compute; reflexivity].
  exact (proj1 (text_reaches_each_subscriber_once tt (u8"hello") three_subscribers _ _
                  Hwf eq_refl eq_refl Hne (surjective_pairing _))).
Defined.

Lemma every_subscriber_gets_every_concert_witness :
  [FromApi real_concert; FromParser show_c] <> []
  /\ faults two_subscribers = [] /\ replies two_subscribers = []
  /\ subscribers two_subscribers <> ∅
  /\ exists w',
       notify_new_concerts [FromApi real_concert; FromParser show_c] two_subscribers
       = (w', Ok tt)
       /\ subscribers w' = subscribers two_subscribers
       /\ trace w'
          = trace two_subscribers
            ++ ERedis Hlen true
               :: dispatch_events [FromApi real_concert; FromParser show_c]
                    (map snd (map_to_list (subscribers two_subscribers)))
       /\ length (filter (fun e => is_send e = true)
                         (drop (length (trace two_subscribers)) (trace w')))
          = (length [FromApi real_concert; FromParser show_c]
             * size (subscribers two_subscribers))%nat.
Proof.
  assert (subscribers two_subscribers <> ∅) as Hne by compute_done.
  split_and!; [done | reflexivity | reflexivity | exact Hne |].
  apply (every_subscriber_gets_every_concert
           [FromApi real_concert; FromParser show_c] two_subscribers);
    [done | reflexivity | reflexivity | exact Hne].
Defined.

Lemma digest_goes_once_to_each_subscriber_witness :
  [FromApi real_concert; FromParser show_c] <> []
  /\ faults two_subscribers = [] /\ replies two_subscribers = []
  /\ subscribers two_subscribers <> ∅
  /\ exists w',
       BarbyTelegramBot.notify_new_concerts (Some tt)
         [FromApi real_concert; FromParser show_c] two_subscribers = (w', Ok tt)
       /\ subscribers w' = subscribers two_subscribers
       /\ trace w'
          = trace two_subscribers
            ++ [ERedis Hlen true; ERedis Hlen true; ERedis Hgetall true]
            ++ calls_to (map snd (map_to_list (subscribers two_subscribers)))
                 (fun uid =>
                    SendMessage uid
                      (BarbyTelegramBot.digest_message
                         [FromApi real_concert; FromParser show_c])).
Proof.
  assert (subscribers two_subscribers <> ∅) as Hne by compute_done.
  split_and!; [done | reflexivity | reflexivity | exact Hne |].
  apply (digest_goes_once_to_each_subscriber tt
           [FromApi real_concert; FromParser show_c] two_subscribers);
    [done | reflexivity | reflexivity | exact Hne].
Defined.

(** Two shows are listed, none is stored, two users are subscribed:
    four calls of the Bot API. *)
Lemma healthy_run_end_to_end_witness :
  faults two_listed = [] /\ replies two_listed = []
  /\ port_ok two_listed = true /\ token_ok two_listed = true
  /\ subscribers two_listed <> ∅ /\ unseen two_listed <> []
  /\ (lambda_handler two_listed).2 = Ok (Some success)
  /\ length (filter (fun e => is_send e = true) (trace (lambda_handler two_listed).1))
     = 4%nat.
Proof.
  assert (subscribers two_listed <> ∅) as Hne by compute_done.
  assert (unseen two_listed <> []) as Hnew by (vm_compute; discriminate).
  destruct (healthy_run_end_to_end two_listed eq_refl eq_refl eq_refl eq_refl Hne Hnew)
    as (w' & Hrun & _).
  split_and!;
    [reflexivity | reflexivity | reflexivity | reflexivity | exact Hne | exact Hnew | |].
  - by rewrite Hrun.
  - vm_compute. reflexivity.
Defined.

(** Two shows are listed and nobody is subscribed: the snapshot is
    written, nothing is sent. *)
Lemma nothing_sent_without_subscribers_witness :
  subscribers nobody_subscribed = ∅
  /\ Forall (fun e => is_send e = false)
            (drop (length (trace nobody_subscribed))
                  (trace (lambda_handler nobody_subscribed).1))
  /\ is_Some (strings (lambda_handler nobody_subscribed).1
                !! get_concert_key (u8"5286")).
Proof.
  assert (unseen nobody_subscribed <> []) as Hnew by (vm_compute; discriminate).
  destruct (nothing_sent_without_subscribers nobody_subscribed _ _ eq_refl
              (surjective_pairing _)) as [Hquiet Hsaved].
  split_and!; [reflexivity | exact Hquiet |].
  apply (proj2 (Hsaved eq_refl eq_refl eq_refl Hnew) show_a). vm_compute. left.
Defined.

(** Both listed shows are known, one under an older price: the
    snapshot keeps the older price. *)
Lemma unchanged_listing_is_only_read_witness :
  faults both_known = [] /\ port_ok both_known = true
  /\ token_ok both_known = true
  /\ get_concerts (upstream (env both_known)) <> [] /\ unseen both_known = []
  /\ (lambda_handler both_known).2 = Ok (Some success)
  /\ strings (lambda_handler both_known).1 = strings both_known
  /\ length (trace (lambda_handler both_known).1) = 5%nat.
Proof.
  assert (get_concerts (upstream (env both_known)) <> []) as Hlisted
    by (vm_compute; discriminate).
  assert (unseen both_known = []) as Hnew by (vm_compute; reflexivity).
  destruct (unchanged_listing_is_only_read both_known eq_refl eq_refl eq_refl Hlisted Hnew)
    as (w' & Hrun & Hstr & _ & _ & Htr).
  split_and!; [reflexivity | reflexivity | reflexivity | exact Hlisted | exact Hnew | | |].
  - by rewrite Hrun.
  - by rewrite Hrun.
  - vm_compute. reflexivity.
Defined.

Lemma failed_load_makes_everything_new_witness :
  next_fault registry_down = Some connection_lost
  /\ exists w',
       load_last_state registry_down = (w', Ok (∅, None))
       /\ strings w' = strings registry_down
       /\ compute_new [show_a; show_b] (∅ : gmap pystr json_doc)
          = (current_concerts [show_a; show_b]).*2
       /\ (NoDup (show_id <$> [show_a; show_b]) ->
           compute_new [show_a; show_b] (∅ : gmap pystr json_doc) = [show_a; show_b]).
Proof.
  split; [reflexivity|].
  exact (failed_load_makes_everything_new registry_down connection_lost
           [show_a; show_b] eq_refl).
Defined.

(** With a port that is no number the invocation ends before it reaches
    Redis: two lines in the log, no event, no response. *)
Example bad_port_ends_the_invocation :
  port_ok port_not_a_number = false
  /\ (lambda_handler port_not_a_number).2 = Ok None
  /\ trace (lambda_handler port_not_a_number).1 = []
  /\ log (lambda_handler port_not_a_number).1
     = [(INFO, u8"🔄 Initializing Barby API scraper and Redis cache");
        (ERROR, u8"❌ Error during concert check: "
                ++ u8"invalid literal for int() with base 10: 'redis'")].
Proof. split_and!; vm_compute; reflexivity. Qed.
